(** * Object pools of ktpUtils (object_pool.hpp)

    A shallow embedding of [ktp::ObjectPool<T>] and
    [ktp::IndexedObjectPool<T>]: fixed-capacity pools whose free slots are
    threaded into an intrusive singly linked list.

    Machine model.
    - [std::size_t] is a 64-bit unsigned integer: a [Z] in [0, 2^64), with
      the wrap-around of [++], [--] and [capacity_ - 1] written out ([wrap]).
    - The array behind [pool_] is a [list] of pool units; [pool_] itself is
      [None] for [nullptr] and [Some units] for the array handed out by
      [new[]].  A pool owns its array exclusively (copying is deleted in the
      source), so the array travels inside the pool record.
    - A unit pointer is [Null] or [At i], the address [&pool_[i]];
      [At capacity] is the one-past-the-end address that [clear] stores for a
      moment.  Reading or writing through a pointer is checked: through
      [nullptr] it is [Undefined NullDeref], outside the array it is
      [Undefined OutOfBounds].  These are the undefined behaviours of the
      C++ program, made explicit.
    - Pointers are compared by address ([ptr_lt]).  Two units of the array
      compare as their indices do.  The language leaves the comparison of
      [nullptr] with a unit unspecified; it is modelled as a flat address
      space does it, with [nullptr] at address 0, below every unit.
    - Forming the address [&pool_[i]], as [at] does, is checked like an
      access, except that offset 0 from a null [pool_] is [nullptr].
    - [new[]] is taken to succeed (no [std::bad_alloc]). *)

From Stdlib Require Import ZArith Lia.
From stdpp Require Import base list.

Open Scope Z_scope.

(** ** Machine integers, faults, pointers *)

Definition size_t_modulus : Z := 2 ^ 64.

Definition wrap (x : Z) : Z := x mod size_t_modulus.

Inductive fault := NullDeref | OutOfBounds.

Inductive result (A : Type) : Type :=
| Ok (a : A)
| Undefined (f : fault).

Arguments Ok {A} a.
Arguments Undefined {A} f.

Definition bind {A B : Type} (m : result A) (k : A -> result B) : result B :=
  match m with
  | Ok a => k a
  | Undefined f => Undefined f
  end.

Notation "'let!' x ':=' m 'in' k" := (bind m (fun x => k))
  (at level 10, x name, m at level 100, k at level 200).

Definition defined {A : Type} (m : result A) : Prop := exists a, m = Ok a.

Inductive ptr := Null | At (i : Z).

(** [p < q] on unit pointers, by address: [nullptr] is address 0. *)
Definition ptr_lt (p q : ptr) : bool :=
  match p, q with
  | Null, At _ => true
  | At i, At j => i <? j
  | _, Null => false
  end.

(** ** Checked access to the array behind [pool_] *)

Section Storage.
Context {U : Type}.

Definition in_bounds (a : list U) (i : Z) : bool :=
  (0 <=? i) && (i <? Z.of_nat (length a)).

(** [pool_[i]] as an rvalue. *)
Definition load (pool_ : option (list U)) (i : Z) : result U :=
  match pool_ with
  | None => Undefined NullDeref
  | Some a =>
      if in_bounds a i then
        match a !! Z.to_nat i with
        | Some u => Ok u
        | None => Undefined OutOfBounds
        end
      else Undefined OutOfBounds
  end.

(** [pool_[i].field = v], as the field update [f] of the unit. *)
Definition store (pool_ : option (list U)) (i : Z) (f : U -> U)
  : result (option (list U)) :=
  let! u := load pool_ i in
  match pool_ with
  | None => Undefined NullDeref
  | Some a => Ok (Some (<[Z.to_nat i := f u]> a))
  end.

(** [p->...] as an rvalue. *)
Definition deref (pool_ : option (list U)) (p : ptr) : result U :=
  match p with
  | Null => Undefined NullDeref
  | At i => load pool_ i
  end.

(** [p->field = v]. *)
Definition store_at (pool_ : option (list U)) (p : ptr) (f : U -> U)
  : result (option (list U)) :=
  match p with
  | Null => Undefined NullDeref
  | At i => store pool_ i f
  end.

(** The number of units behind [pool_]. *)
Definition units (pool_ : option (list U)) : Z :=
  match pool_ with
  | None => 0
  | Some a => Z.of_nat (length a)
  end.
End Storage.

(** ** [ktp::ObjectPool<T>] *)

Module ObjectPool.
Section Defs.
Context {T : Type}.

Record PoolUnit := {
  active_ : bool;
  next_ : ptr;
  object_ : T
}.

Definition set_active (b : bool) (u : PoolUnit) : PoolUnit :=
  {| active_ := b; next_ := next_ u; object_ := object_ u |}.

Definition set_next (q : ptr) (u : PoolUnit) : PoolUnit :=
  {| active_ := active_ u; next_ := q; object_ := object_ u |}.

Record pool := {
  first_available_ : ptr;
  pool_ : option (list PoolUnit);
  active_count_ : Z;
  capacity_ : Z
}.

(** [new PoolUnit<T>[capacity_]]: every unit value-initialised, holding
    the default [T{}]. *)
Definition inflatePool (dflt : T) (capacity : Z) : option (list PoolUnit) :=
  Some (replicate (Z.to_nat capacity)
          {| active_ := false; next_ := Null; object_ := dflt |}).

(** The body of the [for] loop of [clear], run [n] times from index [i]. *)
Fixpoint clear_loop (n : nat) (i : Z) (a : option (list PoolUnit))
  : result (option (list PoolUnit)) :=
  match n with
  | O => Ok a
  | S n' =>
      let! a1 := store a i (set_active false) in
      let! a2 := store a1 i (set_next (At (i + 1))) in
      clear_loop n' (i + 1) a2
  end.

Definition clear (p : pool) : result pool :=
  let first := At 0 in
  let! a1 := clear_loop (Z.to_nat (capacity_ p)) 0 (pool_ p) in
  let! a2 := store a1 (wrap (capacity_ p - 1)) (set_next Null) in
  Ok {| first_available_ := first; pool_ := a2;
        active_count_ := 0; capacity_ := capacity_ p |}.

(** [ObjectPool(std::size_t capacity)]. *)
Definition construct (dflt : T) (capacity : Z) : result pool :=
  clear {| first_available_ := Null; pool_ := inflatePool dflt capacity;
           active_count_ := 0; capacity_ := capacity |}.

(** [T* activate()]: the handle [At i] stands for [&pool_[i].object_],
    [Null] for [nullptr]. *)
Definition activate (p : pool) : result (ptr * pool) :=
  match first_available_ p with
  | Null => Ok (Null, p)
  | At i =>
      let! a1 := store (pool_ p) i (set_active true) in
      let aux := At i in
      let! u := load a1 i in
      Ok (aux, {| first_available_ := next_ u; pool_ := a1;
                  active_count_ := wrap (active_count_ p + 1);
                  capacity_ := capacity_ p |})
  end.

(** [active(index)]: [pool_[index].active_], without a bounds check. *)
Definition active (index : Z) (p : pool) : result bool :=
  let! u := load (pool_ p) index in Ok (active_ u).

Definition activeCount (p : pool) : Z := active_count_ p.

(** [at(index)]: [index < capacity_ ? &pool_[index] : nullptr].  The
    address [&pool_[index]] is formed from [pool_]: on the array it is the
    address of the unit, and outside the array it is out of bounds; on a
    null [pool_] offset 0 is [nullptr] again and any other offset is
    arithmetic on [nullptr]. *)
Definition at_ (index : Z) (p : pool) : result ptr :=
  if index <? capacity_ p then
    match pool_ p with
    | None => if index =? 0 then Ok Null else Undefined NullDeref
    | Some a =>
        if in_bounds a index then Ok (At index) else Undefined OutOfBounds
    end
  else Ok Null.

Definition capacity (p : pool) : Z := capacity_ p.

(** [deactivate(index)]: the unit becomes the head of the free list. *)
Definition deactivate (index : Z) (p : pool) : result pool :=
  if index <? capacity_ p then
    let! a1 := store (pool_ p) index (set_active false) in
    let! a2 := store a1 index (set_next (first_available_ p)) in
    Ok {| first_available_ := At index; pool_ := a2;
          active_count_ := wrap (active_count_ p - 1);
          capacity_ := capacity_ p |}
  else Ok p.

(** [operator=(ObjectPool&& other)] for [this != &other]: the pair is
    [( *this, other)] afterwards.  The array [this] held before is
    released by [delete[]]. *)
Definition move_assign (this other : pool) : pool * pool :=
  ({| first_available_ := first_available_ other; pool_ := pool_ other;
      active_count_ := active_count_ other;
      capacity_ := capacity_ other |},
   {| first_available_ := Null; pool_ := None;
      active_count_ := active_count_ other;
      capacity_ := capacity_ other |}).

(** [ObjectPool(ObjectPool&& other)]: [capacity_] has no initialiser; the
    assignment overwrites it before anything reads it. *)
Definition move_construct (other : pool) : pool * pool :=
  move_assign {| first_available_ := Null; pool_ := None;
                 active_count_ := 0; capacity_ := 0 |} other.

(** [~ObjectPool()]: [delete[] pool_], which does nothing on [nullptr];
    the result is the array that was released, if any. *)
Definition destroy (p : pool) : option (list PoolUnit) := pool_ p.

Definition set_object (v : T) (u : PoolUnit) : PoolUnit :=
  {| active_ := active_ u; next_ := next_ u; object_ := v |}.

(** [pool[index]] read through the reference [operator[]] returns; no
    bounds check. *)
Definition subscript (index : Z) (p : pool) : result T :=
  let! u := load (pool_ p) index in Ok (object_ u).

(** [pool[index] = v], written through that reference. *)
Definition subscript_assign (index : Z) (v : T) (p : pool) : result pool :=
  let! a := store (pool_ p) index (set_object v) in
  Ok {| first_available_ := first_available_ p; pool_ := a;
        active_count_ := active_count_ p; capacity_ := capacity_ p |}.
End Defs.
Arguments PoolUnit : clear implicits.
Arguments pool : clear implicits.
End ObjectPool.

(** ** [ktp::IndexedObjectPool<T>] *)

Module IndexedObjectPool.
Section Defs.
Context {T : Type}.

Record IndexedPoolUnit := {
  active_ : bool;
  index_ : Z;
  next_ : ptr;
  object_ : T
}.

Definition set_active (b : bool) (u : IndexedPoolUnit) : IndexedPoolUnit :=
  {| active_ := b; index_ := index_ u; next_ := next_ u;
     object_ := object_ u |}.

Definition set_index (i : Z) (u : IndexedPoolUnit) : IndexedPoolUnit :=
  {| active_ := active_ u; index_ := i; next_ := next_ u;
     object_ := object_ u |}.

Definition set_next (q : ptr) (u : IndexedPoolUnit) : IndexedPoolUnit :=
  {| active_ := active_ u; index_ := index_ u; next_ := q;
     object_ := object_ u |}.

Record pool := {
  first_available_ : ptr;
  pool_ : option (list IndexedPoolUnit);
  active_count_ : Z;
  capacity_ : Z;
  highest_active_index_ : Z
}.

Definition inflatePool (dflt : T) (capacity : Z)
  : option (list IndexedPoolUnit) :=
  Some (replicate (Z.to_nat capacity)
          {| active_ := false; index_ := 0; next_ := Null;
             object_ := dflt |}).

Fixpoint clear_loop (n : nat) (i : Z) (a : option (list IndexedPoolUnit))
  : result (option (list IndexedPoolUnit)) :=
  match n with
  | O => Ok a
  | S n' =>
      let! a1 := store a i (set_active false) in
      let! a2 := store a1 i (set_index i) in
      let! a3 := store a2 i (set_next (At (i + 1))) in
      clear_loop n' (i + 1) a3
  end.

Definition clear (p : pool) : result pool :=
  let first := At 0 in
  let! a1 := clear_loop (Z.to_nat (capacity_ p)) 0 (pool_ p) in
  let! a2 := store a1 (wrap (capacity_ p - 1)) (set_next Null) in
  Ok {| first_available_ := first; pool_ := a2;
        active_count_ := 0; capacity_ := capacity_ p;
        highest_active_index_ := 0 |}.

Definition construct (dflt : T) (capacity : Z) : result pool :=
  clear {| first_available_ := Null; pool_ := inflatePool dflt capacity;
           active_count_ := 0; capacity_ := capacity;
           highest_active_index_ := 0 |}.

Definition activate (p : pool) : result (ptr * pool) :=
  match first_available_ p with
  | Null => Ok (Null, p)
  | At i =>
      let! a1 := store (pool_ p) i (set_active true) in
      let! u := load a1 i in
      let highest :=
        if highest_active_index_ p <? index_ u then index_ u
        else highest_active_index_ p in
      let aux := At i in
      Ok (aux, {| first_available_ := next_ u; pool_ := a1;
                  active_count_ := wrap (active_count_ p + 1);
                  capacity_ := capacity_ p;
                  highest_active_index_ := highest |})
  end.

(** [active(index)]: [pool_[index].active_], without a bounds check. *)
Definition active (index : Z) (p : pool) : result bool :=
  let! u := load (pool_ p) index in Ok (active_ u).

Definition activeCount (p : pool) : Z := active_count_ p.

(** [at(index)]: [index < capacity_ ? &pool_[index] : nullptr].  The
    address [&pool_[index]] is formed from [pool_]: on the array it is the
    address of the unit, and outside the array it is out of bounds; on a
    null [pool_] offset 0 is [nullptr] again and any other offset is
    arithmetic on [nullptr]. *)
Definition at_ (index : Z) (p : pool) : result ptr :=
  if index <? capacity_ p then
    match pool_ p with
    | None => if index =? 0 then Ok Null else Undefined NullDeref
    | Some a =>
        if in_bounds a index then Ok (At index) else Undefined OutOfBounds
    end
  else Ok Null.

Definition capacity (p : pool) : Z := capacity_ p.

(** The two ways [deactivate] links the unit [index] into the free list:
    behind the head when the head lies below the link the unit still
    carries, in front of it otherwise.  The result is the new head and
    the array. *)
Definition link_free (first : ptr) (index : Z)
    (a : option (list IndexedPoolUnit))
  : result (ptr * option (list IndexedPoolUnit)) :=
  let! u := load a index in
  if ptr_lt first (next_ u) then
    let! h := deref a first in
    let aux := next_ h in
    let! a1 := store_at a first (set_next (At index)) in
    let! a2 := store a1 index (set_next aux) in
    Ok (first, a2)
  else
    let! a1 := store a index (set_next first) in
    Ok (At index, a1).

(** The reverse loop of [deactivate]: [i] runs from [n - 1] down to [0]
    and stops at the first active unit; [None] when the loop runs out
    (its counter wraps to [(std::size_t)-1]). *)
Fixpoint scan_down (a : option (list IndexedPoolUnit)) (n : nat)
  : result (option Z) :=
  match n with
  | O => Ok None
  | S n' =>
      let i := Z.of_nat n' in
      let! u := load a i in
      if active_ u then Ok (Some i) else scan_down a n'
  end.

(** [deactivate(index)]: relink, decrement, and recompute the highest
    active index when the unit held it. *)
Definition deactivate (index : Z) (p : pool) : result pool :=
  if index <? capacity_ p then
    let! a1 := store (pool_ p) index (set_active false) in
    let! fa := link_free (first_available_ p) index a1 in
    let count := wrap (active_count_ p - 1) in
    let! highest :=
      (if highest_active_index_ p =? index then
         if index =? 0 then Ok (highest_active_index_ p)
         else
           let! found :=
             scan_down (snd fa) (Z.to_nat (highest_active_index_ p)) in
           match found with
           | Some i => Ok i
           | None => Ok 0
           end
       else Ok (highest_active_index_ p)) in
    Ok {| first_available_ := fst fa; pool_ := snd fa;
          active_count_ := count; capacity_ := capacity_ p;
          highest_active_index_ := highest |}
  else Ok p.

Definition highestActiveIndex (p : pool) : Z := highest_active_index_ p.

Definition move_assign (this other : pool) : pool * pool :=
  ({| first_available_ := first_available_ other; pool_ := pool_ other;
      active_count_ := active_count_ other;
      capacity_ := capacity_ other;
      highest_active_index_ := highest_active_index_ other |},
   {| first_available_ := Null; pool_ := None;
      active_count_ := active_count_ other;
      capacity_ := capacity_ other;
      highest_active_index_ := highest_active_index_ other |}).

Definition move_construct (other : pool) : pool * pool :=
  move_assign {| first_available_ := Null; pool_ := None;
                 active_count_ := 0; capacity_ := 0;
                 highest_active_index_ := 0 |} other.

Definition destroy (p : pool) : option (list IndexedPoolUnit) := pool_ p.

Definition set_object (v : T) (u : IndexedPoolUnit) : IndexedPoolUnit :=
  {| active_ := active_ u; index_ := index_ u; next_ := next_ u;
     object_ := v |}.

Definition subscript (index : Z) (p : pool) : result T :=
  let! u := load (pool_ p) index in Ok (object_ u).

Definition subscript_assign (index : Z) (v : T) (p : pool) : result pool :=
  let! a := store (pool_ p) index (set_object v) in
  Ok {| first_available_ := first_available_ p; pool_ := a;
        active_count_ := active_count_ p; capacity_ := capacity_ p;
        highest_active_index_ := highest_active_index_ p |}.
End Defs.
Arguments IndexedPoolUnit : clear implicits.
Arguments pool : clear implicits.
End IndexedObjectPool.

(** ** Views of the array used in the statements *)

Section View.
Context {U : Type}.

(** The unit at index [i], when [i] is inside the array. *)
Definition get (a : list U) (i : Z) : option U :=
  if in_bounds a i then a !! Z.to_nat i else None.

Definition upd (a : list U) (i : Z) (v : U) : list U :=
  <[Z.to_nat i := v]> a.

Context (nxt : U -> ptr).

(** [chain a p l]: following the links from [p] visits exactly the units
    [l], in this order, and then reaches [nullptr]. *)
Fixpoint chain (a : list U) (p : ptr) (l : list Z) : Prop :=
  match l with
  | [] => p = Null
  | i :: l' => p = At i /\ exists u, get a i = Some u /\ chain a (nxt u) l'
  end.

(** The free list read off by following at most [fuel] links; [None] when
    the walk leaves the array or does not end within [fuel] steps. *)
Fixpoint walk (fuel : nat) (a : list U) (p : ptr) : option (list Z) :=
  match fuel with
  | O => None
  | S fuel' =>
      match p with
      | Null => Some []
      | At i =>
          match get a i with
          | Some u =>
              match walk fuel' a (nxt u) with
              | Some l => Some (i :: l)
              | None => None
              end
          | None => None
          end
      end
  end.
End View.

(** ** Client calls *)

Inductive call := Activate | Deactivate (index : Z) | Clear.

(** ** Reachable states and representation invariant of [ObjectPool] *)

Section BasicSpec.
Import ObjectPool.
Context {T : Type}.

(** The pool has its array, of [capacity_] units. *)
Definition op_storage_ok (p : pool T) : Prop :=
  exists a, pool_ p = Some a /\ Z.of_nat (length a) = capacity_ p /\
            0 < capacity_ p < size_t_modulus.

(** The free list of the pool, read by following the links from
    [first_available_]. *)
Definition op_free_list (p : pool T) : option (list Z) :=
  match pool_ p with
  | Some a => walk next_ (S (length a)) a (first_available_ p)
  | None => None
  end.

(** The states a client reaches from the constructor with [activate],
    [clear] and [deactivate], the latter on active units only. *)
Inductive op_reachable : pool T -> Prop :=
| op_reach_construct dflt capacity p :
    0 < capacity < size_t_modulus ->
    construct dflt capacity = Ok p -> op_reachable p
| op_reach_activate p h p' :
    op_reachable p -> activate p = Ok (h, p') -> op_reachable p'
| op_reach_deactivate index p p' :
    op_reachable p -> active index p = Ok true ->
    deactivate index p = Ok p' -> op_reachable p'
| op_reach_clear p p' :
    op_reachable p -> clear p = Ok p' -> op_reachable p'.

(** The free list is [fl]: a chain without repetition through exactly
    the inactive units, and [active_count_] counts the others. *)
Record op_inv (p : pool T) (a : list (PoolUnit T)) (fl : list Z) : Prop := {
  op_inv_pool : pool_ p = Some a;
  op_inv_len : Z.of_nat (length a) = capacity_ p;
  op_inv_cap : 0 < capacity_ p < size_t_modulus;
  op_inv_chain : chain next_ a (first_available_ p) fl;
  op_inv_nodup : NoDup fl;
  op_inv_free :
    forall i u, get a i = Some u -> (active_ u = false <-> i ∈ fl);
  op_inv_count : active_count_ p = capacity_ p - Z.of_nat (length fl)
}.

(** A client run: the handles the [activate] calls return, in order, and
    the pool afterwards. *)
Definition op_call (c : call) (p : pool T) : result (list ptr * pool T) :=
  match c with
  | Activate => let! r := activate p in Ok ([fst r], snd r)
  | Deactivate index => let! q := deactivate index p in Ok ([], q)
  | Clear => let! q := clear p in Ok ([], q)
  end.

Fixpoint op_run (cs : list call) (p : pool T) : result (list ptr * pool T) :=
  match cs with
  | [] => Ok ([], p)
  | c :: cs' =>
      let! r := op_call c p in
      let! rs := op_run cs' (snd r) in
      Ok (fst r ++ fst rs, snd rs)
  end.

(** [ObjectPool<T> pool {capacity};] followed by the calls [cs]. *)
Definition op_session (dflt : T) (capacity : Z) (cs : list call)
  : result (list ptr * pool T) :=
  let! p := construct dflt capacity in op_run cs p.

(** The run is defined and gives back only units that are active. *)
Fixpoint op_disciplined (cs : list call) (p : pool T) : bool :=
  match cs with
  | [] => true
  | c :: cs' =>
      match c with
      | Deactivate index =>
          match active index p with Ok true => true | _ => false end
      | _ => true
      end &&
      match op_call c p with
      | Ok r => op_disciplined cs' (snd r)
      | Undefined _ => false
      end
  end.

(** What [clear] leaves in unit [j] of a pool of [n] units. *)
Definition op_cleared (n j : Z) (u : PoolUnit T) : PoolUnit T :=
  {| active_ := false;
     next_ := if j =? n - 1 then Null else At (j + 1);
     object_ := object_ u |}.
End BasicSpec.

(** ** Reachable states and representation invariant of [IndexedObjectPool] *)

Section IndexedSpec.
Import IndexedObjectPool.
Context {T : Type}.

Definition ip_storage_ok (p : pool T) : Prop :=
  exists a, pool_ p = Some a /\ Z.of_nat (length a) = capacity_ p /\
            0 < capacity_ p < size_t_modulus.

Definition ip_free_list (p : pool T) : option (list Z) :=
  match pool_ p with
  | Some a => walk next_ (S (length a)) a (first_available_ p)
  | None => None
  end.

(** As [op_reachable]; a step exists only where the operation is
    defined, and [deactivate] applies to active units only. *)
Inductive ip_reachable : pool T -> Prop :=
| ip_reach_construct dflt capacity p :
    0 < capacity < size_t_modulus ->
    construct dflt capacity = Ok p -> ip_reachable p
| ip_reach_activate p h p' :
    ip_reachable p -> activate p = Ok (h, p') -> ip_reachable p'
| ip_reach_deactivate index p p' :
    ip_reachable p -> active index p = Ok true ->
    deactivate index p = Ok p' -> ip_reachable p'
| ip_reach_clear p p' :
    ip_reachable p -> clear p = Ok p' -> ip_reachable p'.

(** [h] is the largest index of an active unit of the pool. *)
Definition ip_max_active (p : pool T) (h : Z) : Prop :=
  active h p = Ok true /\
  forall i, active i p = Ok true -> i <= h.

(** No unit of the pool is active. *)
Definition ip_none_active (p : pool T) : Prop :=
  forall i, active i p <> Ok true.

Record ip_inv (p : pool T) (a : list (IndexedPoolUnit T)) (fl : list Z)
  : Prop := {
  ip_inv_pool : pool_ p = Some a;
  ip_inv_len : Z.of_nat (length a) = capacity_ p;
  ip_inv_cap : 0 < capacity_ p < size_t_modulus;
  ip_inv_chain : chain next_ a (first_available_ p) fl;
  ip_inv_nodup : NoDup fl;
  ip_inv_free :
    forall i u, get a i = Some u -> (active_ u = false <-> i ∈ fl);
  ip_inv_count : active_count_ p = capacity_ p - Z.of_nat (length fl);
  ip_inv_index : forall i u, get a i = Some u -> index_ u = i;
  ip_inv_bound :
    forall i u, get a i = Some u -> active_ u = true ->
                i <= highest_active_index_ p;
  ip_inv_top :
    highest_active_index_ p = 0 \/
    exists u, get a (highest_active_index_ p) = Some u /\ active_ u = true
}.

(** The links of a reachable indexed pool: they stay inside the array,
    only the last unit links to [nullptr], and the last unit is handed out
    only when every other unit is. *)
Record ip_shape (p : pool T) (a : list (IndexedPoolUnit T)) : Prop := {
  ip_shape_links :
    forall i u j, get a i = Some u -> next_ u = At j ->
                  0 <= j < capacity_ p;
  ip_shape_inner :
    forall i u, get a i = Some u -> i < capacity_ p - 1 -> next_ u <> Null;
  ip_shape_last :
    forall u, get a (capacity_ p - 1) = Some u -> next_ u = Null;
  ip_shape_full :
    forall u, get a (capacity_ p - 1) = Some u -> active_ u = true ->
    forall i v, get a i = Some v -> active_ v = true
}.

Definition ip_cleared (n j : Z) (u : IndexedPoolUnit T)
  : IndexedPoolUnit T :=
  {| active_ := false; index_ := j;
     next_ := if j =? n - 1 then Null else At (j + 1);
     object_ := object_ u |}.

Definition ip_call (c : call) (p : pool T) : result (list ptr * pool T) :=
  match c with
  | Activate => let! r := activate p in Ok ([fst r], snd r)
  | Deactivate index => let! q := deactivate index p in Ok ([], q)
  | Clear => let! q := clear p in Ok ([], q)
  end.

Fixpoint ip_run (cs : list call) (p : pool T) : result (list ptr * pool T) :=
  match cs with
  | [] => Ok ([], p)
  | c :: cs' =>
      let! r := ip_call c p in
      let! rs := ip_run cs' (snd r) in
      Ok (fst r ++ fst rs, snd rs)
  end.

Definition ip_session (dflt : T) (capacity : Z) (cs : list call)
  : result (list ptr * pool T) :=
  let! p := construct dflt capacity in ip_run cs p.

Fixpoint ip_disciplined (cs : list call) (p : pool T) : bool :=
  match cs with
  | [] => true
  | c :: cs' =>
      match c with
      | Deactivate index =>
          match active index p with Ok true => true | _ => false end
      | _ => true
      end &&
      match ip_call c p with
      | Ok r => ip_disciplined cs' (snd r)
      | Undefined _ => false
      end
  end.

(** What [deactivate] does not touch when it relinks the free list. *)
Definition ip_payload (u : IndexedPoolUnit T) : bool * Z * T :=
  (active_ u, index_ u, object_ u).
End IndexedSpec.

(** ** Scenarios *)

(** [ObjectPool<T> pool {3}] after two activations. *)
Definition op_two_of_three : ObjectPool.pool unit :=
  {| ObjectPool.first_available_ := At 2;
     ObjectPool.pool_ :=
       Some [ {| ObjectPool.active_ := true; ObjectPool.next_ := At 1;
                 ObjectPool.object_ := tt |};
              {| ObjectPool.active_ := true; ObjectPool.next_ := At 2;
                 ObjectPool.object_ := tt |};
              {| ObjectPool.active_ := false; ObjectPool.next_ := Null;
                 ObjectPool.object_ := tt |} ];
     ObjectPool.active_count_ := 2;
     ObjectPool.capacity_ := 3 |}.

(** [IndexedObjectPool<T> pool {3}] after three activations. *)
Definition ip_three_of_three : IndexedObjectPool.pool unit :=
  {| IndexedObjectPool.first_available_ := Null;
     IndexedObjectPool.pool_ :=
       Some [ {| IndexedObjectPool.active_ := true;
                 IndexedObjectPool.index_ := 0;
                 IndexedObjectPool.next_ := At 1;
                 IndexedObjectPool.object_ := tt |};
              {| IndexedObjectPool.active_ := true;
                 IndexedObjectPool.index_ := 1;
                 IndexedObjectPool.next_ := At 2;
                 IndexedObjectPool.object_ := tt |};
              {| IndexedObjectPool.active_ := true;
                 IndexedObjectPool.index_ := 2;
                 IndexedObjectPool.next_ := Null;
                 IndexedObjectPool.object_ := tt |} ];
     IndexedObjectPool.active_count_ := 3;
     IndexedObjectPool.capacity_ := 3;
     IndexedObjectPool.highest_active_index_ := 2 |}.

(** Fill a pool of capacity 5, free unit 2, then unit 0, and ask for two
    units again. *)
Definition low_index_bias_calls : list call :=
  [Activate; Activate; Activate; Activate; Activate;
   Deactivate 2; Deactivate 0; Activate; Activate].

(** Fill a pool of capacity 5 and free units 4, 1, 2, 3; then ask for four
    units. *)
Definition scattered_frees_calls : list call :=
  [Activate; Activate; Activate; Activate; Activate;
   Deactivate 4; Deactivate 1; Deactivate 2; Deactivate 3;
   Activate; Activate; Activate; Activate].

(** Take one unit and give it back twice. *)
Definition double_free_calls : list call :=
  [Activate; Deactivate 0; Deactivate 0].

(** Fill a pool of capacity 3 and give unit 2 back twice. *)
Definition indexed_double_free_calls : list call :=
  [Activate; Activate; Activate; Deactivate 2; Deactivate 2].

(** ** Further views of the pools *)

(** A unit pointer of a pool of [n] units that can be followed. *)
Definition ptr_ok (n : Z) (q : ptr) : Prop :=
  match q with
  | Null => True
  | At j => 0 <= j < n
  end.

(** The indices a client passes are [std::size_t] values. *)
Definition call_ok (c : call) : Prop :=
  match c with
  | Deactivate index => 0 <= index < size_t_modulus
  | _ => True
  end.

Section BasicViews.
Import ObjectPool.
Context {T : Type}.

(** The number of units whose flag is set. *)
Definition op_count_active (p : pool T) : Z :=
  match pool_ p with
  | Some a => Z.of_nat (length (filter (fun u => active_ u = true) a))
  | None => 0
  end.

(** Every link of the pool is [nullptr] or the address of a unit. *)
Record op_links_ok (p : pool T) (a : list (PoolUnit T)) : Prop := {
  op_links_pool : pool_ p = Some a;
  op_links_len : Z.of_nat (length a) = capacity_ p;
  op_links_cap : 0 < capacity_ p < size_t_modulus;
  op_links_first : ptr_ok (capacity_ p) (first_available_ p);
  op_links_next :
    forall i u, get a i = Some u -> ptr_ok (capacity_ p) (next_ u)
}.
End BasicViews.

Section IndexedViews.
Import IndexedObjectPool.
Context {T : Type}.

Definition ip_count_active (p : pool T) : Z :=
  match pool_ p with
  | Some a => Z.of_nat (length (filter (fun u => active_ u = true) a))
  | None => 0
  end.
End IndexedViews.

(** ** Pools without their objects, and clients that write

    [operator[]] hands out a reference to the stored object; a client
    writes the object through it.  A pool with its objects forgotten keeps
    what the pool itself manages: flags, links and counters. *)

Definition result_map {A B : Type} (f : A -> B) (m : result A) : result B :=
  match m with
  | Ok a => Ok (f a)
  | Undefined e => Undefined e
  end.

Definition map_units {U V : Type} (f : U -> V) (pl : option (list U))
  : option (list V) :=
  match pl with
  | Some a => Some (f <$> a)
  | None => None
  end.

(** A call of the pool, or a write [pool[index] = v]. *)
Inductive wcall (T : Type) :=
| Manage (c : call)
| Write (index : Z) (v : T).

Arguments Manage {T} c.
Arguments Write {T} index v.

Section Writes.
Context {T : Type}.

(** The calls of the pool among those of the client. *)
Fixpoint manage_only (ws : list (wcall T)) : list call :=
  match ws with
  | [] => []
  | Manage c :: ws' => c :: manage_only ws'
  | Write _ _ :: ws' => manage_only ws'
  end.

(** The object the client wrote last at index [j], if it wrote there. *)
Fixpoint last_write (j : Z) (ws : list (wcall T)) : option T :=
  match ws with
  | [] => None
  | Manage _ :: ws' => last_write j ws'
  | Write index v :: ws' =>
      match last_write j ws' with
      | Some v' => Some v'
      | None => if j =? index then Some v else None
      end
  end.

(** The client writes inside a pool of [n] units. *)
Definition wcall_ok (n : Z) (w : wcall T) : Prop :=
  match w with
  | Manage _ => True
  | Write index _ => 0 <= index < n
  end.

Definition op_erase_unit (u : ObjectPool.PoolUnit T)
  : ObjectPool.PoolUnit unit :=
  {| ObjectPool.active_ := ObjectPool.active_ u;
     ObjectPool.next_ := ObjectPool.next_ u;
     ObjectPool.object_ := tt |}.

Definition op_erase (p : ObjectPool.pool T) : ObjectPool.pool unit :=
  {| ObjectPool.first_available_ := ObjectPool.first_available_ p;
     ObjectPool.pool_ := map_units op_erase_unit (ObjectPool.pool_ p);
     ObjectPool.active_count_ := ObjectPool.active_count_ p;
     ObjectPool.capacity_ := ObjectPool.capacity_ p |}.

Definition op_wcall (w : wcall T) (p : ObjectPool.pool T)
  : result (list ptr * ObjectPool.pool T) :=
  match w with
  | Manage c => op_call c p
  | Write index v =>
      let! q := ObjectPool.subscript_assign index v p in Ok ([], q)
  end.

Fixpoint op_wrun (ws : list (wcall T)) (p : ObjectPool.pool T)
  : result (list ptr * ObjectPool.pool T) :=
  match ws with
  | [] => Ok ([], p)
  | w :: ws' =>
      let! r := op_wcall w p in
      let! rs := op_wrun ws' (snd r) in
      Ok (fst r ++ fst rs, snd rs)
  end.

Definition ip_erase_unit (u : IndexedObjectPool.IndexedPoolUnit T)
  : IndexedObjectPool.IndexedPoolUnit unit :=
  {| IndexedObjectPool.active_ := IndexedObjectPool.active_ u;
     IndexedObjectPool.index_ := IndexedObjectPool.index_ u;
     IndexedObjectPool.next_ := IndexedObjectPool.next_ u;
     IndexedObjectPool.object_ := tt |}.

Definition ip_erase (p : IndexedObjectPool.pool T)
  : IndexedObjectPool.pool unit :=
  {| IndexedObjectPool.first_available_ :=
       IndexedObjectPool.first_available_ p;
     IndexedObjectPool.pool_ :=
       map_units ip_erase_unit (IndexedObjectPool.pool_ p);
     IndexedObjectPool.active_count_ := IndexedObjectPool.active_count_ p;
     IndexedObjectPool.capacity_ := IndexedObjectPool.capacity_ p;
     IndexedObjectPool.highest_active_index_ :=
       IndexedObjectPool.highest_active_index_ p |}.

Definition ip_wcall (w : wcall T) (p : IndexedObjectPool.pool T)
  : result (list ptr * IndexedObjectPool.pool T) :=
  match w with
  | Manage c => ip_call c p
  | Write index v =>
      let! q := IndexedObjectPool.subscript_assign index v p in Ok ([], q)
  end.

Fixpoint ip_wrun (ws : list (wcall T)) (p : IndexedObjectPool.pool T)
  : result (list ptr * IndexedObjectPool.pool T) :=
  match ws with
  | [] => Ok ([], p)
  | w :: ws' =>
      let! r := ip_wcall w p in
      let! rs := ip_wrun ws' (snd r) in
      Ok (fst r ++ fst rs, snd rs)
  end.
End Writes.

(** [ObjectPool<int> pool {3}] after two activations and the writes
    [pool[0] = 10], [pool[1] = 20], [pool[2] = 30], and the same objects in
    a pool that has just been cleared. *)
Definition op_written : ObjectPool.pool Z :=
  {| ObjectPool.first_available_ := At 2;
     ObjectPool.pool_ :=
       Some [ {| ObjectPool.active_ := true; ObjectPool.next_ := At 1;
                 ObjectPool.object_ := 10 |};
              {| ObjectPool.active_ := true; ObjectPool.next_ := At 2;
                 ObjectPool.object_ := 20 |};
              {| ObjectPool.active_ := false; ObjectPool.next_ := Null;
                 ObjectPool.object_ := 30 |} ];
     ObjectPool.active_count_ := 2;
     ObjectPool.capacity_ := 3 |}.

Definition op_written_cleared : ObjectPool.pool Z :=
  {| ObjectPool.first_available_ := At 0;
     ObjectPool.pool_ :=
       Some [ {| ObjectPool.active_ := false; ObjectPool.next_ := At 1;
                 ObjectPool.object_ := 10 |};
              {| ObjectPool.active_ := false; ObjectPool.next_ := At 2;
                 ObjectPool.object_ := 20 |};
              {| ObjectPool.active_ := false; ObjectPool.next_ := Null;
                 ObjectPool.object_ := 30 |} ];
     ObjectPool.active_count_ := 0;
     ObjectPool.capacity_ := 3 |}.

(** A client that takes two units and writes in between, twice at
    index 0. *)
Definition written_calls : list (wcall Z) :=
  [Manage Activate; Write 0 11; Manage Activate; Write 1 21; Write 0 12].

(** ** [ktp::Timer] (timer.hpp)

    [std::chrono::steady_clock] counts nanoseconds in a signed 64-bit
    integer; a time point is the count since the clock's epoch and a
    duration is a count.  Signed overflow is undefined: the arithmetic is
    checked and yields [None] there.  Each call of [now()] is an argument
    of the operation that makes it: the reading the clock gives then. *)

Module Timer.

Definition int64_min : Z := - 2 ^ 63.
Definition int64_max : Z := 2 ^ 63 - 1.

(** [a - b] on counts. *)
Definition sub64 (a b : Z) : option Z :=
  if (int64_min <=? a - b) && (a - b <=? int64_max) then Some (a - b)
  else None.

Record timer := {
  m_paused_time : Z;
  m_started_time : Z;
  m_paused : bool;
  m_started : bool;
  m_stopped : bool
}.

(** The default member initialisers. *)
Definition initial : timer :=
  {| m_paused_time := 0; m_started_time := 0;
     m_paused := false; m_started := false; m_stopped := true |}.

Definition start (now : Z) (t : timer) : timer :=
  {| m_paused_time := 0; m_started_time := now;
     m_paused := false; m_started := true; m_stopped := false |}.

(** [Timer(bool start)]. *)
Definition construct (start_now : bool) (now : Z) : timer :=
  if start_now then start now initial else initial.

(** [elapsed()]; [now] is read only by a running timer. *)
Definition elapsed (now : Z) (t : timer) : option Z :=
  if m_started t then
    if m_paused t then sub64 (m_paused_time t) (m_started_time t)
    else sub64 now (m_started_time t)
  else Some 0.

Definition pause (now : Z) (t : timer) : timer :=
  if m_started t && negb (m_paused t) then
    {| m_paused_time := now; m_started_time := m_started_time t;
       m_paused := true; m_started := m_started t;
       m_stopped := m_stopped t |}
  else t.

Definition paused (t : timer) : bool := m_paused t.

(** [restart()]: [now1] is the reading inside [elapsed()], [now2] the one
    that becomes the new start. *)
Definition restart (now1 now2 : Z) (t : timer) : option (Z * timer) :=
  match elapsed now1 t with
  | Some time =>
      Some (time,
            {| m_paused_time := 0; m_started_time := now2;
               m_paused := false; m_started := true; m_stopped := false |})
  | None => None
  end.

Definition resume (now : Z) (t : timer) : option timer :=
  if m_started t && m_paused t then
    match sub64 (m_paused_time t) (m_started_time t) with
    | Some pause_length =>
        match sub64 now pause_length with
        | Some started =>
            Some {| m_paused_time := m_paused_time t;
                    m_started_time := started;
                    m_paused := false; m_started := m_started t;
                    m_stopped := m_stopped t |}
        | None => None
        end
    | None => None
    end
  else Some t.

Definition started (t : timer) : bool := m_started t.

Definition stop (t : timer) : timer :=
  {| m_paused_time := 0; m_started_time := 0;
     m_paused := false; m_started := false; m_stopped := true |}.

Definition stopped (t : timer) : bool := m_stopped t.

(** [duration_cast] to a coarser unit divides the count, truncating
    towards zero. *)
Definition toMicroseconds (duration : Z) : Z := duration ÷ 1000.
Definition toMilliseconds (duration : Z) : Z := duration ÷ 1000000.
Definition toSeconds (duration : Z) : Z := duration ÷ 1000000000.
Definition toMinutes (duration : Z) : Z := duration ÷ 60000000000.
Definition toHours (duration : Z) : Z := duration ÷ 3600000000000.

(** The calls of a client, each with the clock readings it makes. *)
Inductive tcall :=
| Start (now : Z)
| Stop
| Pause (now : Z)
| Resume (now : Z)
| Restart (now1 now2 : Z)
| Elapsed (now : Z).

Definition readings (c : tcall) : list Z :=
  match c with
  | Start now | Pause now | Resume now | Elapsed now => [now]
  | Restart now1 now2 => [now1; now2]
  | Stop => []
  end.

(** One call: the duration it returns, if it returns one, and the timer
    afterwards. *)
Definition step (c : tcall) (t : timer) : option (option Z * timer) :=
  match c with
  | Start now => Some (None, start now t)
  | Stop => Some (None, stop t)
  | Pause now => Some (None, pause now t)
  | Resume now =>
      match resume now t with
      | Some t' => Some (None, t')
      | None => None
      end
  | Restart now1 now2 =>
      match restart now1 now2 t with
      | Some (d, t') => Some (Some d, t')
      | None => None
      end
  | Elapsed now =>
      match elapsed now t with
      | Some d => Some (Some d, t)
      | None => None
      end
  end.

Fixpoint run (cs : list tcall) (t : timer) : option (list Z * timer) :=
  match cs with
  | [] => Some ([], t)
  | c :: cs' =>
      match step c t with
      | Some (d, t') =>
          match run cs' t' with
          | Some (ds, t'') =>
              Some (match d with Some x => x :: ds | None => ds end, t'')
          | None => None
          end
      | None => None
      end
  end.

(** The readings of a steady clock: counts that never decrease, starting
    not before [from]. *)
Fixpoint steady (from : Z) (rs : list Z) : Prop :=
  match rs with
  | [] => True
  | r :: rs' => from <= r <= int64_max /\ steady r rs'
  end.

(** What a timer under a steady clock satisfies at reading [last]. *)
Record timer_ok (last : Z) (t : timer) : Prop := {
  ok_flags : m_stopped t = negb (m_started t);
  ok_paused : m_paused t = true -> m_started t = true;
  ok_started : 0 <= m_started_time t <= last;
  ok_pause_time :
    m_paused t = true -> m_started_time t <= m_paused_time t <= last
}.

(** The calls that set a timer running: [start()] and [restart()]. *)
Definition starts (c : tcall) : bool :=
  match c with
  | Start _ | Restart _ _ => true
  | _ => false
  end.

End Timer.

(** * Properties *)

(** Case analysis on the integer comparisons of the goal. *)
Ltac zcases :=
  repeat match goal with
    | |- context [?x <=? ?y] => destruct (Z.leb_spec x y)
    | |- context [?x <? ?y] => destruct (Z.ltb_spec x y)
    | |- context [?x =? ?y] => destruct (Z.eqb_spec x y)
    end;
  cbn [andb orb negb]; try lia; try reflexivity; auto.

(** Evaluation of the model on closed inputs. *)
Ltac evaluate :=
  repeat match goal with |- _ /\ _ => split end; vm_compute; reflexivity.

(** ** The array *)

Section StorageFacts.
Context {U : Type}.
Implicit Types (a : list U) (i j : Z) (u v : U).

Lemma get_Some_range a i u :
  get a i = Some u -> 0 <= i < Z.of_nat (length a).
Proof.
  unfold get, in_bounds. zcases; discriminate.
Qed.

Lemma get_in_range a i :
  0 <= i < Z.of_nat (length a) -> exists u, get a i = Some u.
Proof.
  intros H. unfold get, in_bounds. zcases.
  destruct (lookup_lt_is_Some_2 a (Z.to_nat i)) as [u Hu]; [lia|]. eauto.
Qed.

Lemma get_None a i :
  ~ (0 <= i < Z.of_nat (length a)) -> get a i = None.
Proof.
  intros H. destruct (get a i) as [u|] eqn:E; [|reflexivity].
  apply get_Some_range in E. lia.
Qed.

Lemma length_upd a i v : length (upd a i v) = length a.
Proof. apply length_insert. Qed.

Lemma get_upd_eq a i u v : get a i = Some u -> get (upd a i v) i = Some v.
Proof.
  intros H. pose proof (get_Some_range _ _ _ H) as R.
  unfold get, in_bounds, upd. rewrite length_insert. zcases.
  apply list_lookup_insert_eq. lia.
Qed.

Lemma get_upd_ne a i j v : 0 <= i -> i <> j -> get (upd a i v) j = get a j.
Proof.
  intros Hi Hne. unfold get, in_bounds, upd. rewrite length_insert.
  zcases. apply list_lookup_insert_ne. lia.
Qed.

Lemma load_get a i :
  load (Some a) i =
  match get a i with Some u => Ok u | None => Undefined OutOfBounds end.
Proof.
  unfold load, get. destruct (in_bounds a i); [|reflexivity].
  destruct (a !! Z.to_nat i); reflexivity.
Qed.

Lemma store_get a i (f : U -> U) :
  store (Some a) i f =
  match get a i with
  | Some u => Ok (Some (upd a i (f u)))
  | None => Undefined OutOfBounds
  end.
Proof.
  unfold store. rewrite load_get. destruct (get a i); reflexivity.
Qed.

End StorageFacts.

(** ** What a store leaves alone *)

Section StorageFrame.
Context {U : Type}.
Implicit Types (a : list U) (pl : option (list U)) (i j : Z).

Lemma store_Some_inv pl i (f : U -> U) pl' :
  store pl i f = Ok pl' ->
  exists a u, pl = Some a /\ get a i = Some u /\
              pl' = Some (upd a i (f u)).
Proof.
  destruct pl as [a|]; [|discriminate]. rewrite store_get.
  destruct (get a i) as [u|] eqn:Hu; [|discriminate].
  intros [= <-]. eauto.
Qed.

Lemma load_upd a i u v j :
  get a i = Some u ->
  load (Some (upd a i v)) j = if j =? i then Ok v else load (Some a) j.
Proof.
  intros Hu. pose proof (get_Some_range _ _ _ Hu) as Hr.
  rewrite !load_get. destruct (Z.eqb_spec j i) as [->|Hne].
  - now rewrite (get_upd_eq _ _ _ _ Hu).
  - now rewrite get_upd_ne by lia.
Qed.

(** A store that leaves the field [obj] alone is invisible to its
    readers. *)
Lemma store_frame {X : Type} (obj : U -> X) pl i (f : U -> U) pl' :
  store pl i f = Ok pl' ->
  (forall u, obj (f u) = obj u) ->
  forall j, (let! u := load pl' j in Ok (obj u))
            = (let! u := load pl j in Ok (obj u)).
Proof.
  intros Hst Hobj j.
  destruct (store_Some_inv _ _ _ _ Hst) as (a & u & -> & Hu & ->).
  rewrite (load_upd _ _ _ _ _ Hu). destruct (Z.eqb_spec j i) as [->|Hne].
  - rewrite load_get, Hu. simpl. now rewrite Hobj.
  - reflexivity.
Qed.

Lemma store_units pl i (f : U -> U) pl' :
  store pl i f = Ok pl' -> units pl' = units pl /\ pl' <> None.
Proof.
  intros Hst.
  destruct (store_Some_inv _ _ _ _ Hst) as (a & u & -> & Hu & ->).
  unfold units. rewrite length_upd. split; [reflexivity|discriminate].
Qed.

(** Arrays with the same units are equal. *)
Lemma get_ext a b :
  length a = length b -> (forall j, get a j = get b j) -> a = b.
Proof.
  intros Hlen Hget. apply list_eq. intros n.
  destruct (decide (n < length a)%nat) as [Hn|Hn].
  - specialize (Hget (Z.of_nat n)). unfold get, in_bounds in Hget.
    rewrite <- Hlen, Nat2Z.id in Hget. revert Hget. zcases.
  - rewrite !lookup_ge_None_2 by lia. reflexivity.
Qed.
End StorageFrame.

(** ** The free list *)

Section ChainFacts.
Context {U : Type} (nxt : U -> ptr).
Implicit Types (a : list U) (p : ptr) (l : list Z).

Lemma chain_unique a p l1 l2 :
  chain nxt a p l1 -> chain nxt a p l2 -> l1 = l2.
Proof.
  revert p l2. induction l1 as [|i l1 IH]; intros p [|j l2]; simpl.
  - reflexivity.
  - intros -> [? _]. discriminate.
  - intros [-> _] ?. discriminate.
  - intros [-> (u & Hu & H1)] [Hj (v & Hv & H2)].
    injection Hj as <-. rewrite Hu in Hv. injection Hv as <-.
    f_equal. eauto.
Qed.

Lemma chain_in_range a p l i :
  chain nxt a p l -> i ∈ l -> 0 <= i < Z.of_nat (length a).
Proof.
  revert p. induction l as [|j l IH]; intros p; simpl.
  - intros _ H. inversion H.
  - intros [_ (u & Hu & Hc)] H. apply elem_of_cons in H as [->|H].
    + eapply get_Some_range; eauto.
    + eauto.
Qed.

(** A chain only depends on the links of the units it visits. *)
Lemma chain_ext a a' p l :
  (forall i, i ∈ l -> nxt <$> get a' i = nxt <$> get a i) ->
  chain nxt a p l -> chain nxt a' p l.
Proof.
  revert p. induction l as [|j l IH]; intros p Hext; simpl; [tauto|].
  intros [-> (u & Hu & Hc)]. split; [reflexivity|].
  pose proof (Hext j ltac:(left)) as Hj. rewrite Hu in Hj. simpl in Hj.
  destruct (get a' j) as [u'|]; [|discriminate]. injection Hj as Hj.
  exists u'. split; [reflexivity|]. rewrite Hj.
  apply IH; [|assumption]. intros i Hi. apply Hext. now right.
Qed.

Lemma chain_walk a p l n :
  chain nxt a p l -> (length l < n)%nat -> walk nxt n a p = Some l.
Proof.
  revert p l. induction n as [|n IH]; intros p l Hc Hn; [lia|].
  destruct l as [|i l]; simpl in *.
  - now subst.
  - destruct Hc as [-> (u & Hu & Hc)]. rewrite Hu.
    rewrite (IH _ l Hc); [reflexivity | lia].
Qed.

Lemma walk_chain a p l n : walk nxt n a p = Some l -> chain nxt a p l.
Proof.
  revert p l. induction n as [|n IH]; intros p l; simpl; [discriminate|].
  destruct p as [|i].
  - intros [= <-]. reflexivity.
  - destruct (get a i) as [u|] eqn:Hu; [|discriminate].
    destruct (walk nxt n a (nxt u)) as [l'|] eqn:Hw; [|discriminate].
    intros [= <-]. simpl. eauto.
Qed.

(** Distinct indices of an array are no more than its units. *)
Lemma chain_NoDup_length a p l :
  chain nxt a p l -> NoDup l -> (length l <= length a)%nat.
Proof.
  intros Hc Hnd.
  assert (l ⊆+ seqZ 0 (Z.of_nat (length a))) as Hsub.
  { apply NoDup_submseteq; [assumption|].
    intros i Hi. apply elem_of_seqZ.
    pose proof (chain_in_range _ _ _ _ Hc Hi). lia. }
  apply submseteq_length in Hsub. rewrite length_seqZ in Hsub. lia.
Qed.

(** The chain [clear] builds: unit [j] links to unit [j + 1], the last
    one to [nullptr]. *)
Lemma chain_ascending a n :
  Z.of_nat (length a) = n ->
  (forall j u, get a j = Some u ->
               nxt u = if j =? n - 1 then Null else At (j + 1)) ->
  forall (k : nat) i, 0 <= i -> i + Z.of_nat k = n ->
    chain nxt a (if i <? n then At i else Null) (seqZ i (Z.of_nat k)).
Proof.
  intros Hlen Hlink. induction k as [|k IH]; intros i Hi Hk.
  - zcases.
  - rewrite seqZ_cons by lia. zcases. simpl. split; [reflexivity|].
    destruct (get_in_range a i) as [u Hu]; [lia|].
    exists u. split; [assumption|].
    rewrite (Hlink _ _ Hu).
    replace (Z.pred (Z.of_nat (S k))) with (Z.of_nat k) by lia.
    specialize (IH (Z.succ i) ltac:(lia) ltac:(lia)).
    revert IH. replace (i + 1) with (Z.succ i) by lia. zcases; auto.
Qed.
End ChainFacts.

(** ** [ObjectPool]: [clear] and the constructor *)

Section BasicFacts.
Import ObjectPool.
Context {T : Type}.
Implicit Types (p : pool T) (a : list (PoolUnit T)) (fl : list Z).

Lemma op_clear_loop_spec n : forall i a,
  0 <= i -> i + Z.of_nat n <= Z.of_nat (length a) ->
  exists a',
    clear_loop n i (Some a) = Ok (Some a') /\
    length a' = length a /\
    forall j,
      get a' j =
      if (i <=? j) && (j <? i + Z.of_nat n)
      then (fun u => set_next (At (j + 1)) (set_active false u)) <$> get a j
      else get a j.
Proof.
  induction n as [|n IH]; intros i a Hi Hn.
  - exists a. split; [reflexivity|]. split; [reflexivity|]. intros j.
    zcases.
  - destruct (get_in_range a i) as [u Hu]; [lia|].
    cbn [clear_loop]. rewrite store_get, Hu. cbn [bind].
    rewrite store_get, (get_upd_eq _ _ _ _ Hu). cbn [bind].
    set (a2 := upd (upd a i (set_active false u)) i
                 (set_next (At (i + 1)) (set_active false u))).
    assert (length a2 = length a) as Hlen
      by (unfold a2; now rewrite !length_upd).
    destruct (IH (i + 1) a2) as (a' & Hrun & Hlen' & Hget); [lia|lia|].
    exists a'. split; [assumption|]. split; [congruence|].
    intros j. rewrite Hget.
    destruct (Z.eq_dec i j) as [<-|Hne].
    + unfold a2. erewrite get_upd_eq, Hu by (eapply get_upd_eq; eassumption).
      zcases.
    + unfold a2. rewrite !get_upd_ne by lia. zcases.
Qed.

Lemma op_clear_spec p a :
  pool_ p = Some a -> Z.of_nat (length a) = capacity_ p ->
  0 < capacity_ p < size_t_modulus ->
  exists p' a',
    clear p = Ok p' /\ op_inv p' a' (seqZ 0 (capacity_ p)) /\
    capacity_ p' = capacity_ p /\
    forall j, get a' j = op_cleared (capacity_ p) j <$> get a j.
Proof.
  intros Hp Hlen Hcap. unfold clear. rewrite Hp.
  destruct (op_clear_loop_spec (Z.to_nat (capacity_ p)) 0 a)
    as (a1 & Hrun & Hlen1 & Hget1); [lia|lia|].
  rewrite Hrun. cbn [bind].
  unfold wrap. rewrite Z.mod_small by lia.
  destruct (get_in_range a (capacity_ p - 1)) as [u Hu]; [lia|].
  rewrite store_get, Hget1, Hu.
  replace ((0 <=? capacity_ p - 1) &&
           (capacity_ p - 1 <? 0 + Z.of_nat (Z.to_nat (capacity_ p))))
    with true by zcases.
  cbn [fmap option_fmap option_map bind].
  set (a2 := upd a1 _ _).
  assert (forall j, get a2 j = op_cleared (capacity_ p) j <$> get a j)
    as Hget2.
  { intros j. unfold a2. destruct (Z.eq_dec (capacity_ p - 1) j) as [<-|Hne].
    - erewrite get_upd_eq, Hu.
      + unfold op_cleared. simpl. zcases.
      + rewrite Hget1, Hu. zcases.
    - rewrite get_upd_ne, Hget1 by lia.
      destruct (get a j) as [v|] eqn:Hv; simpl; [|now zcases].
      apply get_Some_range in Hv. unfold op_cleared. zcases. }
  assert (length a2 = length a) as Hlen2
    by (unfold a2; rewrite length_upd; congruence).
  eexists _, a2. split; [reflexivity|]. split; [|split; [reflexivity|exact Hget2]].
  constructor; simpl.
  - reflexivity.
  - lia.
  - assumption.
  - pose proof (chain_ascending next_ a2 (capacity_ p) ltac:(lia)) as Hc.
    specialize (Hc ltac:(intros j v Hj; rewrite Hget2 in Hj;
                         destruct (get a j); [|discriminate];
                         injection Hj as <-; reflexivity)).
    specialize (Hc (Z.to_nat (capacity_ p)) 0 ltac:(lia) ltac:(lia)).
    revert Hc. rewrite Z2Nat.id by lia. zcases.
  - apply NoDup_seqZ.
  - intros i v Hv. rewrite Hget2 in Hv.
    destruct (get a i) as [w|] eqn:Hw; [|discriminate].
    injection Hv as <-. simpl. apply get_Some_range in Hw.
    rewrite elem_of_seqZ. split; [lia|reflexivity].
  - rewrite length_seqZ. lia.
Qed.

Lemma op_construct_spec (dflt : T) capacity :
  0 < capacity < size_t_modulus ->
  exists p a,
    construct dflt capacity = Ok p /\ op_inv p a (seqZ 0 capacity) /\
    capacity_ p = capacity /\ Z.of_nat (length a) = capacity.
Proof.
  intros Hcap. unfold construct, inflatePool.
  edestruct (op_clear_spec
    {| first_available_ := Null;
       pool_ := Some (replicate (Z.to_nat capacity)
                        {| active_ := false; next_ := Null;
                           object_ := dflt |});
       active_count_ := 0; capacity_ := capacity |})
    as (p' & a' & Hrun & Hinv & Hc & _);
    [reflexivity | simpl; rewrite length_replicate; lia | exact Hcap |].
  exists p', a'. simpl in *.
  split; [assumption|]. split; [assumption|]. split; [assumption|].
  rewrite (op_inv_len _ _ _ Hinv). assumption.
Qed.
End BasicFacts.

(** ** [ObjectPool]: [activate] and [deactivate] keep the invariant *)

Section BasicSteps.
Import ObjectPool.
Context {T : Type}.
Implicit Types (p : pool T) (a : list (PoolUnit T)) (fl : list Z).

Lemma op_inv_length p a fl :
  op_inv p a fl -> Z.of_nat (length fl) <= capacity_ p.
Proof.
  intros H. rewrite <- (op_inv_len _ _ _ H).
  pose proof (chain_NoDup_length _ _ _ _ (op_inv_chain _ _ _ H)
                (op_inv_nodup _ _ _ H)). lia.
Qed.

Lemma op_activate_nil p a : op_inv p a [] -> activate p = Ok (Null, p).
Proof.
  intros H. pose proof (op_inv_chain _ _ _ H) as Hc. simpl in Hc.
  unfold activate. now rewrite Hc.
Qed.

Lemma op_activate_cons p a i fl :
  op_inv p a (i :: fl) ->
  exists u,
    get a i = Some u /\
    activate p =
      Ok (At i, {| first_available_ := next_ u;
                   pool_ := Some (upd a i (set_active true u));
                   active_count_ := active_count_ p + 1;
                   capacity_ := capacity_ p |}) /\
    op_inv {| first_available_ := next_ u;
              pool_ := Some (upd a i (set_active true u));
              active_count_ := active_count_ p + 1;
              capacity_ := capacity_ p |}
           (upd a i (set_active true u)) fl.
Proof.
  intros H. pose proof (op_inv_length _ _ _ H) as Hlen.
  destruct H as [Hp Hl Hcap Hc Hnd Hfree Hcount].
  simpl in Hc. destruct Hc as [Hfirst (u & Hu & Hc)].
  apply NoDup_cons in Hnd as [Hi Hnd].
  cbn [length] in Hlen, Hcount.
  exists u. split; [assumption|]. split.
  - unfold activate. rewrite Hfirst, Hp, store_get, Hu. cbn [bind].
    rewrite load_get, (get_upd_eq _ _ _ _ Hu). cbn [bind].
    unfold wrap. rewrite Z.mod_small by (unfold size_t_modulus in *; lia).
    reflexivity.
  - pose proof (get_Some_range _ _ _ Hu) as Hr.
    constructor; simpl.
    + reflexivity.
    + rewrite length_upd. assumption.
    + assumption.
    + eapply chain_ext; [|exact Hc].
      intros j Hj. rewrite get_upd_ne; [reflexivity|lia|].
      intros ->. contradiction.
    + assumption.
    + intros j v Hv. destruct (Z.eq_dec i j) as [<-|Hne].
      * rewrite (get_upd_eq _ _ _ _ Hu) in Hv. injection Hv as <-.
        simpl. split; [discriminate|contradiction].
      * rewrite get_upd_ne in Hv by lia.
        rewrite (Hfree _ _ Hv), elem_of_cons. intuition congruence.
    + lia.
Qed.

Lemma op_deactivate_active p a fl index u :
  op_inv p a fl -> get a index = Some u -> active_ u = true ->
  exists p' a',
    deactivate index p = Ok p' /\ op_inv p' a' (index :: fl) /\
    active_count_ p' = active_count_ p - 1 /\
    capacity_ p' = capacity_ p.
Proof.
  intros H Hu Hact.
  pose proof (get_Some_range _ _ _ Hu) as Hr.
  assert (index ∉ fl) as Hnotin.
  { intros Hin. apply (op_inv_free _ _ _ H _ _ Hu) in Hin. congruence. }
  set (u1 := set_active false u).
  set (a1 := upd a index u1).
  set (u2 := set_next (first_available_ p) u1).
  set (a2 := upd a1 index u2).
  assert (get a1 index = Some u1) as Hu1 by (eapply get_upd_eq; eauto).
  assert (get a2 index = Some u2) as Hu2 by (eapply get_upd_eq; eauto).
  assert (chain next_ a2 (At index) (index :: fl)) as Hchain.
  { simpl. split; [reflexivity|]. exists u2. split; [assumption|].
    eapply chain_ext; [|exact (op_inv_chain _ _ _ H)].
    intros j Hj. unfold a2, a1. rewrite !get_upd_ne; [reflexivity|lia| |lia|];
      intros ->; contradiction. }
  assert (NoDup (index :: fl)) as Hnd
    by (apply NoDup_cons; split; [assumption|exact (op_inv_nodup _ _ _ H)]).
  assert (length a2 = length a) as Hlen2
    by (unfold a2, a1; now rewrite !length_upd).
  pose proof (chain_NoDup_length _ _ _ _ Hchain Hnd) as Hle.
  cbn [length] in Hle.
  destruct H as [Hp Hl Hcap Hc _ Hfree Hcount].
  assert (wrap (active_count_ p - 1) = active_count_ p - 1) as Hwrap.
  { unfold wrap. apply Z.mod_small. unfold size_t_modulus in *. lia. }
  eexists _, a2. split; [|split; [|split]].
  - unfold deactivate. replace (index <? capacity_ p) with true by zcases.
    rewrite Hp, store_get, Hu. cbn [bind].
    fold u1. fold a1. rewrite store_get, Hu1. cbn [bind].
    fold u2. fold a2. rewrite Hwrap. reflexivity.
  - constructor; simpl; try assumption; try lia.
    + reflexivity.
    + intros j v Hv. destruct (Z.eq_dec index j) as [<-|Hne].
      * rewrite Hu2 in Hv. injection Hv as <-. simpl.
        split; [left|reflexivity].
      * unfold a2, a1 in Hv. rewrite !get_upd_ne in Hv by lia.
        rewrite (Hfree _ _ Hv), elem_of_cons. intuition congruence.
  - reflexivity.
  - reflexivity.
Qed.

Lemma op_active_get p a index b :
  pool_ p = Some a ->
  active index p = Ok b <->
  exists u, get a index = Some u /\ active_ u = b.
Proof.
  intros Hp. unfold active. rewrite Hp, load_get.
  destruct (get a index) as [u|]; simpl; split.
  - intros [= <-]. eauto.
  - intros (v & [= <-] & <-). reflexivity.
  - discriminate.
  - intros (v & Hv & _). discriminate.
Qed.

(** Every reachable state satisfies the invariant. *)
Lemma op_reachable_inv p :
  op_reachable p -> exists a fl, op_inv p a fl.
Proof.
  induction 1 as [dflt capacity p Hcap Hrun
                 | p h p' _ (a & fl & IH) Hrun
                 | index p p' _ (a & fl & IH) Hact Hrun
                 | p p' _ (a & fl & IH) Hrun].
  - destruct (op_construct_spec dflt capacity Hcap)
      as (q & a & Hq & Hinv & _).
    rewrite Hrun in Hq. injection Hq as ->. eauto.
  - destruct fl as [|i fl].
    + rewrite (op_activate_nil _ _ IH) in Hrun. injection Hrun as _ <-.
      eauto.
    + destruct (op_activate_cons _ _ _ _ IH) as (u & _ & Hq & Hinv).
      rewrite Hrun in Hq. injection Hq as _ ->. eauto.
  - apply (op_active_get _ _ _ _ (op_inv_pool _ _ _ IH)) in Hact
      as (u & Hu & Hact).
    destruct (op_deactivate_active _ _ _ _ _ IH Hu Hact)
      as (q & a' & Hq & Hinv & _).
    rewrite Hrun in Hq. injection Hq as ->. eauto.
  - destruct (op_clear_spec p a (op_inv_pool _ _ _ IH)
                (op_inv_len _ _ _ IH) (op_inv_cap _ _ _ IH))
      as (q & a' & Hq & Hinv & _).
    rewrite Hrun in Hq. injection Hq as ->. eauto.
Qed.

(** Disciplined runs stay among the reachable states. *)
Lemma op_run_reachable cs : forall p hs p',
  op_reachable p -> op_disciplined cs p = true ->
  op_run cs p = Ok (hs, p') -> op_reachable p'.
Proof.
  induction cs as [|c cs IH]; intros p hs p' Hreach Hd Hrun.
  - injection Hrun as _ <-. assumption.
  - cbn [op_disciplined op_run] in Hd, Hrun.
    apply andb_prop in Hd as [Hc Hd].
    destruct (op_call c p) as [[h q]|] eqn:Hcall; [|discriminate].
    cbn [bind snd fst] in Hd, Hrun.
    destruct (op_run cs q) as [[hs' q']|] eqn:Hrest; [|discriminate].
    cbn [bind snd] in Hrun. injection Hrun as _ <-.
    apply (IH q hs' q'); [|assumption|assumption].
    destruct c as [|index|]; cbn [op_call] in Hcall.
    + destruct (activate p) as [[h0 q0]|] eqn:Ha; [|discriminate].
      injection Hcall as _ <-. eapply op_reach_activate; eauto.
    + destruct (deactivate index p) as [q0|] eqn:Hde; [|discriminate].
      injection Hcall as _ <-.
      destruct (active index p) as [[|]|] eqn:Hact; try discriminate.
      eapply op_reach_deactivate; eauto.
    + destruct (clear p) as [q0|] eqn:Hcl; [|discriminate].
      injection Hcall as _ <-. eapply op_reach_clear; eauto.
Qed.

Lemma op_session_reachable (dflt : T) capacity cs p0 hs p :
  0 < capacity < size_t_modulus ->
  construct dflt capacity = Ok p0 -> op_disciplined cs p0 = true ->
  op_run cs p0 = Ok (hs, p) -> op_reachable p.
Proof.
  intros Hcap Hc Hd Hrun.
  eapply op_run_reachable; [|exact Hd|exact Hrun].
  eapply op_reach_construct; eauto.
Qed.

(** The invariant determines what [op_free_list] reads. *)
Lemma op_inv_free_list p a fl :
  op_inv p a fl -> op_free_list p = Some fl.
Proof.
  intros H. unfold op_free_list. rewrite (op_inv_pool _ _ _ H).
  apply chain_walk; [exact (op_inv_chain _ _ _ H)|].
  pose proof (chain_NoDup_length _ _ _ _ (op_inv_chain _ _ _ H)
                (op_inv_nodup _ _ _ H)). lia.
Qed.
End BasicSteps.

(** ** [IndexedObjectPool]: [clear] and the constructor *)

Section IndexedFacts.
Import IndexedObjectPool.
Context {T : Type}.
Implicit Types (p : pool T) (a : list (IndexedPoolUnit T)) (fl : list Z).

Lemma ip_clear_loop_spec n : forall i a,
  0 <= i -> i + Z.of_nat n <= Z.of_nat (length a) ->
  exists a',
    clear_loop n i (Some a) = Ok (Some a') /\
    length a' = length a /\
    forall j,
      get a' j =
      if (i <=? j) && (j <? i + Z.of_nat n)
      then (fun u => set_next (At (j + 1))
                       (set_index j (set_active false u))) <$> get a j
      else get a j.
Proof.
  induction n as [|n IH]; intros i a Hi Hn.
  - exists a. split; [reflexivity|]. split; [reflexivity|]. intros j.
    zcases.
  - destruct (get_in_range a i) as [u Hu]; [lia|].
    cbn [clear_loop]. rewrite store_get, Hu. cbn [bind].
    set (a1 := upd a i (set_active false u)).
    assert (get a1 i = Some (set_active false u)) as Hu1
      by (eapply get_upd_eq; eauto).
    rewrite store_get, Hu1. cbn [bind].
    set (a2 := upd a1 i (set_index i (set_active false u))).
    assert (get a2 i = Some (set_index i (set_active false u))) as Hu2
      by (eapply get_upd_eq; eauto).
    rewrite store_get, Hu2. cbn [bind].
    set (a3 := upd a2 i _).
    assert (length a3 = length a) as Hlen
      by (unfold a3, a2, a1; now rewrite !length_upd).
    destruct (IH (i + 1) a3) as (a' & Hrun & Hlen' & Hget); [lia|lia|].
    exists a'. split; [assumption|]. split; [congruence|].
    intros j. rewrite Hget.
    destruct (Z.eq_dec i j) as [<-|Hne].
    + unfold a3. erewrite get_upd_eq, Hu by eassumption. zcases.
    + unfold a3, a2, a1. rewrite !get_upd_ne by lia. zcases.
Qed.

Lemma ip_clear_spec p a :
  pool_ p = Some a -> Z.of_nat (length a) = capacity_ p ->
  0 < capacity_ p < size_t_modulus ->
  exists p' a',
    clear p = Ok p' /\ ip_inv p' a' (seqZ 0 (capacity_ p)) /\
    capacity_ p' = capacity_ p /\
    forall j, get a' j = ip_cleared (capacity_ p) j <$> get a j.
Proof.
  intros Hp Hlen Hcap. unfold clear. rewrite Hp.
  destruct (ip_clear_loop_spec (Z.to_nat (capacity_ p)) 0 a)
    as (a1 & Hrun & Hlen1 & Hget1); [lia|lia|].
  rewrite Hrun. cbn [bind].
  unfold wrap. rewrite Z.mod_small by lia.
  destruct (get_in_range a (capacity_ p - 1)) as [u Hu]; [lia|].
  rewrite store_get, Hget1, Hu.
  replace ((0 <=? capacity_ p - 1) &&
           (capacity_ p - 1 <? 0 + Z.of_nat (Z.to_nat (capacity_ p))))
    with true by zcases.
  cbn [fmap option_fmap option_map bind].
  set (a2 := upd a1 _ _).
  assert (forall j, get a2 j = ip_cleared (capacity_ p) j <$> get a j)
    as Hget2.
  { intros j. unfold a2. destruct (Z.eq_dec (capacity_ p - 1) j) as [<-|Hne].
    - erewrite get_upd_eq, Hu.
      + unfold ip_cleared. simpl. zcases.
      + rewrite Hget1, Hu. zcases.
    - rewrite get_upd_ne, Hget1 by lia.
      destruct (get a j) as [v|] eqn:Hv; simpl; [|now zcases].
      apply get_Some_range in Hv. unfold ip_cleared. zcases. }
  assert (length a2 = length a) as Hlen2
    by (unfold a2; rewrite length_upd; congruence).
  assert (forall j v, get a2 j = Some v ->
                      exists w, get a j = Some w /\
                                v = ip_cleared (capacity_ p) j w) as Hinv2.
  { intros j v Hv. rewrite Hget2 in Hv.
    destruct (get a j) as [w|]; [|discriminate].
    injection Hv as <-. eauto. }
  eexists _, a2. split; [reflexivity|].
  split; [|split; [reflexivity|exact Hget2]].
  constructor; simpl.
  - reflexivity.
  - lia.
  - assumption.
  - pose proof (chain_ascending next_ a2 (capacity_ p) ltac:(lia)) as Hc.
    specialize (Hc ltac:(intros j v Hj; apply Hinv2 in Hj as (w & _ & ->);
                         reflexivity)).
    specialize (Hc (Z.to_nat (capacity_ p)) 0 ltac:(lia) ltac:(lia)).
    revert Hc. rewrite Z2Nat.id by lia. zcases.
  - apply NoDup_seqZ.
  - intros i v Hv. apply Hinv2 in Hv as (w & Hw & ->).
    simpl. apply get_Some_range in Hw.
    rewrite elem_of_seqZ. split; [lia|reflexivity].
  - rewrite length_seqZ. lia.
  - intros i v Hv. apply Hinv2 in Hv as (w & Hw & ->). reflexivity.
  - intros i v Hv. apply Hinv2 in Hv as (w & Hw & ->). discriminate.
  - left. reflexivity.
Qed.

Lemma ip_construct_spec (dflt : T) capacity :
  0 < capacity < size_t_modulus ->
  exists p a,
    construct dflt capacity = Ok p /\ ip_inv p a (seqZ 0 capacity) /\
    capacity_ p = capacity /\ Z.of_nat (length a) = capacity.
Proof.
  intros Hcap. unfold construct, inflatePool.
  edestruct (ip_clear_spec
    {| first_available_ := Null;
       pool_ := Some (replicate (Z.to_nat capacity)
                        {| active_ := false; index_ := 0; next_ := Null;
                           object_ := dflt |});
       active_count_ := 0; capacity_ := capacity;
       highest_active_index_ := 0 |})
    as (p' & a' & Hrun & Hinv & Hc & _);
    [reflexivity | simpl; rewrite length_replicate; lia | exact Hcap |].
  exists p', a'. simpl in *.
  split; [assumption|]. split; [assumption|]. split; [assumption|].
  rewrite (ip_inv_len _ _ _ Hinv). assumption.
Qed.
End IndexedFacts.

(** ** [IndexedObjectPool]: the steps keep the invariant *)

Section IndexedSteps.
Import IndexedObjectPool.
Context {T : Type}.
Implicit Types (p : pool T) (a : list (IndexedPoolUnit T)) (fl : list Z).

Lemma ip_inv_length p a fl :
  ip_inv p a fl -> Z.of_nat (length fl) <= capacity_ p.
Proof.
  intros H. rewrite <- (ip_inv_len _ _ _ H).
  pose proof (chain_NoDup_length _ _ _ _ (ip_inv_chain _ _ _ H)
                (ip_inv_nodup _ _ _ H)). lia.
Qed.

Lemma ip_active_get p a index b :
  pool_ p = Some a ->
  active index p = Ok b <->
  exists u, get a index = Some u /\ active_ u = b.
Proof.
  intros Hp. unfold active. rewrite Hp, load_get.
  destruct (get a index) as [u|]; simpl; split.
  - intros [= <-]. eauto.
  - intros (v & [= <-] & <-). reflexivity.
  - discriminate.
  - intros (v & Hv & _). discriminate.
Qed.

(** Where [link_free] is defined, the unit enters the free list in front
    of the head or right behind it, and only links change. *)
Lemma ip_link_free_spec a first fl index u r :
  chain next_ a first fl -> NoDup fl -> index ∉ fl ->
  get a index = Some u ->
  link_free first index (Some a) = Ok r ->
  exists a' fl',
    r = (fst r, Some a') /\
    chain next_ a' (fst r) fl' /\
    (fl' = index :: fl \/
     exists h tl, fl = h :: tl /\ fl' = h :: index :: tl) /\
    length a' = length a /\
    forall j, ip_payload <$> get a' j = ip_payload <$> get a j.
Proof.
  intros Hc Hnd Hnotin Hu. pose proof (get_Some_range _ _ _ Hu) as Hr.
  unfold link_free. rewrite load_get, Hu. cbn [bind].
  destruct (ptr_lt first (next_ u)).
  - destruct first as [|h]; [discriminate|].
    destruct fl as [|h' tl]; [discriminate|].
    simpl in Hc. destruct Hc as [[= <-] (uh & Huh & Hc)].
    apply NoDup_cons in Hnd as [Hh Hnd].
    assert (h <> index) as Hne by (intros ->; apply Hnotin; left).
    assert (index ∉ tl) as Hnotin' by (intros ?; apply Hnotin; now right).
    pose proof (get_Some_range _ _ _ Huh) as Hrh.
    cbn [deref store_at]. rewrite load_get, Huh. cbn [bind].
    rewrite store_get, Huh. cbn [bind].
    set (a1 := upd a h (set_next (At index) uh)).
    assert (get a1 index = Some u) as Hu1
      by (unfold a1; rewrite get_upd_ne by lia; assumption).
    rewrite store_get, Hu1. cbn [bind].
    set (a2 := upd a1 index (set_next (next_ uh) u)).
    intros [= <-]. exists a2, (h :: index :: tl). simpl.
    assert (get a2 index = Some (set_next (next_ uh) u)) as Hu2
      by (eapply get_upd_eq; eauto).
    assert (get a2 h = Some (set_next (At index) uh)) as Hh2.
    { unfold a2. rewrite get_upd_ne by lia. eapply get_upd_eq; eauto. }
    split; [reflexivity|]. split; [|split; [|split]].
    + split; [reflexivity|]. eexists. split; [exact Hh2|]. simpl.
      split; [reflexivity|]. eexists. split; [exact Hu2|]. simpl.
      eapply chain_ext; [|exact Hc].
      intros j Hj. unfold a2, a1.
      rewrite !get_upd_ne; [reflexivity|lia| |lia|]; intros ->; contradiction.
    + right. eauto.
    + unfold a2, a1. now rewrite !length_upd.
    + intros j. destruct (Z.eq_dec j index) as [->|Hj].
      * rewrite Hu2, Hu. reflexivity.
      * destruct (Z.eq_dec j h) as [->|Hj'].
        -- rewrite Hh2, Huh. reflexivity.
        -- unfold a2, a1. rewrite !get_upd_ne by lia. reflexivity.
  - rewrite store_get, Hu. cbn [bind].
    set (a1 := upd a index (set_next first u)).
    intros [= <-]. exists a1, (index :: fl). simpl.
    assert (get a1 index = Some (set_next first u)) as Hu1
      by (eapply get_upd_eq; eauto).
    split; [reflexivity|]. split; [|split; [|split]].
    + split; [reflexivity|]. eexists. split; [exact Hu1|]. simpl.
      eapply chain_ext; [|exact Hc].
      intros j Hj. unfold a1.
      rewrite get_upd_ne; [reflexivity|lia|]; intros ->; contradiction.
    + left. reflexivity.
    + unfold a1. now rewrite length_upd.
    + intros j. destruct (Z.eq_dec j index) as [->|Hj].
      * rewrite Hu1, Hu. reflexivity.
      * unfold a1. rewrite get_upd_ne by lia. reflexivity.
Qed.

(** The reverse scan finds the last active unit below [n], if any. *)
Lemma ip_scan_down_spec a (n : nat) :
  (n <= length a)%nat ->
  exists r,
    scan_down (Some a) n = Ok r /\
    match r with
    | Some j =>
        0 <= j < Z.of_nat n /\
        (exists u, get a j = Some u /\ active_ u = true) /\
        forall k v, j < k < Z.of_nat n -> get a k = Some v ->
                    active_ v = false
    | None =>
        forall k v, 0 <= k < Z.of_nat n -> get a k = Some v ->
                    active_ v = false
    end.
Proof.
  induction n as [|n IH]; intros Hn.
  - exists None. split; [reflexivity|]. intros k v Hk. lia.
  - destruct (get_in_range a (Z.of_nat n)) as [u Hu]; [lia|].
    cbn [scan_down]. rewrite load_get, Hu. cbn [bind].
    destruct (active_ u) eqn:Hact.
    + exists (Some (Z.of_nat n)). split; [reflexivity|].
      split; [lia|]. split; [eauto|]. intros k v Hk. lia.
    + destruct IH as (r & Hrun & Hr); [lia|].
      exists r. split; [assumption|]. destruct r as [j|].
      * destruct Hr as (Hj & Hex & Hbelow).
        split; [lia|]. split; [assumption|]. intros k v Hk Hv.
        destruct (Z.eq_dec k (Z.of_nat n)) as [->|Hne].
        -- congruence.
        -- apply (Hbelow k v); [lia|assumption].
      * intros k v Hk Hv.
        destruct (Z.eq_dec k (Z.of_nat n)) as [->|Hne].
        -- congruence.
        -- apply (Hr k v); [lia|assumption].
Qed.

Lemma ip_payload_inv (x y : option (IndexedPoolUnit T)) v :
  ip_payload <$> x = ip_payload <$> y -> x = Some v ->
  exists w, y = Some w /\ active_ w = active_ v /\ index_ w = index_ v /\
            object_ w = object_ v.
Proof.
  intros Heq ->. destruct y as [w|]; [|discriminate].
  injection Heq as H1 H2 H3. eauto.
Qed.

Lemma ip_activate_nil p a : ip_inv p a [] -> activate p = Ok (Null, p).
Proof.
  intros H. pose proof (ip_inv_chain _ _ _ H) as Hc. simpl in Hc.
  unfold activate. now rewrite Hc.
Qed.

Lemma ip_activate_cons p a i fl :
  ip_inv p a (i :: fl) ->
  exists u p',
    get a i = Some u /\
    activate p = Ok (At i, p') /\
    ip_inv p' (upd a i (set_active true u)) fl /\
    active_count_ p' = active_count_ p + 1 /\
    capacity_ p' = capacity_ p /\
    highest_active_index_ p' = Z.max (highest_active_index_ p) i.
Proof.
  intros H. pose proof (ip_inv_length _ _ _ H) as Hlen.
  destruct H as [Hp Hl Hcap Hc Hnd Hfree Hcount Hidx Hbound Htop].
  simpl in Hc. destruct Hc as [Hfirst (u & Hu & Hc)].
  apply NoDup_cons in Hnd as [Hi Hnd].
  cbn [length] in Hlen, Hcount.
  pose proof (get_Some_range _ _ _ Hu) as Hr.
  pose proof (Hidx _ _ Hu) as Hiu.
  assert (wrap (active_count_ p + 1) = active_count_ p + 1) as Hwrap.
  { unfold wrap. apply Z.mod_small. unfold size_t_modulus in *. lia. }
  assert ((if highest_active_index_ p <? i then i
           else highest_active_index_ p)
          = Z.max (highest_active_index_ p) i) as Hmax by zcases.
  exists u. eexists. split; [assumption|]. split; [|split; [|split; [|split]]].
  - unfold activate. rewrite Hfirst, Hp, store_get, Hu. cbn [bind].
    rewrite load_get, (get_upd_eq _ _ _ _ Hu). cbn [bind].
    cbn [index_ next_ set_active]. rewrite Hiu, Hwrap, Hmax. reflexivity.
  - constructor; simpl.
    + reflexivity.
    + rewrite length_upd. assumption.
    + assumption.
    + eapply chain_ext; [|exact Hc].
      intros j Hj. rewrite get_upd_ne; [reflexivity|lia|].
      intros ->. contradiction.
    + assumption.
    + intros j v Hv. destruct (Z.eq_dec i j) as [<-|Hne].
      * rewrite (get_upd_eq _ _ _ _ Hu) in Hv. injection Hv as <-.
        simpl. split; [discriminate|contradiction].
      * rewrite get_upd_ne in Hv by lia.
        rewrite (Hfree _ _ Hv), elem_of_cons. intuition congruence.
    + lia.
    + intros j v Hv. destruct (Z.eq_dec i j) as [<-|Hne].
      * rewrite (get_upd_eq _ _ _ _ Hu) in Hv. injection Hv as <-.
        assumption.
      * rewrite get_upd_ne in Hv by lia. eauto.
    + intros j v Hv Hact. destruct (Z.eq_dec i j) as [<-|Hne]; [lia|].
      rewrite get_upd_ne in Hv by lia.
      pose proof (Hbound _ _ Hv Hact). lia.
    + destruct (Z.max_spec (highest_active_index_ p) i) as [[? ->]|[? ->]].
      * right. rewrite (get_upd_eq _ _ _ _ Hu). eauto.
      * destruct Htop as [?|(v & Hv & Hact)]; [now left|right].
        destruct (Z.eq_dec i (highest_active_index_ p)) as [<-|Hne].
        -- rewrite (get_upd_eq _ _ _ _ Hu). eauto.
        -- rewrite get_upd_ne by lia. eauto.
  - reflexivity.
  - reflexivity.
  - reflexivity.
Qed.

(** One defined [deactivate] of an active unit: the invariant, and how
    [highest_active_index_] moves. *)
Lemma ip_deactivate_active p a fl index u p' :
  ip_inv p a fl -> get a index = Some u -> active_ u = true ->
  deactivate index p = Ok p' ->
  exists a' fl',
    ip_inv p' a' fl' /\
    length fl' = S (length fl) /\
    capacity_ p' = capacity_ p /\
    active_count_ p' = active_count_ p - 1 /\
    (forall j, ip_payload <$> get a' j =
               ip_payload <$> get (upd a index (set_active false u)) j) /\
    (highest_active_index_ p <> index ->
     highest_active_index_ p' = highest_active_index_ p) /\
    (highest_active_index_ p = index -> index = 0 ->
     highest_active_index_ p' = 0) /\
    (highest_active_index_ p = index -> 0 < index ->
     (0 <= highest_active_index_ p' < index /\
      (exists v, get a' (highest_active_index_ p') = Some v /\
                 active_ v = true) /\
      forall k w, highest_active_index_ p' < k < index ->
                  get a' k = Some w -> active_ w = false) \/
     (highest_active_index_ p' = 0 /\
      forall k w, 0 <= k < index -> get a' k = Some w ->
                  active_ w = false)).
Proof.
  intros H Hu Hact Hrun.
  pose proof (get_Some_range _ _ _ Hu) as Hr.
  assert (index ∉ fl) as Hnotin.
  { intros Hin. apply (ip_inv_free _ _ _ H _ _ Hu) in Hin. congruence. }
  destruct H as [Hp Hl Hcap Hc Hnd Hfree Hcount Hidx Hbound Htop].
  set (u1 := set_active false u) in *.
  set (a1 := upd a index u1) in *.
  assert (get a1 index = Some u1) as Hu1 by (eapply get_upd_eq; eauto).
  assert (chain next_ a1 (first_available_ p) fl) as Hc1.
  { eapply chain_ext; [|exact Hc]. intros j Hj. unfold a1.
    rewrite get_upd_ne; [reflexivity|lia|]. intros ->. contradiction. }
  unfold deactivate in Hrun.
  replace (index <? capacity_ p) with true in Hrun by zcases.
  rewrite Hp, store_get, Hu in Hrun. cbn [bind] in Hrun.
  fold u1 in Hrun. fold a1 in Hrun.
  destruct (link_free (first_available_ p) index (Some a1))
    as [[first' arr]|] eqn:Hlink; [|discriminate].
  cbn [bind fst snd] in Hrun.
  destruct (ip_link_free_spec _ _ _ _ _ _ Hc1 Hnd Hnotin Hu1 Hlink)
    as (a3 & fl' & Hreq & Hc3 & Hshape & Hlen3 & Hpay).
  cbn [fst] in Hreq, Hc3. injection Hreq as ->.
  assert (length a1 = length a) as Hlen1 by (unfold a1; apply length_upd).
  (* the units of the new array, seen from the old one *)
  assert (forall j v, get a3 j = Some v ->
            (j = index /\ active_ v = false /\ index_ v = index) \/
            (j <> index /\ exists w, get a j = Some w /\
               active_ w = active_ v /\ index_ w = index_ v)) as Hview.
  { intros j v Hv.
    destruct (ip_payload_inv _ _ _ (Hpay j) Hv) as (w & Hw & Ha & Hi & _).
    destruct (Z.eq_dec j index) as [->|Hne].
    - left. rewrite Hu1 in Hw. injection Hw as <-.
      simpl in Ha, Hi. rewrite (Hidx _ _ Hu) in Hi. auto.
    - right. unfold a1 in Hw. rewrite get_upd_ne in Hw by lia. eauto. }
  assert (forall j w, j <> index -> get a j = Some w ->
            exists v, get a3 j = Some v /\ active_ v = active_ w) as Hback.
  { intros j w Hne Hw. destruct (get_in_range a3 j) as [v Hv].
    { apply get_Some_range in Hw. lia. }
    destruct (Hview _ _ Hv) as [[? _]|(_ & w' & Hw' & Ha & _)]; [lia|].
    rewrite Hw in Hw'. injection Hw' as <-. eauto. }
  assert (NoDup fl' /\ length fl' = S (length fl) /\
          forall j, j ∈ fl' <-> j = index \/ j ∈ fl) as (Hnd' & Hlen' & Hmem).
  { destruct Hshape as [->|(h & tl & -> & ->)].
    - split; [apply NoDup_cons; auto|]. split; [reflexivity|].
      intros j. apply elem_of_cons.
    - apply NoDup_cons in Hnd as [Hh Hnd].
      rewrite not_elem_of_cons in Hnotin. destruct Hnotin as [Hne Hnotin].
      split; [|split; [reflexivity|]].
      + apply NoDup_cons. split.
        * rewrite not_elem_of_cons. auto.
        * apply NoDup_cons. auto.
      + intros j. rewrite !elem_of_cons. tauto. }
  pose proof (chain_NoDup_length _ _ _ _ Hc3 Hnd') as Hle.
  assert (wrap (active_count_ p - 1) = active_count_ p - 1) as Hwrap.
  { unfold wrap. apply Z.mod_small. unfold size_t_modulus in *. lia. }
  rewrite Hwrap in Hrun.
  match type of Hrun with
  | bind ?m _ = _ => destruct m as [hv|] eqn:Hh; [|discriminate]
  end.
  cbn [bind] in Hrun. injection Hrun as <-.
  exists a3, fl'. cbn [highest_active_index_ capacity_ active_count_].
  (* how the new highest index relates to the old one *)
  assert ((highest_active_index_ p <> index /\
           hv = highest_active_index_ p) \/
          (highest_active_index_ p = index /\ index = 0 /\ hv = 0) \/
          (highest_active_index_ p = index /\ 0 < index /\
           ((0 <= hv < index /\
             (exists v, get a3 hv = Some v /\ active_ v = true) /\
             forall k w, hv < k < index -> get a3 k = Some w ->
                         active_ w = false) \/
            (hv = 0 /\
             forall k w, 0 <= k < index -> get a3 k = Some w ->
                         active_ w = false)))) as Hhv.
  { destruct (Z.eqb_spec (highest_active_index_ p) index) as [He|He].
    - destruct (Z.eqb_spec index 0) as [H0|H0].
      + injection Hh as <-. right. left. lia.
      + right. right. split; [assumption|]. split; [lia|].
        destruct (ip_scan_down_spec a3
                    (Z.to_nat (highest_active_index_ p)))
          as (r & Hscan & Hspec); [lia|].
        rewrite Hscan in Hh. cbn [bind] in Hh.
        rewrite Z2Nat.id in Hspec by lia. rewrite He in Hspec.
        destruct r as [j|]; injection Hh as <-; [left|right]; auto.
    - injection Hh as <-. left. auto. }
  split; [|repeat split; try reflexivity].
  - constructor; cbn [pool_ first_available_ capacity_ active_count_
                        highest_active_index_].
    + reflexivity.
    + lia.
    + assumption.
    + assumption.
    + assumption.
    + intros j v Hv. rewrite Hmem.
      destruct (Hview _ _ Hv) as [(-> & Ha & _)|(Hne & w & Hw & Ha & _)].
      * rewrite Ha. tauto.
      * rewrite <- Ha, (Hfree _ _ Hw). tauto.
    + lia.
    + intros j v Hv.
      destruct (Hview _ _ Hv) as [(-> & _ & Hi)|(Hne & w & Hw & _ & Hi)].
      * assumption.
      * rewrite <- Hi. eauto.
    + intros j v Hv Ha.
      destruct (Hview _ _ Hv) as [(-> & Ha' & _)|(Hne & w & Hw & Ha' & _)];
        [congruence|].
      assert (j <= highest_active_index_ p) as Hj
        by (eapply Hbound; [eassumption|congruence]).
      pose proof (get_Some_range _ _ _ Hv) as Hrj.
      destruct Hhv as [[? ->]|[(He & H0 & ->)|(He & H0 & Hs)]]; [lia|lia|].
      destruct Hs as [(Hrange & _ & Hbelow)|(-> & Hbelow)].
      * destruct (Z_le_gt_dec j hv) as [?|Hgt]; [assumption|].
        rewrite (Hbelow j v) in Ha; [discriminate|lia|assumption].
      * rewrite (Hbelow j v) in Ha; [discriminate|lia|assumption].
    + destruct Hhv as [[Hne ->]|[(He & H0 & ->)|(He & H0 & Hs)]].
      * destruct Htop as [?|(w & Hw & Ha)]; [now left|right].
        destruct (Hback _ _ Hne Hw) as (v & Hv & Ha'). exists v.
        split; [assumption|congruence].
      * now left.
      * destruct Hs as [(_ & Hex & _)|(-> & _)]; [now right|now left].
  - assumption.
  - assumption.
  - intros Hne. destruct Hhv as [[_ ->]|[(He & _)|(He & _)]];
      [reflexivity|contradiction|contradiction].
  - intros He H0. destruct Hhv as [[Hne _]|[(_ & _ & ->)|(_ & ? & _)]];
      [contradiction|reflexivity|lia].
  - intros He H0. destruct Hhv as [[Hne _]|[(_ & ? & _)|(_ & _ & Hs)]];
      [contradiction|lia|exact Hs].
Qed.

(** Every reachable state satisfies the invariant. *)
Lemma ip_reachable_inv p :
  ip_reachable p -> exists a fl, ip_inv p a fl.
Proof.
  induction 1 as [dflt capacity p Hcap Hrun
                 | p h p' _ (a & fl & IH) Hrun
                 | index p p' _ (a & fl & IH) Hact Hrun
                 | p p' _ (a & fl & IH) Hrun].
  - destruct (ip_construct_spec dflt capacity Hcap)
      as (q & a & Hq & Hinv & _).
    rewrite Hrun in Hq. injection Hq as ->. eauto.
  - destruct fl as [|i fl].
    + rewrite (ip_activate_nil _ _ IH) in Hrun. injection Hrun as _ <-.
      eauto.
    + destruct (ip_activate_cons _ _ _ _ IH) as (u & q & _ & Hq & Hinv & _).
      rewrite Hrun in Hq. injection Hq as _ ->. eauto.
  - apply (ip_active_get _ _ _ _ (ip_inv_pool _ _ _ IH)) in Hact
      as (u & Hu & Hact).
    destruct (ip_deactivate_active _ _ _ _ _ _ IH Hu Hact Hrun)
      as (a' & fl' & Hinv & _). eauto.
  - destruct (ip_clear_spec p a (ip_inv_pool _ _ _ IH)
                (ip_inv_len _ _ _ IH) (ip_inv_cap _ _ _ IH))
      as (q & a' & Hq & Hinv & _).
    rewrite Hrun in Hq. injection Hq as ->. eauto.
Qed.

Lemma ip_run_reachable cs : forall p hs p',
  ip_reachable p -> ip_disciplined cs p = true ->
  ip_run cs p = Ok (hs, p') -> ip_reachable p'.
Proof.
  induction cs as [|c cs IH]; intros p hs p' Hreach Hd Hrun.
  - injection Hrun as _ <-. assumption.
  - cbn [ip_disciplined ip_run] in Hd, Hrun.
    apply andb_prop in Hd as [Hc Hd].
    destruct (ip_call c p) as [[h q]|] eqn:Hcall; [|discriminate].
    cbn [bind snd fst] in Hd, Hrun.
    destruct (ip_run cs q) as [[hs' q']|] eqn:Hrest; [|discriminate].
    cbn [bind snd] in Hrun. injection Hrun as _ <-.
    apply (IH q hs' q'); [|assumption|assumption].
    destruct c as [|index|]; cbn [ip_call] in Hcall.
    + destruct (activate p) as [[h0 q0]|] eqn:Ha; [|discriminate].
      injection Hcall as _ <-. eapply ip_reach_activate; eauto.
    + destruct (deactivate index p) as [q0|] eqn:Hde; [|discriminate].
      injection Hcall as _ <-.
      destruct (active index p) as [[|]|] eqn:Hact; try discriminate.
      eapply ip_reach_deactivate; eauto.
    + destruct (clear p) as [q0|] eqn:Hcl; [|discriminate].
      injection Hcall as _ <-. eapply ip_reach_clear; eauto.
Qed.

Lemma ip_session_reachable (dflt : T) capacity cs p0 hs p :
  0 < capacity < size_t_modulus ->
  construct dflt capacity = Ok p0 -> ip_disciplined cs p0 = true ->
  ip_run cs p0 = Ok (hs, p) -> ip_reachable p.
Proof.
  intros Hcap Hc Hd Hrun.
  eapply ip_run_reachable; [|exact Hd|exact Hrun].
  eapply ip_reach_construct; eauto.
Qed.

Lemma ip_inv_free_list p a fl :
  ip_inv p a fl -> ip_free_list p = Some fl.
Proof.
  intros H. unfold ip_free_list. rewrite (ip_inv_pool _ _ _ H).
  apply chain_walk; [exact (ip_inv_chain _ _ _ H)|].
  pose proof (chain_NoDup_length _ _ _ _ (ip_inv_chain _ _ _ H)
                (ip_inv_nodup _ _ _ H)). lia.
Qed.

(** [deactivate] reads through [first_available_] when the stale link of
    the unit lies above it; with an empty free list that is a read
    through [nullptr]. *)
Lemma ip_deactivate_null_head p a index u :
  pool_ p = Some a -> get a index = Some u -> index < capacity_ p ->
  first_available_ p = Null -> next_ u <> Null ->
  deactivate index p = Undefined NullDeref.
Proof.
  intros Hp Hu Hi Hfirst Hnext. unfold deactivate.
  replace (index <? capacity_ p) with true by zcases.
  rewrite Hp, store_get, Hu. cbn [bind].
  unfold link_free. rewrite load_get, (get_upd_eq _ _ _ _ Hu). cbn [bind].
  rewrite Hfirst. cbn [next_ set_active].
  destruct (next_ u); [contradiction|reflexivity].
Qed.

(** In every other case [deactivate] of an active unit is defined. *)
Lemma ip_deactivate_defined p a fl index u :
  ip_inv p a fl -> get a index = Some u -> active_ u = true ->
  (first_available_ p = Null -> next_ u = Null) ->
  defined (deactivate index p).
Proof.
  intros H Hu Hact Hhead.
  pose proof (get_Some_range _ _ _ Hu) as Hr.
  assert (index ∉ fl) as Hnotin.
  { intros Hin. apply (ip_inv_free _ _ _ H _ _ Hu) in Hin. congruence. }
  destruct H as [Hp Hl Hcap Hc Hnd Hfree Hcount Hidx Hbound Htop].
  set (u1 := set_active false u).
  set (a1 := upd a index u1).
  assert (get a1 index = Some u1) as Hu1 by (eapply get_upd_eq; eauto).
  assert (exists r a3, link_free (first_available_ p) index (Some a1)
                       = Ok (r, Some a3) /\ length a3 = length a) as
    (first' & a3 & Hlink & Hlen3).
  { unfold link_free. rewrite load_get, Hu1. cbn [bind].
    destruct (ptr_lt (first_available_ p) (next_ u1)) eqn:Hlt.
    - destruct (first_available_ p) as [|h] eqn:Hfirst.
      + specialize (Hhead eq_refl). simpl in Hlt. rewrite Hhead in Hlt.
        discriminate.
      + destruct fl as [|h' tl]; [discriminate|].
        simpl in Hc. destruct Hc as [[= <-] (uh & Huh & Hc)].
        assert (h <> index) as Hne by (intros ->; apply Hnotin; left).
        pose proof (get_Some_range _ _ _ Huh) as Hrh.
        assert (get a1 h = Some uh) as Huh1
          by (unfold a1; rewrite get_upd_ne by lia; assumption).
        cbn [deref store_at]. rewrite load_get, Huh1. cbn [bind].
        rewrite store_get, Huh1. cbn [bind].
        rewrite store_get, get_upd_ne, Hu1 by lia. cbn [bind].
        eexists _, _. split; [reflexivity|].
        unfold a1. now rewrite !length_upd.
    - rewrite store_get, Hu1. cbn [bind].
      eexists _, _. split; [reflexivity|].
      unfold a1. now rewrite !length_upd. }
  unfold deactivate. replace (index <? capacity_ p) with true by zcases.
  rewrite Hp, store_get, Hu. cbn [bind]. fold u1. fold a1.
  rewrite Hlink. cbn [bind fst snd].
  destruct (highest_active_index_ p =? index) eqn:He.
  - destruct (index =? 0); [eexists; reflexivity|].
    destruct (ip_scan_down_spec a3 (Z.to_nat (highest_active_index_ p)))
      as (r & Hscan & _).
    { apply Z.eqb_eq in He. lia. }
    rewrite Hscan. cbn [bind]. destruct r; eexists; reflexivity.
  - eexists; reflexivity.
Qed.
End IndexedSteps.

(** ** [IndexedObjectPool]: the shape of the links *)

Section IndexedShape.
Import IndexedObjectPool.
Context {T : Type}.
Implicit Types (p : pool T) (a : list (IndexedPoolUnit T)) (fl : list Z).

Lemma ip_cleared_shape p' a a' :
  Z.of_nat (length a) = capacity_ p' ->
  (forall j, get a' j = ip_cleared (capacity_ p') j <$> get a j) ->
  ip_shape p' a'.
Proof.
  intros Hlen Hget.
  assert (forall j v, get a' j = Some v ->
            0 <= j < capacity_ p' /\
            exists w, v = ip_cleared (capacity_ p') j w) as Hview.
  { intros j v Hv. rewrite Hget in Hv.
    destruct (get a j) as [w|] eqn:Hw; [|discriminate].
    injection Hv as <-. apply get_Some_range in Hw. split; [lia|eauto]. }
  constructor.
  - intros i u j Hu Hj. apply Hview in Hu as (Hr & w & ->).
    simpl in Hj. revert Hj.
    zcases; try discriminate; try (intros [= <-]; lia).
  - intros i u Hu Hi. apply Hview in Hu as (Hr & w & ->).
    simpl. zcases; discriminate.
  - intros u Hu. apply Hview in Hu as (Hr & w & ->). simpl. zcases.
  - intros u Hu Hact. apply Hview in Hu as (Hr & w & ->). discriminate.
Qed.

Lemma ip_activate_shape p p' a i fl u :
  ip_inv p a (i :: fl) -> ip_shape p a -> get a i = Some u ->
  capacity_ p' = capacity_ p ->
  ip_shape p' (upd a i (set_active true u)).
Proof.
  intros Hinv [HK HK' HL Hfull] Hu Hcap.
  pose proof (get_Some_range _ _ _ Hu) as Hr.
  assert (forall j v, get (upd a i (set_active true u)) j = Some v ->
            (j = i /\ v = set_active true u) \/
            (j <> i /\ get a j = Some v)) as Hview.
  { intros j v Hv. destruct (Z.eq_dec j i) as [->|Hne].
    - rewrite (get_upd_eq _ _ _ _ Hu) in Hv. injection Hv as <-. now left.
    - rewrite get_upd_ne in Hv by lia. now right. }
  assert (active_ u = false) as Hidle
    by (apply (ip_inv_free _ _ _ Hinv _ _ Hu); left).
  constructor; rewrite Hcap.
  - intros j v k Hv Hk. destruct (Hview _ _ Hv) as [[-> ->]|[_ Hv']];
      cbn [next_ set_active] in *; eauto.
  - intros j v Hv Hj. destruct (Hview _ _ Hv) as [[-> ->]|[_ Hv']];
      cbn [next_ set_active] in *; eauto.
  - intros v Hv. destruct (Hview _ _ Hv) as [[Hi ->]|[_ Hv']]; [|eauto].
    simpl. apply HL. now rewrite Hi.
  - intros v Hv Hact j w Hw.
    destruct (Hview _ _ Hv) as [[Hi ->]|[Hne Hv']].
    + destruct (Hview _ _ Hw) as [[_ ->]|[Hne Hw']]; [reflexivity|].
      rewrite Hi in HL. pose proof (HL _ Hu) as Hnull.
      pose proof (ip_inv_chain _ _ _ Hinv) as Hc. simpl in Hc.
      destruct Hc as [_ (u' & Hu' & Hc)].
      rewrite Hu in Hu'. injection Hu' as <-. rewrite Hnull in Hc.
      destruct fl as [|k fl]; [|destruct Hc; discriminate].
      destruct (active_ w) eqn:Haw; [reflexivity|].
      apply (ip_inv_free _ _ _ Hinv _ _ Hw') in Haw.
      apply list_elem_of_singleton in Haw. contradiction.
    + pose proof (Hfull _ Hv' Hact _ _ Hu). congruence.
Qed.

Lemma ip_deactivate_run p a index u p' :
  pool_ p = Some a -> get a index = Some u -> index < capacity_ p ->
  deactivate index p = Ok p' ->
  exists r,
    link_free (first_available_ p) index
      (Some (upd a index (set_active false u))) = Ok r /\
    first_available_ p' = fst r /\ pool_ p' = snd r /\
    capacity_ p' = capacity_ p.
Proof.
  intros Hp Hu Hi Hrun. unfold deactivate in Hrun.
  replace (index <? capacity_ p) with true in Hrun by zcases.
  rewrite Hp, store_get, Hu in Hrun. cbn [bind] in Hrun.
  destruct (link_free _ _ _) as [r|]; [|discriminate].
  cbn [bind] in Hrun.
  match type of Hrun with
  | bind ?m _ = _ => destruct m as [hv|]; [|discriminate]
  end.
  cbn [bind] in Hrun. injection Hrun as <-. exists r. auto.
Qed.

Lemma ip_link_free_cases a first index u r :
  get a index = Some u -> first <> At index ->
  link_free first index (Some a) = Ok r ->
  (ptr_lt first (next_ u) = false /\
   r = (At index, Some (upd a index (set_next first u)))) \/
  (exists h uh,
     first = At h /\ ptr_lt (At h) (next_ u) = true /\
     get a h = Some uh /\
     r = (At h, Some (upd (upd a h (set_next (At index) uh)) index
                        (set_next (next_ uh) u)))).
Proof.
  intros Hu Hne. unfold link_free. rewrite load_get, Hu. cbn [bind].
  destruct (ptr_lt first (next_ u)) eqn:Hlt.
  - destruct first as [|h]; [discriminate|].
    cbn [deref store_at]. rewrite load_get.
    destruct (get a h) as [uh|] eqn:Huh; [|discriminate].
    cbn [bind]. rewrite store_get, Huh. cbn [bind].
    pose proof (get_Some_range _ _ _ Huh) as Hr.
    rewrite store_get, get_upd_ne, Hu by (try lia; congruence).
    cbn [bind]. intros [= <-]. right. eauto 10.
  - rewrite store_get, Hu. cbn [bind]. intros [= <-]. now left.
Qed.

Lemma ip_deactivate_shape p a fl index u p' a' :
  ip_inv p a fl -> ip_shape p a ->
  get a index = Some u -> active_ u = true ->
  deactivate index p = Ok p' -> pool_ p' = Some a' ->
  ip_shape p' a'.
Proof.
  intros Hinv [HK HK' HL Hfull] Hu Hact Hrun Hp'.
  pose proof (get_Some_range _ _ _ Hu) as Hr.
  pose proof (ip_inv_len _ _ _ Hinv) as Hlen.
  pose proof (ip_inv_chain _ _ _ Hinv) as Hc.
  assert (index ∉ fl) as Hnotin.
  { intros Hin. apply (ip_inv_free _ _ _ Hinv _ _ Hu) in Hin. congruence. }
  destruct (ip_deactivate_run _ _ _ _ _ (ip_inv_pool _ _ _ Hinv) Hu
              ltac:(lia) Hrun) as (r & Hlink & _ & Hpool & Hcap).
  set (u1 := set_active false u) in *.
  set (a1 := upd a index u1) in *.
  assert (get a1 index = Some u1) as Hu1 by (eapply get_upd_eq; eauto).
  assert (forall h, first_available_ p = At h ->
            h <> index /\ 0 <= h < capacity_ p /\
            exists uh, get a h = Some uh /\ active_ uh = false) as Hhead.
  { intros h Hh. rewrite Hh in Hc. destruct fl as [|h' tl]; [discriminate|].
    simpl in Hc. destruct Hc as [[= <-] (uh & Huh & _)].
    split; [intros ->; apply Hnotin; left|].
    split; [apply get_Some_range in Huh; lia|].
    exists uh. split; [assumption|].
    apply (ip_inv_free _ _ _ Hinv _ _ Huh). left. }
  (* the last unit is active only in a full pool *)
  assert (forall h v, first_available_ p = At h ->
            get a (capacity_ p - 1) = Some v -> active_ v = false) as Hidle.
  { intros h v Hh Hv. destruct (Hhead _ Hh) as (_ & _ & uh & Huh & Hah).
    destruct (active_ v) eqn:Hav; [|reflexivity].
    pose proof (Hfull _ Hv Hav _ _ Huh). congruence. }
  destruct (ip_link_free_cases _ _ _ _ _ Hu1 ltac:(intros Hh;
              destruct (Hhead _ Hh) as [? _]; congruence) Hlink)
    as [[Hlt ->]|(h & uh & Hh & Hlt & Huh1 & ->)];
    cbn [snd] in Hpool; rewrite Hp' in Hpool; injection Hpool as ->.
  - (* in front of the head *)
    set (u2 := set_next (first_available_ p) u1).
    assert (forall j v, get (upd a1 index u2) j = Some v ->
              (j = index /\ v = u2) \/ (j <> index /\ get a j = Some v))
      as Hview.
    { intros j v Hv. destruct (Z.eq_dec j index) as [->|Hne].
      - rewrite (get_upd_eq _ _ _ _ Hu1) in Hv. injection Hv as <-. now left.
      - unfold a1 in Hv. rewrite !get_upd_ne in Hv by lia. now right. }
    assert (first_available_ p = Null -> index = capacity_ p - 1) as Hfullcase.
    { intros Hnull. rewrite Hnull in Hlt. cbn [next_ u1 set_active] in Hlt.
      destruct (next_ u) eqn:Hn; [|discriminate].
      destruct (Z_lt_ge_dec index (capacity_ p - 1)) as [Hlo|?]; [|lia].
      exfalso. exact (HK' _ _ Hu Hlo Hn). }
    constructor; rewrite Hcap.
    + intros j v k Hv Hk. destruct (Hview _ _ Hv) as [[-> ->]|[_ Hv']];
        [|eauto]. simpl in Hk. destruct (Hhead _ Hk) as (_ & ? & _). lia.
    + intros j v Hv Hj. destruct (Hview _ _ Hv) as [[-> ->]|[_ Hv']];
        [|eauto]. simpl. intros Hnull. apply Hfullcase in Hnull. lia.
    + intros v Hv. destruct (Hview _ _ Hv) as [[Hi ->]|[_ Hv']]; [|eauto].
      simpl. destruct (first_available_ p) as [|h] eqn:Hh; [reflexivity|].
      rewrite Hi in Hidle. rewrite (Hidle h u eq_refl Hu) in Hact.
      discriminate.
    + intros v Hv Hav. destruct (Hview _ _ Hv) as [[Hi ->]|[Hne Hv']];
        [discriminate|].
      destruct (first_available_ p) as [|h] eqn:Hh.
      * specialize (Hfullcase eq_refl). lia.
      * rewrite (Hidle h v eq_refl Hv') in Hav. discriminate.
  - (* right behind the head *)
    destruct (Hhead _ Hh) as (Hne & Hrh & uh' & Huh & Hah).
    assert (uh' = uh) as ->.
    { unfold a1 in Huh1. rewrite get_upd_ne in Huh1 by lia. congruence. }
    set (uh2 := set_next (At index) uh).
    set (u2 := set_next (next_ uh) u1).
    assert (forall j v, get (upd (upd a1 h uh2) index u2) j = Some v ->
              (j = index /\ v = u2) \/ (j = h /\ v = uh2) \/
              (j <> index /\ j <> h /\ get a j = Some v)) as Hview.
    { intros j v Hv. destruct (Z.eq_dec j index) as [->|Hj].
      - erewrite get_upd_eq in Hv.
        + injection Hv as <-. now left.
        + rewrite get_upd_ne by lia. exact Hu1.
      - rewrite get_upd_ne in Hv by lia.
        destruct (Z.eq_dec j h) as [->|Hj'].
        + rewrite (get_upd_eq _ _ _ _ Huh1) in Hv. injection Hv as <-. auto.
        + unfold a1 in Hv. rewrite !get_upd_ne in Hv by lia. auto. }
    assert (h < capacity_ p - 1) as Hlow.
    { cbn [next_ u1 set_active] in Hlt.
      destruct (next_ u) as [|k] eqn:Hn; [discriminate|]. simpl in Hlt.
      pose proof (HK _ _ _ Hu Hn). apply Z.ltb_lt in Hlt. lia. }
    assert (index <> capacity_ p - 1) as Hnotlast.
    { intros ->. rewrite (Hidle h u Hh Hu) in Hact. discriminate. }
    constructor; rewrite Hcap.
    + intros j v k Hv Hk.
      destruct (Hview _ _ Hv) as [[-> ->]|[[-> ->]|(_ & _ & Hv')]];
        [|injection Hk as <-; lia|eauto].
      simpl in Hk. eauto.
    + intros j v Hv Hj.
      destruct (Hview _ _ Hv) as [[-> ->]|[[-> ->]|(_ & _ & Hv')]];
        [|discriminate|eauto].
      simpl. eauto.
    + intros v Hv.
      destruct (Hview _ _ Hv) as [[? _]|[[? _]|(_ & _ & Hv')]];
        [lia|lia|eauto].
    + intros v Hv Hav.
      destruct (Hview _ _ Hv) as [[? _]|[[? _]|(_ & _ & Hv')]];
        [lia|lia|].
      rewrite (Hidle h v Hh Hv') in Hav. discriminate.
Qed.

Lemma ip_reachable_shape p :
  ip_reachable p -> exists a fl, ip_inv p a fl /\ ip_shape p a.
Proof.
  induction 1 as [dflt capacity p Hcap Hrun
                 | p h p' _ (a & fl & IH & IHs) Hrun
                 | index p p' _ (a & fl & IH & IHs) Hact Hrun
                 | p p' _ (a & fl & IH & IHs) Hrun].
  - unfold construct, inflatePool in Hrun.
    edestruct (ip_clear_spec
      {| first_available_ := Null;
         pool_ := Some (replicate (Z.to_nat capacity)
                          {| active_ := false; index_ := 0; next_ := Null;
                             object_ := dflt |});
         active_count_ := 0; capacity_ := capacity;
         highest_active_index_ := 0 |})
      as (q & a' & Hq & Hinv & Hc & Hget);
      [reflexivity | simpl; rewrite length_replicate; lia | exact Hcap |].
    rewrite Hrun in Hq. injection Hq as <-.
    exists a', (seqZ 0 capacity). split; [exact Hinv|].
    eapply ip_cleared_shape; [|rewrite Hc; exact Hget].
    rewrite Hc. simpl. rewrite length_replicate. lia.
  - destruct fl as [|i fl].
    + rewrite (ip_activate_nil _ _ IH) in Hrun. injection Hrun as _ <-.
      eauto.
    + destruct (ip_activate_cons _ _ _ _ IH)
        as (u & q & Hu & Hq & Hinv & _ & Hcap & _).
      rewrite Hrun in Hq. injection Hq as _ <-.
      eexists _, fl. split; [exact Hinv|].
      eapply ip_activate_shape; eauto.
  - apply (ip_active_get _ _ _ _ (ip_inv_pool _ _ _ IH)) in Hact
      as (u & Hu & Hact).
    destruct (ip_deactivate_active _ _ _ _ _ _ IH Hu Hact Hrun)
      as (a' & fl' & Hinv & _).
    exists a', fl'. split; [exact Hinv|].
    exact (ip_deactivate_shape _ _ _ _ _ _ _ IH IHs Hu Hact Hrun
             (ip_inv_pool _ _ _ Hinv)).
  - destruct (ip_clear_spec p a (ip_inv_pool _ _ _ IH)
                (ip_inv_len _ _ _ IH) (ip_inv_cap _ _ _ IH))
      as (q & a' & Hq & Hinv & Hc & Hget).
    rewrite Hrun in Hq. injection Hq as <-.
    exists a', (seqZ 0 (capacity_ p)). split; [exact Hinv|].
    eapply ip_cleared_shape; [|rewrite Hc; exact Hget].
    rewrite Hc. exact (ip_inv_len _ _ _ IH).
Qed.

(** Giving back the unit at the highest active index is always defined. *)
Lemma ip_deactivate_highest_defined p index :
  ip_reachable p -> index = highest_active_index_ p ->
  active index p = Ok true ->
  defined (deactivate index p).
Proof.
  intros Hreach -> Hact.
  destruct (ip_reachable_shape _ Hreach) as (a & fl & Hinv & Hs).
  destruct (proj1 (ip_active_get p a _ true (ip_inv_pool _ _ _ Hinv)) Hact)
    as (u & Hu & Hau).
  apply (ip_deactivate_defined _ _ _ _ _ Hinv Hu Hau).
  intros Hnull.
  pose proof (ip_inv_chain _ _ _ Hinv) as Hc. rewrite Hnull in Hc.
  destruct fl as [|h tl]; [|destruct Hc; discriminate].
  pose proof (ip_inv_len _ _ _ Hinv) as Hlen.
  pose proof (ip_inv_cap _ _ _ Hinv) as Hcap.
  destruct (get_in_range a (capacity_ p - 1)) as [v Hv]; [lia|].
  assert (active_ v = true) as Hav.
  { destruct (active_ v) eqn:E; [reflexivity|].
    apply (ip_inv_free _ _ _ Hinv _ _ Hv) in E. inversion E. }
  pose proof (ip_inv_bound _ _ _ Hinv _ _ Hv Hav) as Hle.
  pose proof (get_Some_range _ _ _ Hu) as Hr.
  assert (highest_active_index_ p = capacity_ p - 1) as He by lia.
  rewrite He in Hu. exact (ip_shape_last _ _ Hs _ Hu).
Qed.
End IndexedShape.

(** * The claims *)

(** ** Construction *)

(** C1 (the code at the failing input).  Constructing either pool with
    capacity 0 does not fail with an error: [new[]] hands out an empty
    array, the loop of [clear] does not run, and [pool_[capacity_ - 1]]
    then writes at index [2^64 - 1], outside the array. *)
Theorem construct_zero_capacity_undefined (T : Type) (dflt : T) :
  ObjectPool.construct dflt 0 = Undefined OutOfBounds /\
  IndexedObjectPool.construct dflt 0 = Undefined OutOfBounds.
Proof. split; reflexivity. Qed.

(** With a positive capacity both constructors are defined and allocate
    exactly [capacity] units, none active. *)
Lemma construct_positive_capacity (T : Type) (dflt : T) capacity :
  0 < capacity < size_t_modulus ->
  (exists p, ObjectPool.construct dflt capacity = Ok p /\
             ObjectPool.capacity p = capacity /\
             units (ObjectPool.pool_ p) = capacity /\
             ObjectPool.activeCount p = 0) /\
  (exists p, IndexedObjectPool.construct dflt capacity = Ok p /\
             IndexedObjectPool.capacity p = capacity /\
             units (IndexedObjectPool.pool_ p) = capacity /\
             IndexedObjectPool.activeCount p = 0).
Proof.
  intros Hcap. split.
  - destruct (op_construct_spec dflt capacity Hcap)
      as (p & a & Hrun & Hinv & Hc & Hlen).
    exists p. split; [assumption|]. split; [assumption|].
    unfold units, ObjectPool.activeCount.
    rewrite (op_inv_pool _ _ _ Hinv), (op_inv_count _ _ _ Hinv), length_seqZ.
    split; lia.
  - destruct (ip_construct_spec dflt capacity Hcap)
      as (p & a & Hrun & Hinv & Hc & Hlen).
    exists p. split; [assumption|]. split; [assumption|].
    unfold units, IndexedObjectPool.activeCount.
    rewrite (ip_inv_pool _ _ _ Hinv), (ip_inv_count _ _ _ Hinv), length_seqZ.
    split; lia.
Qed.

(** ** Reuse order of the indexed pool *)

(** C2 (the code at the failing input).  After five activations the free
    list is empty, [first_available_] is [nullptr], and unit 2 still
    carries the link [&pool_[3]] it had when it was handed out.
    [deactivate(2)] compares [nullptr] against that link, takes the
    "head is lower" branch and reads [first_available_->next_] through
    [nullptr]: the scenario never gets to its two activations. *)
Theorem ip_low_index_bias_undefined (T : Type) (dflt : T) :
  (exists p,
     ip_session dflt 5 [Activate; Activate; Activate; Activate; Activate]
     = Ok ([At 0; At 1; At 2; At 3; At 4], p) /\
     IndexedObjectPool.first_available_ p = Null /\
     load (IndexedObjectPool.pool_ p) 2 =
       Ok {| IndexedObjectPool.active_ := true;
             IndexedObjectPool.index_ := 2;
             IndexedObjectPool.next_ := At 3;
             IndexedObjectPool.object_ := dflt |} /\
     IndexedObjectPool.deactivate 2 p = Undefined NullDeref) /\
  ip_session dflt 5 low_index_bias_calls = Undefined NullDeref.
Proof.
  split; [|vm_compute; reflexivity].
  eexists. split; [cbv; reflexivity|].
  split; [reflexivity|]. split; [reflexivity|]. vm_compute. reflexivity.
Qed.

(** The reuse order is not ascending either where every step is defined:
    freed in the order 4, 1, 2, 3, the units come back as 1, 3, 2, 4.  No
    step of this run compares [nullptr] with a unit. *)
Lemma ip_reuse_not_ascending (T : Type) (dflt : T) :
  exists p,
    ip_session dflt 5 scattered_frees_calls
    = Ok ([At 0; At 1; At 2; At 3; At 4; At 1; At 3; At 2; At 4], p).
Proof. eexists. cbv. reflexivity. Qed.

(** ** Example states *)

Lemma op_two_of_three_session :
  op_session tt 3 [Activate; Activate] = Ok ([At 0; At 1], op_two_of_three).
Proof. vm_compute. reflexivity. Qed.

Lemma op_two_of_three_reachable : op_reachable op_two_of_three.
Proof.
  eapply (op_session_reachable tt 3 [Activate; Activate]);
    [unfold size_t_modulus; lia | cbv; reflexivity
    | vm_compute; reflexivity | vm_compute; reflexivity].
Qed.

Lemma ip_three_of_three_session :
  ip_session tt 3 [Activate; Activate; Activate]
  = Ok ([At 0; At 1; At 2], ip_three_of_three).
Proof. vm_compute. reflexivity. Qed.

Lemma ip_three_of_three_reachable : ip_reachable ip_three_of_three.
Proof.
  eapply (ip_session_reachable tt 3 [Activate; Activate; Activate]);
    [unfold size_t_modulus; lia | cbv; reflexivity
    | vm_compute; reflexivity | vm_compute; reflexivity].
Qed.

(** ** [active] *)

(** C3, counterexample.  [active] indexes the array without a check: on a
    pool of capacity 1, [active(1)] reads [pool_[1]], outside the array. *)
Lemma active_out_of_range_undefined :
  (exists p, ObjectPool.construct tt 1 = Ok p /\
             ObjectPool.active 1 p = Undefined OutOfBounds) /\
  (exists p, IndexedObjectPool.construct tt 1 = Ok p /\
             IndexedObjectPool.active 1 p = Undefined OutOfBounds).
Proof. split; eexists; (split; [cbv; reflexivity|evaluate]). Qed.

(** C3, as amended.  On every reachable pool of either variant,
    [active(index)] for [index < capacity] returns the flag of that unit,
    which is set exactly when the unit is not on the free list; [active]
    does not check bounds, and for [index >= capacity] the read is outside
    the array. *)
Theorem active_in_range_only (T : Type) :
  (forall p : ObjectPool.pool T, op_reachable p ->
     forall index,
       (0 <= index < ObjectPool.capacity p ->
        exists u fl,
          load (ObjectPool.pool_ p) index = Ok u /\
          ObjectPool.active index p = Ok (ObjectPool.active_ u) /\
          op_free_list p = Some fl /\
          (ObjectPool.active_ u = true <-> index ∉ fl)) /\
       (ObjectPool.capacity p <= index ->
        ObjectPool.active index p = Undefined OutOfBounds)) /\
  (forall p : IndexedObjectPool.pool T, ip_reachable p ->
     forall index,
       (0 <= index < IndexedObjectPool.capacity p ->
        exists u fl,
          load (IndexedObjectPool.pool_ p) index = Ok u /\
          IndexedObjectPool.active index p
            = Ok (IndexedObjectPool.active_ u) /\
          ip_free_list p = Some fl /\
          (IndexedObjectPool.active_ u = true <-> index ∉ fl)) /\
       (IndexedObjectPool.capacity p <= index ->
        IndexedObjectPool.active index p = Undefined OutOfBounds)).
Proof.
  split.
  - intros p Hreach index.
    destruct (op_reachable_inv _ Hreach) as (a & fl & Hinv).
    pose proof (op_inv_len _ _ _ Hinv) as Hlen.
    unfold ObjectPool.capacity, ObjectPool.active.
    rewrite (op_inv_pool _ _ _ Hinv), load_get. split.
    + intros Hr. destruct (get_in_range a index) as [u Hu]; [lia|].
      rewrite Hu. exists u, fl. split; [reflexivity|]. split; [reflexivity|].
      split; [exact (op_inv_free_list _ _ _ Hinv)|].
      pose proof (op_inv_free _ _ _ Hinv _ _ Hu) as Hf.
      destruct (ObjectPool.active_ u); split; intros H;
        try reflexivity; try discriminate.
      * intros Hin. apply Hf in Hin. discriminate.
      * exfalso. apply H. apply Hf. reflexivity.
    + intros Hr. rewrite get_None by lia. reflexivity.
  - intros p Hreach index.
    destruct (ip_reachable_inv _ Hreach) as (a & fl & Hinv).
    pose proof (ip_inv_len _ _ _ Hinv) as Hlen.
    unfold IndexedObjectPool.capacity, IndexedObjectPool.active.
    rewrite (ip_inv_pool _ _ _ Hinv), load_get. split.
    + intros Hr. destruct (get_in_range a index) as [u Hu]; [lia|].
      rewrite Hu. exists u, fl. split; [reflexivity|]. split; [reflexivity|].
      split; [exact (ip_inv_free_list _ _ _ Hinv)|].
      pose proof (ip_inv_free _ _ _ Hinv _ _ Hu) as Hf.
      destruct (IndexedObjectPool.active_ u); split; intros H;
        try reflexivity; try discriminate.
      * intros Hin. apply Hf in Hin. discriminate.
      * exfalso. apply H. apply Hf. reflexivity.
    + intros Hr. rewrite get_None by lia. reflexivity.
Qed.

Lemma active_in_range_only_witness :
  op_reachable op_two_of_three /\
  0 <= 1 < ObjectPool.capacity op_two_of_three /\
  (exists u fl,
     load (ObjectPool.pool_ op_two_of_three) 1 = Ok u /\
     ObjectPool.active 1 op_two_of_three = Ok (ObjectPool.active_ u) /\
     op_free_list op_two_of_three = Some fl /\
     (ObjectPool.active_ u = true <-> 1 ∉ fl)) /\
  ip_reachable ip_three_of_three /\
  3 <= 7 /\
  IndexedObjectPool.active 7 ip_three_of_three = Undefined OutOfBounds.
Proof.
  split; [exact op_two_of_three_reachable|].
  split; [simpl; lia|].
  split.
  - apply (proj1 (active_in_range_only unit) op_two_of_three
             op_two_of_three_reachable 1).
    simpl. lia.
  - split; [exact ip_three_of_three_reachable|].
    split; [lia|].
    apply (proj2 (active_in_range_only unit) ip_three_of_three
             ip_three_of_three_reachable 7).
    simpl. lia.
Defined.

(** ** Move *)

(** C4 (the code at the failing input).  The move assignment copies
    [capacity_] and [active_count_] and exchanges only the two pointers:
    the source keeps its capacity and its count while it has lost the
    array, so that its [clear] and [deactivate] go through [nullptr].
    The target does receive the state of the source unchanged, and the
    source can be destroyed ([delete[]] of [nullptr]). *)
Theorem move_source_keeps_capacity (T : Type) (dflt : T) :
  (forall B A : ObjectPool.pool T,
     fst (ObjectPool.move_assign B A) = A /\
     ObjectPool.capacity (snd (ObjectPool.move_assign B A))
       = ObjectPool.capacity A /\
     ObjectPool.activeCount (snd (ObjectPool.move_assign B A))
       = ObjectPool.activeCount A /\
     ObjectPool.destroy (snd (ObjectPool.move_assign B A)) = None) /\
  (exists A,
     ObjectPool.construct dflt 1 = Ok A /\
     ObjectPool.capacity (snd (ObjectPool.move_construct A)) = 1 /\
     ObjectPool.clear (snd (ObjectPool.move_construct A))
       = Undefined NullDeref /\
     ObjectPool.deactivate 0 (snd (ObjectPool.move_construct A))
       = Undefined NullDeref) /\
  (forall B A : IndexedObjectPool.pool T,
     fst (IndexedObjectPool.move_assign B A) = A /\
     IndexedObjectPool.capacity (snd (IndexedObjectPool.move_assign B A))
       = IndexedObjectPool.capacity A /\
     IndexedObjectPool.activeCount (snd (IndexedObjectPool.move_assign B A))
       = IndexedObjectPool.activeCount A /\
     IndexedObjectPool.destroy (snd (IndexedObjectPool.move_assign B A))
       = None) /\
  (exists A,
     IndexedObjectPool.construct dflt 1 = Ok A /\
     IndexedObjectPool.capacity (snd (IndexedObjectPool.move_construct A))
       = 1 /\
     IndexedObjectPool.clear (snd (IndexedObjectPool.move_construct A))
       = Undefined NullDeref /\
     IndexedObjectPool.deactivate 0
       (snd (IndexedObjectPool.move_construct A)) = Undefined NullDeref).
Proof.
  split; [|split; [|split]].
  - intros B [f a c n]. repeat split.
  - eexists. split; [cbv; reflexivity|]. evaluate.
  - intros B [f a c n h]. repeat split.
  - eexists. split; [cbv; reflexivity|]. evaluate.
Qed.

(** ** The highest active index *)

(** In every state of the indexed pool reached from the constructor
    by defined [activate], [clear] and [deactivate] steps, the latter on
    active units only, no active unit lies above [highest_active_index_],
    and [highest_active_index_] is 0 or the largest index of an active
    unit.  Deactivating the unit at the highest index, above 0, is defined,
    and the new value is the largest index of a unit still active, which
    lies below the old one, or 0 when no unit is active any more. *)
Lemma ip_highest_index_defined_steps (T : Type)
    (p : IndexedObjectPool.pool T) :
  ip_reachable p ->
  (forall i, IndexedObjectPool.active i p = Ok true ->
             i <= IndexedObjectPool.highestActiveIndex p) /\
  (IndexedObjectPool.highestActiveIndex p = 0 \/
   ip_max_active p (IndexedObjectPool.highestActiveIndex p)) /\
  (forall index,
     index = IndexedObjectPool.highestActiveIndex p -> 0 < index ->
     IndexedObjectPool.active index p = Ok true ->
     exists p',
       IndexedObjectPool.deactivate index p = Ok p' /\
       ((ip_max_active p' (IndexedObjectPool.highestActiveIndex p') /\
         IndexedObjectPool.highestActiveIndex p' < index) \/
        (ip_none_active p' /\
         IndexedObjectPool.highestActiveIndex p' = 0))).
Proof.
  intros Hreach. destruct (ip_reachable_inv _ Hreach) as (a & fl & Hinv).
  pose proof (ip_inv_pool _ _ _ Hinv) as Hp.
  unfold IndexedObjectPool.highestActiveIndex.
  assert (forall i, IndexedObjectPool.active i p = Ok true ->
                    i <= IndexedObjectPool.highest_active_index_ p) as Hbound.
  { intros i Hi. apply (ip_active_get _ _ _ _ Hp) in Hi as (u & Hu & Hact).
    exact (ip_inv_bound _ _ _ Hinv _ _ Hu Hact). }
  split; [exact Hbound|]. split.
  - destruct (ip_inv_top _ _ _ Hinv) as [H0|(u & Hu & Hact)]; [now left|].
    right. split; [|exact Hbound].
    apply (ip_active_get _ _ _ _ Hp). eauto.
  - intros index Hindex Hpos Hact.
    destruct (ip_deactivate_highest_defined _ _ Hreach Hindex Hact)
      as [p' Hrun].
    exists p'. split; [exact Hrun|]. subst index.
    apply (ip_active_get _ _ _ _ Hp) in Hact as (u & Hu & Hact).
    destruct (ip_deactivate_active _ _ _ _ _ _ Hinv Hu Hact Hrun)
      as (a' & fl' & Hinv' & _ & _ & _ & _ & _ & _ & Hscan).
    pose proof (ip_inv_pool _ _ _ Hinv') as Hp'.
    destruct (Hscan eq_refl Hpos) as [(Hr & (v & Hv & Hav) & _)|(H0 & Hnone)].
    + left. split; [|lia]. split.
      * apply (ip_active_get _ _ _ _ Hp'). eauto.
      * intros i Hi.
        apply (ip_active_get _ _ _ _ Hp') in Hi as (w & Hw & Haw).
        exact (ip_inv_bound _ _ _ Hinv' _ _ Hw Haw).
    + right. split; [|assumption]. intros i Hi.
      apply (ip_active_get _ _ _ _ Hp') in Hi as (w & Hw & Haw).
      pose proof (ip_inv_bound _ _ _ Hinv' _ _ Hw Haw) as Hle.
      pose proof (get_Some_range _ _ _ Hw) as Hr.
      rewrite (Hnone i w) in Haw; [discriminate|lia|assumption].
Qed.

(** C5 (the code at the failing input).  The recomputation of
    [highest_active_index_] is right wherever [deactivate] returns: in the
    states reached by defined steps the value is 0 or the largest index of
    an active unit, and giving back the unit at the highest index moves it
    to the largest index still active, or to 0.  But [deactivate] on an
    active unit does not always return, so that not every sequence of
    operations on active units has a state for the invariant to hold in:
    with all five units of a pool of capacity 5 active, the highest index
    is 4, and [deactivate] of each of the units 0 to 3 reads
    [first_available_->next_] through [nullptr] before it reaches the
    recomputation. *)
Theorem ip_highest_active_index (T : Type) (dflt : T) :
  (forall p : IndexedObjectPool.pool T,
     ip_reachable p ->
     (forall i, IndexedObjectPool.active i p = Ok true ->
                i <= IndexedObjectPool.highestActiveIndex p) /\
     (IndexedObjectPool.highestActiveIndex p = 0 \/
      ip_max_active p (IndexedObjectPool.highestActiveIndex p)) /\
     (forall index,
        index = IndexedObjectPool.highestActiveIndex p -> 0 < index ->
        IndexedObjectPool.active index p = Ok true ->
        exists p',
          IndexedObjectPool.deactivate index p = Ok p' /\
          ((ip_max_active p' (IndexedObjectPool.highestActiveIndex p') /\
            IndexedObjectPool.highestActiveIndex p' < index) \/
           (ip_none_active p' /\
            IndexedObjectPool.highestActiveIndex p' = 0)))) /\
  (exists p,
     ip_session dflt 5 [Activate; Activate; Activate; Activate; Activate]
     = Ok ([At 0; At 1; At 2; At 3; At 4], p) /\
     ip_reachable p /\
     IndexedObjectPool.highestActiveIndex p = 4 /\
     ip_max_active p 4 /\
     (forall i, 0 <= i < 4 ->
        IndexedObjectPool.active i p = Ok true /\
        IndexedObjectPool.deactivate i p = Undefined NullDeref) /\
     ip_session dflt 5
       [Activate; Activate; Activate; Activate; Activate; Deactivate 2]
     = Undefined NullDeref).
Proof.
  split; [exact (ip_highest_index_defined_steps T)|].
  eexists. split; [cbv; reflexivity|].
  match goal with
  | |- ip_reachable ?q /\ _ => assert (ip_reachable q) as Hreach
  end.
  { eapply (ip_session_reachable dflt 5
              [Activate; Activate; Activate; Activate; Activate]);
      [unfold size_t_modulus; lia | cbv; reflexivity
      | vm_compute; reflexivity | vm_compute; reflexivity]. }
  split; [exact Hreach|].
  split; [reflexivity|]. split; [|split].
  - destruct (ip_highest_index_defined_steps T _ Hreach) as (_ & [H0|Hm] & _).
    + vm_compute in H0. discriminate.
    + exact Hm.
  - intros i Hi.
    assert (i = 0 \/ i = 1 \/ i = 2 \/ i = 3) as Hcases by lia.
    destruct Hcases as [Hi0|[Hi0|[Hi0|Hi0]]]; subst i;
      split; vm_compute; reflexivity.
  - vm_compute. reflexivity.
Qed.

Lemma ip_highest_active_index_witness :
  ip_reachable ip_three_of_three /\
  IndexedObjectPool.highestActiveIndex ip_three_of_three = 2 /\
  ip_max_active ip_three_of_three 2 /\
  exists p',
    IndexedObjectPool.deactivate 2 ip_three_of_three = Ok p' /\
    IndexedObjectPool.highestActiveIndex p' = 1 /\
    ip_max_active p' 1.
Proof.
  pose proof (proj1 (ip_highest_active_index unit tt) ip_three_of_three
                ip_three_of_three_reachable) as (_ & Hmax & Hstep).
  split; [exact ip_three_of_three_reachable|].
  split; [reflexivity|].
  split.
  - destruct Hmax as [H0|Hmax]; [discriminate H0|exact Hmax].
  - destruct (Hstep 2 eq_refl ltac:(lia) eq_refl) as (p' & Hrun & Hnew).
    exists p'. split; [exact Hrun|].
    injection Hrun as <-. split; [reflexivity|].
    destruct Hnew as [[Hm _]|[_ H0]]; [exact Hm|discriminate H0].
Defined.

(** ** [activate] of the basic pool *)

(** Activating as often as the free list is long hands out its units in
    order and empties it. *)
Lemma op_run_activate_all (T : Type) (fl : list Z) :
  forall (p : ObjectPool.pool T) a,
    op_inv p a fl ->
    exists p1 a1,
      op_run (replicate (length fl) Activate) p = Ok (At <$> fl, p1) /\
      op_inv p1 a1 [] /\
      ObjectPool.capacity_ p1 = ObjectPool.capacity_ p.
Proof.
  induction fl as [|i fl IH]; intros p a Hinv.
  - exists p, a. split; [reflexivity|]. split; [assumption|reflexivity].
  - destruct (op_activate_cons _ _ _ _ Hinv) as (u & _ & Hact & Hinv').
    destruct (IH _ _ Hinv') as (p1 & a1 & Hrun & Hinv1 & Hcap).
    exists p1, a1. split; [|split; [assumption|exact Hcap]].
    cbn [length replicate op_run op_call]. rewrite Hact. cbn [bind snd fst].
    rewrite Hrun. reflexivity.
Qed.

(** C6.  [activate] of the basic pool.  With the head of the free list at
    unit [i], it returns the handle of unit [i], marks the unit active,
    leaves the other units alone, moves the head to the link of the unit
    and increments [active_count_]; it returns [nullptr], and changes
    nothing, exactly when the head is [nullptr].  On a reachable pool it
    is always defined, the increment does not wrap, and the head is
    [nullptr] exactly when the pool is at capacity.  A fresh pool of
    capacity [n] hands out the [n] distinct units 0, ..., n-1 in [n]
    calls, and nothing on the next call. *)
Theorem op_activate_spec (T : Type) :
  (forall (p : ObjectPool.pool T) i u,
     ObjectPool.first_available_ p = At i ->
     load (ObjectPool.pool_ p) i = Ok u ->
     exists p',
       ObjectPool.activate p = Ok (At i, p') /\
       ObjectPool.first_available_ p' = ObjectPool.next_ u /\
       ObjectPool.active i p' = Ok true /\
       (forall j, j <> i ->
          load (ObjectPool.pool_ p') j = load (ObjectPool.pool_ p) j) /\
       ObjectPool.activeCount p' = wrap (ObjectPool.activeCount p + 1) /\
       ObjectPool.capacity p' = ObjectPool.capacity p) /\
  (forall (p : ObjectPool.pool T) h p',
     ObjectPool.activate p = Ok (h, p') ->
     (h = Null <-> ObjectPool.first_available_ p = Null) /\
     (h = Null -> p' = p)) /\
  (forall p : ObjectPool.pool T, op_reachable p ->
     exists h p',
       ObjectPool.activate p = Ok (h, p') /\
       (h = Null <-> ObjectPool.activeCount p = ObjectPool.capacity p) /\
       (h <> Null ->
        ObjectPool.activeCount p' = ObjectPool.activeCount p + 1 /\
        exists i fl, h = At i /\ op_free_list p = Some (i :: fl) /\
                     op_free_list p' = Some fl)) /\
  (forall (dflt : T) n, 0 < n < size_t_modulus ->
     exists p0 p1,
       ObjectPool.construct dflt n = Ok p0 /\
       ObjectPool.activeCount p0 = 0 /\ ObjectPool.capacity p0 = n /\
       op_run (replicate (Z.to_nat n) Activate) p0
         = Ok (At <$> seqZ 0 n, p1) /\
       NoDup (At <$> seqZ 0 n) /\
       ObjectPool.activeCount p1 = n /\
       ObjectPool.activate p1 = Ok (Null, p1)).
Proof.
  split; [|split; [|split]].
  - intros p i u Hfirst Hload.
    destruct (ObjectPool.pool_ p) as [a|] eqn:Hp; [|discriminate].
    rewrite load_get in Hload.
    destruct (get a i) as [w|] eqn:Hw; [|discriminate].
    injection Hload as ->.
    pose proof (get_Some_range _ _ _ Hw) as Hr.
    eexists. split; [|split; [|split; [|split; [|split]]]].
    + unfold ObjectPool.activate. rewrite Hfirst, Hp, store_get, Hw.
      cbn [bind]. rewrite load_get, (get_upd_eq _ _ _ _ Hw). cbn [bind].
      reflexivity.
    + reflexivity.
    + unfold ObjectPool.active. cbn [ObjectPool.pool_].
      rewrite load_get, (get_upd_eq _ _ _ _ Hw). reflexivity.
    + intros j Hj. cbn [ObjectPool.pool_].
      rewrite !load_get, get_upd_ne by lia. reflexivity.
    + reflexivity.
    + reflexivity.
  - intros p h p' Hrun. unfold ObjectPool.activate in Hrun.
    destruct (ObjectPool.first_available_ p) as [|i].
    + injection Hrun as <- <-. split; [tauto|reflexivity].
    + destruct (store (ObjectPool.pool_ p) i (ObjectPool.set_active true))
        as [a1|]; [|discriminate].
      cbn [bind] in Hrun. destruct (load a1 i); [|discriminate].
      injection Hrun as <- _. split; [split|]; discriminate.
  - intros p Hreach.
    destruct (op_reachable_inv _ Hreach) as (a & fl & Hinv).
    pose proof (op_inv_count _ _ _ Hinv) as Hcount.
    pose proof (op_inv_free_list _ _ _ Hinv) as Hfl.
    unfold ObjectPool.activeCount, ObjectPool.capacity.
    destruct fl as [|i fl].
    + exists Null, p. split; [exact (op_activate_nil _ _ Hinv)|].
      split; [|congruence]. cbn [length] in Hcount. split; [lia|reflexivity].
    + destruct (op_activate_cons _ _ _ _ Hinv) as (u & _ & Hact & Hinv').
      eexists _, _. split; [exact Hact|]. cbn [length] in Hcount.
      split; [split; [discriminate|lia]|].
      intros _. split; [reflexivity|]. exists i, fl.
      split; [reflexivity|]. split; [assumption|].
      exact (op_inv_free_list _ _ _ Hinv').
  - intros dflt n Hn.
    destruct (op_construct_spec dflt n Hn) as (p0 & a0 & Hc & Hinv & Hcap & _).
    destruct (op_run_activate_all _ _ _ _ Hinv) as (p1 & a1 & Hrun & Hinv1 & Hcap1).
    rewrite length_seqZ in Hrun.
    exists p0, p1. unfold ObjectPool.activeCount, ObjectPool.capacity.
    split; [assumption|].
    split; [rewrite (op_inv_count _ _ _ Hinv), length_seqZ; lia|].
    split; [assumption|]. split; [assumption|].
    split; [|split].
    + apply NoDup_fmap_2; [intros x y [= ->]; reflexivity|apply NoDup_seqZ].
    + rewrite (op_inv_count _ _ _ Hinv1). cbn [length]. lia.
    + exact (op_activate_nil _ _ Hinv1).
Qed.

Lemma op_activate_spec_witness :
  (exists p',
     ObjectPool.activate op_two_of_three = Ok (At 2, p') /\
     ObjectPool.first_available_ p' = Null /\
     ObjectPool.active 2 p' = Ok true /\
     ObjectPool.activeCount p' = 3) /\
  (exists p0 p1,
     ObjectPool.construct tt 3 = Ok p0 /\
     op_run [Activate; Activate; Activate] p0
       = Ok ([At 0; At 1; At 2], p1) /\
     ObjectPool.activate p1 = Ok (Null, p1)).
Proof.
  pose proof (op_activate_spec unit) as (Hstep & _ & _ & Hfresh).
  split.
  - destruct (Hstep op_two_of_three 2
                {| ObjectPool.active_ := false; ObjectPool.next_ := Null;
                   ObjectPool.object_ := tt |} eq_refl eq_refl)
      as (p' & Hact & Hfirst & Hactive & _ & Hcount & _).
    exists p'. repeat split; assumption.
  - destruct (Hfresh tt 3 ltac:(unfold size_t_modulus; lia))
      as (p0 & p1 & Hc & _ & _ & Hrun & _ & _ & Hnull).
    exists p0, p1. repeat split; assumption.
Defined.

(** ** The free list *)

(** Every operation of the basic pool is defined on a reachable state. *)
Lemma op_steps_defined (T : Type) (p : ObjectPool.pool T) :
  op_reachable p ->
  defined (ObjectPool.activate p) /\ defined (ObjectPool.clear p) /\
  forall index, 0 <= index -> defined (ObjectPool.deactivate index p).
Proof.
  intros Hreach. destruct (op_reachable_inv _ Hreach) as (a & fl & Hinv).
  pose proof (op_inv_pool _ _ _ Hinv) as Hp.
  pose proof (op_inv_len _ _ _ Hinv) as Hlen.
  split; [|split].
  - destruct fl as [|i fl].
    + eexists. exact (op_activate_nil _ _ Hinv).
    + destruct (op_activate_cons _ _ _ _ Hinv) as (u & _ & Hact & _).
      eexists. exact Hact.
  - destruct (op_clear_spec p a Hp Hlen (op_inv_cap _ _ _ Hinv))
      as (p' & _ & Hrun & _).
    eexists. exact Hrun.
  - intros index Hi. unfold ObjectPool.deactivate.
    destruct (Z.ltb_spec index (ObjectPool.capacity_ p)) as [Hlt|Hge];
      [|eexists; reflexivity].
    destruct (get_in_range a index) as [u Hu]; [lia|].
    rewrite Hp, store_get, Hu. cbn [bind].
    rewrite store_get, (get_upd_eq _ _ _ _ Hu). cbn [bind].
    eexists. reflexivity.
Qed.

(** C7.  In every state reached from the constructor by [activate],
    [clear] and [deactivate] of active units (for the indexed pool: by
    such steps that are defined; for the basic pool every step is, see
    [op_steps_defined]), the free list holds exactly
    [capacity - active_count] units, no unit twice, and they are exactly
    the units marked inactive; so [activeCount() == capacity() - |free
    list|], a number between 0 and the capacity. *)
Theorem free_list_cardinality (T : Type) :
  (forall p : ObjectPool.pool T, op_reachable p ->
     exists fl,
       op_free_list p = Some fl /\ NoDup fl /\
       Z.of_nat (length fl)
         = ObjectPool.capacity p - ObjectPool.activeCount p /\
       (forall i, i ∈ fl <-> ObjectPool.active i p = Ok false) /\
       ObjectPool.activeCount p
         = ObjectPool.capacity p - Z.of_nat (length fl) /\
       0 <= ObjectPool.activeCount p <= ObjectPool.capacity p) /\
  (forall p : IndexedObjectPool.pool T, ip_reachable p ->
     exists fl,
       ip_free_list p = Some fl /\ NoDup fl /\
       Z.of_nat (length fl)
         = IndexedObjectPool.capacity p - IndexedObjectPool.activeCount p /\
       (forall i, i ∈ fl <-> IndexedObjectPool.active i p = Ok false) /\
       IndexedObjectPool.activeCount p
         = IndexedObjectPool.capacity p - Z.of_nat (length fl) /\
       0 <= IndexedObjectPool.activeCount p <= IndexedObjectPool.capacity p).
Proof.
  split.
  - intros p Hreach.
    destruct (op_reachable_inv _ Hreach) as (a & fl & Hinv).
    pose proof (op_inv_length _ _ _ Hinv) as Hlen.
    pose proof (op_inv_count _ _ _ Hinv) as Hcount.
    pose proof (op_inv_pool _ _ _ Hinv) as Hp.
    unfold ObjectPool.capacity, ObjectPool.activeCount.
    exists fl. split; [exact (op_inv_free_list _ _ _ Hinv)|].
    split; [exact (op_inv_nodup _ _ _ Hinv)|].
    split; [lia|]. split; [|split; lia].
    intros i. rewrite (op_active_get _ _ _ _ Hp). split.
    + intros Hi.
      destruct (get_in_range a i) as [u Hu].
      { exact (chain_in_range _ _ _ _ _ (op_inv_chain _ _ _ Hinv) Hi). }
      exists u. split; [assumption|].
      now apply (op_inv_free _ _ _ Hinv _ _ Hu).
    + intros (u & Hu & Hact). now apply (op_inv_free _ _ _ Hinv _ _ Hu).
  - intros p Hreach.
    destruct (ip_reachable_inv _ Hreach) as (a & fl & Hinv).
    pose proof (ip_inv_length _ _ _ Hinv) as Hlen.
    pose proof (ip_inv_count _ _ _ Hinv) as Hcount.
    pose proof (ip_inv_pool _ _ _ Hinv) as Hp.
    unfold IndexedObjectPool.capacity, IndexedObjectPool.activeCount.
    exists fl. split; [exact (ip_inv_free_list _ _ _ Hinv)|].
    split; [exact (ip_inv_nodup _ _ _ Hinv)|].
    split; [lia|]. split; [|split; lia].
    intros i. rewrite (ip_active_get _ _ _ _ Hp). split.
    + intros Hi.
      destruct (get_in_range a i) as [u Hu].
      { exact (chain_in_range _ _ _ _ _ (ip_inv_chain _ _ _ Hinv) Hi). }
      exists u. split; [assumption|].
      now apply (ip_inv_free _ _ _ Hinv _ _ Hu).
    + intros (u & Hu & Hact). now apply (ip_inv_free _ _ _ Hinv _ _ Hu).
Qed.

Lemma free_list_cardinality_witness :
  (op_reachable op_two_of_three /\
   exists fl,
     op_free_list op_two_of_three = Some fl /\ NoDup fl /\
     Z.of_nat (length fl) = 3 - 2) /\
  (ip_reachable ip_three_of_three /\
   exists fl,
     ip_free_list ip_three_of_three = Some fl /\ NoDup fl /\
     Z.of_nat (length fl) = 3 - 3).
Proof.
  pose proof (free_list_cardinality unit) as [Hop Hip].
  split.
  - split; [exact op_two_of_three_reachable|].
    destruct (Hop op_two_of_three op_two_of_three_reachable)
      as (fl & Hfl & Hnd & Hlen & _).
    exists fl. repeat split; assumption.
  - split; [exact ip_three_of_three_reachable|].
    destruct (Hip ip_three_of_three ip_three_of_three_reachable)
      as (fl & Hfl & Hnd & Hlen & _).
    exists fl. repeat split; assumption.
Defined.

(** ** Reuse order of the basic pool *)

(** C8.  On a pool that has its array, [deactivate(i)] of an active unit
    [i] makes [i] the head of the free list, in front of the former head,
    and the next [activate()] returns the handle of unit [i]. *)
Theorem op_lifo_reuse (T : Type) (p : ObjectPool.pool T) (i : Z) :
  op_storage_ok p -> ObjectPool.active i p = Ok true ->
  exists p' u p'',
    ObjectPool.deactivate i p = Ok p' /\
    ObjectPool.first_available_ p' = At i /\
    load (ObjectPool.pool_ p') i = Ok u /\
    ObjectPool.active_ u = false /\
    ObjectPool.next_ u = ObjectPool.first_available_ p /\
    ObjectPool.activate p' = Ok (At i, p'') /\
    ObjectPool.active i p'' = Ok true /\
    ObjectPool.first_available_ p'' = ObjectPool.first_available_ p.
Proof.
  intros (a & Hp & Hlen & Hcap) Hact.
  apply (op_active_get _ _ _ _ Hp) in Hact as (u & Hu & Hact).
  pose proof (get_Some_range _ _ _ Hu) as Hr.
  set (u1 := ObjectPool.set_active false u).
  set (u2 := ObjectPool.set_next (ObjectPool.first_available_ p) u1).
  set (a1 := upd a i u1). set (a2 := upd a1 i u2).
  assert (get a1 i = Some u1) as Hu1 by (eapply get_upd_eq; eauto).
  assert (get a2 i = Some u2) as Hu2 by (eapply get_upd_eq; eauto).
  assert (get (upd a2 i (ObjectPool.set_active true u2)) i
          = Some (ObjectPool.set_active true u2)) as Hu3
    by (eapply get_upd_eq; eauto).
  eexists _, u2, _. split; [|split; [|split; [|split; [|split; [|split]]]]].
  - unfold ObjectPool.deactivate.
    replace (i <? ObjectPool.capacity_ p) with true by zcases.
    rewrite Hp, store_get, Hu. cbn [bind]. fold u1. fold a1.
    rewrite store_get, Hu1. cbn [bind]. fold u2. fold a2. reflexivity.
  - reflexivity.
  - cbn [ObjectPool.pool_]. rewrite load_get, Hu2. reflexivity.
  - reflexivity.
  - reflexivity.
  - unfold ObjectPool.activate.
    cbn [ObjectPool.first_available_ ObjectPool.pool_].
    rewrite store_get, Hu2. cbn [bind]. rewrite load_get, Hu3. cbn [bind].
    reflexivity.
  - split; [|reflexivity]. unfold ObjectPool.active. cbn [ObjectPool.pool_].
    rewrite load_get, Hu3. reflexivity.
Qed.

Lemma op_lifo_reuse_witness :
  op_storage_ok op_two_of_three /\
  ObjectPool.active 0 op_two_of_three = Ok true /\
  exists p' p'',
    ObjectPool.deactivate 0 op_two_of_three = Ok p' /\
    ObjectPool.first_available_ p' = At 0 /\
    ObjectPool.activate p' = Ok (At 0, p'').
Proof.
  assert (op_storage_ok op_two_of_three) as Hok.
  { eexists. split; [reflexivity|]. split; [reflexivity|].
    unfold size_t_modulus. simpl. lia. }
  split; [exact Hok|]. split; [reflexivity|].
  destruct (op_lifo_reuse unit op_two_of_three 0 Hok eq_refl)
    as (p' & u & p'' & Hde & Hfirst & _ & _ & _ & Hact & _).
  exists p', p''. repeat split; assumption.
Defined.

(** ** [clear] *)

(** Reachable pools have their array. *)
Lemma op_reachable_storage_ok (T : Type) (p : ObjectPool.pool T) :
  op_reachable p -> op_storage_ok p.
Proof.
  intros Hreach. destruct (op_reachable_inv _ Hreach) as (a & fl & Hinv).
  exists a. split; [exact (op_inv_pool _ _ _ Hinv)|].
  split; [exact (op_inv_len _ _ _ Hinv)|exact (op_inv_cap _ _ _ Hinv)].
Qed.

Lemma ip_reachable_storage_ok (T : Type) (p : IndexedObjectPool.pool T) :
  ip_reachable p -> ip_storage_ok p.
Proof.
  intros Hreach. destruct (ip_reachable_inv _ Hreach) as (a & fl & Hinv).
  exists a. split; [exact (ip_inv_pool _ _ _ Hinv)|].
  split; [exact (ip_inv_len _ _ _ Hinv)|exact (ip_inv_cap _ _ _ Hinv)].
Qed.

(** C9.  On every pool of either variant that has its array (every
    reachable pool does), whatever its units and links were, [clear] is
    defined, sets [active_count_] to 0, marks every unit inactive, links
    unit [i] to unit [i + 1] and the last unit to [nullptr] with the head
    at unit 0, so that the free list reads 0, 1, ..., capacity-1; it keeps
    the capacity, the array with its number of units, and the stored
    objects.  The indexed pool also gets [highest_active_index_ = 0]. *)
Theorem clear_rebuilds_free_list (T : Type) :
  (forall p : ObjectPool.pool T, op_storage_ok p ->
     exists p',
       ObjectPool.clear p = Ok p' /\
       ObjectPool.activeCount p' = 0 /\
       ObjectPool.capacity p' = ObjectPool.capacity p /\
       units (ObjectPool.pool_ p') = units (ObjectPool.pool_ p) /\
       ObjectPool.first_available_ p' = At 0 /\
       op_free_list p' = Some (seqZ 0 (ObjectPool.capacity p)) /\
       forall i, 0 <= i < ObjectPool.capacity p ->
         exists u,
           load (ObjectPool.pool_ p) i = Ok u /\
           load (ObjectPool.pool_ p') i =
             Ok {| ObjectPool.active_ := false;
                   ObjectPool.next_ :=
                     if i =? ObjectPool.capacity p - 1 then Null
                     else At (i + 1);
                   ObjectPool.object_ := ObjectPool.object_ u |}) /\
  (forall p : IndexedObjectPool.pool T, ip_storage_ok p ->
     exists p',
       IndexedObjectPool.clear p = Ok p' /\
       IndexedObjectPool.activeCount p' = 0 /\
       IndexedObjectPool.highestActiveIndex p' = 0 /\
       IndexedObjectPool.capacity p' = IndexedObjectPool.capacity p /\
       units (IndexedObjectPool.pool_ p')
         = units (IndexedObjectPool.pool_ p) /\
       IndexedObjectPool.first_available_ p' = At 0 /\
       ip_free_list p' = Some (seqZ 0 (IndexedObjectPool.capacity p)) /\
       forall i, 0 <= i < IndexedObjectPool.capacity p ->
         exists u,
           load (IndexedObjectPool.pool_ p) i = Ok u /\
           load (IndexedObjectPool.pool_ p') i =
             Ok {| IndexedObjectPool.active_ := false;
                   IndexedObjectPool.index_ := i;
                   IndexedObjectPool.next_ :=
                     if i =? IndexedObjectPool.capacity p - 1 then Null
                     else At (i + 1);
                   IndexedObjectPool.object_ :=
                     IndexedObjectPool.object_ u |}).
Proof.
  split.
  - intros p (a & Hp & Hlen & Hcap).
    destruct (op_clear_spec p a Hp Hlen Hcap)
      as (p' & a' & Hrun & Hinv & Hc & Hget).
    pose proof (op_inv_pool _ _ _ Hinv) as Hp'.
    pose proof (op_inv_len _ _ _ Hinv) as Hlen'.
    exists p'. unfold ObjectPool.activeCount, ObjectPool.capacity.
    split; [assumption|].
    split; [rewrite (op_inv_count _ _ _ Hinv), length_seqZ; lia|].
    split; [assumption|].
    split; [rewrite Hp, Hp'; unfold units; lia|].
    split.
    { pose proof (op_inv_chain _ _ _ Hinv) as Hch.
      rewrite seqZ_cons in Hch by lia. exact (proj1 Hch). }
    split; [exact (op_inv_free_list _ _ _ Hinv)|].
    intros i Hi. destruct (get_in_range a i) as [u Hu]; [lia|].
    exists u. rewrite Hp, Hp', !load_get, Hget, Hu.
    split; reflexivity.
  - intros p (a & Hp & Hlen & Hcap).
    destruct (ip_clear_spec p a Hp Hlen Hcap)
      as (p' & a' & Hrun & Hinv & Hc & Hget).
    pose proof (ip_inv_pool _ _ _ Hinv) as Hp'.
    pose proof (ip_inv_len _ _ _ Hinv) as Hlen'.
    assert (IndexedObjectPool.highest_active_index_ p' = 0) as Hh.
    { unfold IndexedObjectPool.clear in Hrun.
      destruct (IndexedObjectPool.clear_loop _ _ _); [|discriminate].
      cbn [bind] in Hrun. destruct (store _ _ _); [|discriminate].
      injection Hrun as <-. reflexivity. }
    exists p'. unfold IndexedObjectPool.activeCount,
      IndexedObjectPool.capacity, IndexedObjectPool.highestActiveIndex.
    split; [assumption|].
    split; [rewrite (ip_inv_count _ _ _ Hinv), length_seqZ; lia|].
    split; [assumption|]. split; [assumption|].
    split; [rewrite Hp, Hp'; unfold units; lia|].
    split.
    { pose proof (ip_inv_chain _ _ _ Hinv) as Hch.
      rewrite seqZ_cons in Hch by lia. exact (proj1 Hch). }
    split; [exact (ip_inv_free_list _ _ _ Hinv)|].
    intros i Hi. destruct (get_in_range a i) as [u Hu]; [lia|].
    exists u. rewrite Hp, Hp', !load_get, Hget, Hu.
    split; reflexivity.
Qed.

Lemma clear_rebuilds_free_list_witness :
  (op_storage_ok op_two_of_three /\
   exists p',
     ObjectPool.clear op_two_of_three = Ok p' /\
     ObjectPool.activeCount p' = 0 /\
     op_free_list p' = Some [0; 1; 2]) /\
  (ip_storage_ok ip_three_of_three /\
   exists p',
     IndexedObjectPool.clear ip_three_of_three = Ok p' /\
     IndexedObjectPool.activeCount p' = 0 /\
     ip_free_list p' = Some [0; 1; 2]).
Proof.
  pose proof (clear_rebuilds_free_list unit) as [Hop Hip].
  pose proof (op_reachable_storage_ok _ _ op_two_of_three_reachable) as Hok.
  pose proof (ip_reachable_storage_ok _ _ ip_three_of_three_reachable) as Hok'.
  split.
  - split; [exact Hok|].
    destruct (Hop op_two_of_three Hok) as (p' & Hrun & Hcount & _ & _ & _ & Hfl & _).
    exists p'. repeat split; assumption.
  - split; [exact Hok'|].
    destruct (Hip ip_three_of_three Hok')
      as (p' & Hrun & Hcount & _ & _ & _ & _ & Hfl & _).
    exists p'. repeat split; assumption.
Defined.

(** ** [deactivate] does not look at the flag *)

(** The full indexed pool of capacity 3: [deactivate(1)] finds
    [first_available_ == nullptr] below the link that unit 1 still
    carries, and reads through it. *)
Lemma ip_deactivate_in_range_undefined :
  1 < IndexedObjectPool.capacity ip_three_of_three /\
  IndexedObjectPool.active 1 ip_three_of_three = Ok true /\
  IndexedObjectPool.deactivate 1 ip_three_of_three = Undefined NullDeref.
Proof. split; [simpl; lia|]. evaluate. Qed.

(** C10 (the code at the failing input).  [deactivate(index)] only tests
    [index < capacity_], never the flag.  In the basic pool every in-range
    unit, active or not, is marked inactive, linked in front of the head,
    and [active_count_] is decremented modulo 2^64.  In the indexed pool a
    call that returns has marked the unit inactive, decremented
    [active_count_] modulo 2^64 and linked the unit: in front of the head,
    the unit pointing to the old head, or right behind it, the head
    pointing to the unit and the unit to what the head pointed to, every
    other unit untouched.  But the indexed call does not return for every
    in-range index: with the free list empty and a stale link left in the
    unit it reads [first_available_->next_] through [nullptr], as on the
    full pool of capacity 3 at index 1.  Giving a unit back twice links it
    to itself, so that the free list never ends, and takes [active_count_]
    below the number of units handed out, wrapping from 0 to 2^64 - 1. *)
Theorem deactivate_unchecked (T : Type) (dflt : T) :
  (forall (p : ObjectPool.pool T) index u,
     load (ObjectPool.pool_ p) index = Ok u ->
     index < ObjectPool.capacity p ->
     exists p',
       ObjectPool.deactivate index p = Ok p' /\
       ObjectPool.first_available_ p' = At index /\
       load (ObjectPool.pool_ p') index =
         Ok {| ObjectPool.active_ := false;
               ObjectPool.next_ := ObjectPool.first_available_ p;
               ObjectPool.object_ := ObjectPool.object_ u |} /\
       ObjectPool.activeCount p' = wrap (ObjectPool.activeCount p - 1)) /\
  (forall (p : IndexedObjectPool.pool T) index u p',
     load (IndexedObjectPool.pool_ p) index = Ok u ->
     index < IndexedObjectPool.capacity p ->
     IndexedObjectPool.deactivate index p = Ok p' ->
     IndexedObjectPool.active index p' = Ok false /\
     IndexedObjectPool.activeCount p'
       = wrap (IndexedObjectPool.activeCount p - 1) /\
     ((ptr_lt (IndexedObjectPool.first_available_ p)
              (IndexedObjectPool.next_ u) = false /\
       IndexedObjectPool.first_available_ p' = At index /\
       load (IndexedObjectPool.pool_ p') index =
         Ok {| IndexedObjectPool.active_ := false;
               IndexedObjectPool.index_ := IndexedObjectPool.index_ u;
               IndexedObjectPool.next_ :=
                 IndexedObjectPool.first_available_ p;
               IndexedObjectPool.object_ := IndexedObjectPool.object_ u |} /\
       forall j, j <> index ->
         load (IndexedObjectPool.pool_ p') j
         = load (IndexedObjectPool.pool_ p) j) \/
      (exists h uh,
         ptr_lt (IndexedObjectPool.first_available_ p)
                (IndexedObjectPool.next_ u) = true /\
         IndexedObjectPool.first_available_ p = At h /\
         IndexedObjectPool.first_available_ p' = At h /\
         load (IndexedObjectPool.pool_ p) h = Ok uh /\
         load (IndexedObjectPool.pool_ p') index =
           Ok {| IndexedObjectPool.active_ := false;
                 IndexedObjectPool.index_ := IndexedObjectPool.index_ u;
                 IndexedObjectPool.next_ := IndexedObjectPool.next_ uh;
                 IndexedObjectPool.object_ :=
                   IndexedObjectPool.object_ u |} /\
         (h <> index ->
          load (IndexedObjectPool.pool_ p') h
          = Ok (IndexedObjectPool.set_next (At index) uh)) /\
         forall j, j <> index -> j <> h ->
           load (IndexedObjectPool.pool_ p') j
           = load (IndexedObjectPool.pool_ p) j))) /\
  (forall (p : IndexedObjectPool.pool T) index u,
     load (IndexedObjectPool.pool_ p) index = Ok u ->
     index < IndexedObjectPool.capacity p ->
     IndexedObjectPool.first_available_ p = Null ->
     IndexedObjectPool.next_ u <> Null ->
     IndexedObjectPool.deactivate index p = Undefined NullDeref) /\
  (exists p,
     ip_session dflt 3 [Activate; Activate; Activate]
       = Ok ([At 0; At 1; At 2], p) /\
     1 < IndexedObjectPool.capacity p /\
     IndexedObjectPool.active 1 p = Ok true /\
     IndexedObjectPool.deactivate 1 p = Undefined NullDeref) /\
  wrap (0 - 1) = 2 ^ 64 - 1 /\
  (exists p,
     op_session dflt 2 double_free_calls = Ok ([At 0], p) /\
     ObjectPool.first_available_ p = At 0 /\
     load (ObjectPool.pool_ p) 0 =
       Ok {| ObjectPool.active_ := false; ObjectPool.next_ := At 0;
             ObjectPool.object_ := dflt |} /\
     op_free_list p = None /\
     ObjectPool.activeCount p = 2 ^ 64 - 1) /\
  (exists p,
     ip_session dflt 3 indexed_double_free_calls
       = Ok ([At 0; At 1; At 2], p) /\
     IndexedObjectPool.first_available_ p = At 2 /\
     load (IndexedObjectPool.pool_ p) 2 =
       Ok {| IndexedObjectPool.active_ := false;
             IndexedObjectPool.index_ := 2;
             IndexedObjectPool.next_ := At 2;
             IndexedObjectPool.object_ := dflt |} /\
     ip_free_list p = None /\
     IndexedObjectPool.active 0 p = Ok true /\
     IndexedObjectPool.active 1 p = Ok true /\
     IndexedObjectPool.activeCount p = 1).
Proof.
  split; [|split; [|split; [|split; [|split; [|split]]]]].
  - intros p index u Hload Hi.
    destruct (ObjectPool.pool_ p) as [a|] eqn:Hp; [|discriminate].
    rewrite load_get in Hload.
    destruct (get a index) as [w|] eqn:Hw; [|discriminate].
    injection Hload as ->.
    assert (get (upd a index (ObjectPool.set_active false u)) index
            = Some (ObjectPool.set_active false u)) as H1
      by (eapply get_upd_eq; eauto).
    eexists. split; [|split; [|split]].
    + unfold ObjectPool.deactivate, ObjectPool.capacity in *.
      replace (index <? ObjectPool.capacity_ p) with true by zcases.
      rewrite Hp, store_get, Hw. cbn [bind].
      rewrite store_get, H1. cbn [bind]. reflexivity.
    + reflexivity.
    + cbn [ObjectPool.pool_]. rewrite load_get.
      erewrite get_upd_eq by eassumption. reflexivity.
    + reflexivity.
  - intros p index u p' Hload Hi Hrun.
    unfold IndexedObjectPool.deactivate, IndexedObjectPool.capacity in *.
    replace (index <? IndexedObjectPool.capacity_ p) with true in Hrun
      by zcases.
    destruct (IndexedObjectPool.pool_ p) as [a|] eqn:Hp; [|discriminate].
    rewrite load_get in Hload.
    destruct (get a index) as [u0|] eqn:Hu; [|discriminate].
    injection Hload as ->.
    rewrite store_get, Hu in Hrun. cbn [bind] in Hrun.
    set (u1 := IndexedObjectPool.set_active false u) in *.
    set (a1 := upd a index u1) in *.
    assert (get a1 index = Some u1) as Hu1 by (eapply get_upd_eq; eauto).
    assert (forall j, j <> index -> load (Some a1) j = load (Some a) j)
      as Hframe1.
    { intros j Hj. unfold a1. rewrite (load_upd _ _ _ _ _ Hu).
      now zcases. }
    destruct (IndexedObjectPool.link_free _ _ _) as [[first' pl3]|] eqn:Hlink;
      [|discriminate].
    cbn [bind fst snd] in Hrun.
    match type of Hrun with
    | bind ?m _ = _ => destruct m as [hv|]; [|discriminate]
    end.
    cbn [bind] in Hrun. injection Hrun as <-.
    unfold IndexedObjectPool.active, IndexedObjectPool.activeCount.
    cbn [IndexedObjectPool.pool_ IndexedObjectPool.first_available_
         IndexedObjectPool.active_count_].
    unfold IndexedObjectPool.link_free in Hlink.
    rewrite load_get, Hu1 in Hlink. cbn [bind] in Hlink.
    change (IndexedObjectPool.next_ u1) with (IndexedObjectPool.next_ u)
      in Hlink.
    destruct (ptr_lt _ _) eqn:Hlt.
    + destruct (IndexedObjectPool.first_available_ p) as [|h] eqn:Hfirst;
        [discriminate|].
      cbn [deref store_at] in Hlink. rewrite load_get in Hlink.
      destruct (get a1 h) as [uh1|] eqn:Huh1; [|discriminate].
      cbn [bind] in Hlink. rewrite store_get, Huh1 in Hlink.
      cbn [bind] in Hlink. rewrite store_get in Hlink.
      set (a2 := upd a1 h (IndexedObjectPool.set_next (At index) uh1)) in *.
      assert (exists uh,
                load (Some a) h = Ok uh /\
                IndexedObjectPool.next_ uh1 = IndexedObjectPool.next_ uh /\
                (h <> index -> uh1 = uh)) as (uh & Huh & Hnx & Hsame).
      { destruct (Z.eq_dec h index) as [->|Hne].
        - rewrite Hu1 in Huh1. injection Huh1 as <-.
          exists u. rewrite load_get, Hu. repeat split. congruence.
        - exists uh1. rewrite <- (Hframe1 h Hne), load_get, Huh1.
          repeat split. }
      assert (exists v, get a2 index = Some v /\
                IndexedObjectPool.set_next (IndexedObjectPool.next_ uh1) v
                = {| IndexedObjectPool.active_ := false;
                     IndexedObjectPool.index_ := IndexedObjectPool.index_ u;
                     IndexedObjectPool.next_ := IndexedObjectPool.next_ uh;
                     IndexedObjectPool.object_ :=
                       IndexedObjectPool.object_ u |})
        as (v & Hv & Hvv).
      { destruct (Z.eq_dec h index) as [->|Hne].
        - rewrite Hu1 in Huh1. injection Huh1 as <-.
          eexists. split; [eapply get_upd_eq; eauto|].
          rewrite <- Hnx. reflexivity.
        - pose proof (get_Some_range _ _ _ Huh1).
          exists u1. unfold a2. rewrite get_upd_ne by lia.
          split; [exact Hu1|]. rewrite <- Hnx. reflexivity. }
      rewrite Hv in Hlink. cbn [bind] in Hlink.
      injection Hlink as <- <-.
      split; [|split; [reflexivity|right]].
      * rewrite (load_upd _ _ _ _ _ Hv), Z.eqb_refl. cbn [bind].
        rewrite Hvv. reflexivity.
      * exists h, uh. split; [reflexivity|]. split; [reflexivity|].
        split; [reflexivity|]. split; [exact Huh|]. split; [|split].
        -- rewrite (load_upd _ _ _ _ _ Hv), Z.eqb_refl, Hvv. reflexivity.
        -- intros Hne. rewrite (load_upd _ _ _ _ _ Hv).
           replace (h =? index) with false by zcases.
           unfold a2. rewrite (load_upd _ _ _ _ _ Huh1), Z.eqb_refl.
           now rewrite (Hsame Hne).
        -- intros j Hj Hjh. rewrite (load_upd _ _ _ _ _ Hv).
           replace (j =? index) with false by zcases.
           unfold a2. rewrite (load_upd _ _ _ _ _ Huh1).
           replace (j =? h) with false by zcases.
           exact (Hframe1 j Hj).
    + rewrite store_get, Hu1 in Hlink. cbn [bind] in Hlink.
      injection Hlink as <- <-.
      split; [|split; [reflexivity|left]].
      * rewrite (load_upd _ _ _ _ _ Hu1), Z.eqb_refl. reflexivity.
      * split; [reflexivity|]. split; [reflexivity|]. split.
        -- rewrite (load_upd _ _ _ _ _ Hu1), Z.eqb_refl. reflexivity.
        -- intros j Hj. rewrite (load_upd _ _ _ _ _ Hu1).
           replace (j =? index) with false by zcases.
           exact (Hframe1 j Hj).
  - intros p index u Hload Hi Hfirst Hnext.
    destruct (IndexedObjectPool.pool_ p) as [a|] eqn:Hp; [|discriminate].
    rewrite load_get in Hload.
    destruct (get a index) as [u0|] eqn:Hu; [|discriminate].
    injection Hload as ->.
    exact (ip_deactivate_null_head p a index u Hp Hu Hi Hfirst Hnext).
  - eexists. split; [cbv; reflexivity|].
    split; [cbn; lia|]. evaluate.
  - reflexivity.
  - eexists. split; [cbv; reflexivity|]. evaluate.
  - eexists. split; [cbv; reflexivity|]. evaluate.
Qed.

Lemma deactivate_unchecked_witness :
  (load (ObjectPool.pool_ op_two_of_three) 2 =
     Ok {| ObjectPool.active_ := false; ObjectPool.next_ := Null;
           ObjectPool.object_ := tt |} /\
   2 < ObjectPool.capacity op_two_of_three /\
   exists p',
     ObjectPool.deactivate 2 op_two_of_three = Ok p' /\
     ObjectPool.first_available_ p' = At 2 /\
     load (ObjectPool.pool_ p') 2 =
       Ok {| ObjectPool.active_ := false; ObjectPool.next_ := At 2;
             ObjectPool.object_ := tt |} /\
     ObjectPool.activeCount p' = 1) /\
  (2 < IndexedObjectPool.capacity ip_three_of_three /\
   exists p',
     IndexedObjectPool.deactivate 2 ip_three_of_three = Ok p' /\
     IndexedObjectPool.active 2 p' = Ok false /\
     IndexedObjectPool.activeCount p' = 2) /\
  (1 < IndexedObjectPool.capacity ip_three_of_three /\
   IndexedObjectPool.first_available_ ip_three_of_three = Null /\
   IndexedObjectPool.deactivate 1 ip_three_of_three = Undefined NullDeref).
Proof.
  pose proof (deactivate_unchecked unit tt) as (Hop & Hip & Hnull & _).
  split; [|split].
  - split; [reflexivity|]. split; [simpl; lia|].
    destruct (Hop op_two_of_three 2 _ eq_refl ltac:(simpl; lia))
      as (p' & Hrun & Hfirst & Hload & Hcount).
    exists p'. repeat split; assumption.
  - split; [simpl; lia|].
    eexists. split; [vm_compute; reflexivity|].
    destruct (Hip ip_three_of_three 2 _ _ eq_refl ltac:(simpl; lia) eq_refl)
      as (Hact & Hcount & _).
    split; assumption.
  - split; [simpl; lia|]. split; [reflexivity|].
    apply (Hnull ip_three_of_three 1 _ eq_refl ltac:(simpl; lia) eq_refl).
    discriminate.
Defined.

(** * Further properties of the pools *)

(** ** The stored objects *)

Section BasicObjects.
Import ObjectPool.
Context {T : Type}.
Implicit Types (p : pool T) (pl : option (list (PoolUnit T))).

Local Abbreviation obj_at pl j := (bind (load pl j) (fun u => Ok (object_ u))).

Lemma op_clear_loop_frame n : forall i pl pl',
  clear_loop n i pl = Ok pl' ->
  (forall j, obj_at pl' j = obj_at pl j) /\ units pl' = units pl.
Proof.
  induction n as [|n IH]; intros i pl pl' Hrun.
  - injection Hrun as <-. auto.
  - cbn [clear_loop] in Hrun.
    destruct (store pl i (set_active false)) as [a1|] eqn:H1; [|discriminate].
    cbn [bind] in Hrun.
    destruct (store a1 i (set_next (At (i + 1)))) as [a2|] eqn:H2;
      [|discriminate].
    cbn [bind] in Hrun. destruct (IH _ _ _ Hrun) as [Hobj Hunits].
    split.
    + intros j. rewrite Hobj.
      rewrite (store_frame object_ _ _ _ _ H2 ltac:(reflexivity)).
      exact (store_frame object_ _ _ _ _ H1 ltac:(reflexivity) j).
    + rewrite Hunits, (proj1 (store_units _ _ _ _ H2)).
      exact (proj1 (store_units _ _ _ _ H1)).
Qed.

Lemma op_clear_frame p p' :
  clear p = Ok p' ->
  (forall j, subscript j p' = subscript j p) /\
  units (pool_ p') = units (pool_ p) /\ capacity_ p' = capacity_ p.
Proof.
  unfold clear, subscript. intros Hrun.
  destruct (clear_loop _ _ _) as [a1|] eqn:H1; [|discriminate].
  cbn [bind] in Hrun.
  destruct (store a1 _ _) as [a2|] eqn:H2; [|discriminate].
  injection Hrun as <-. cbn [pool_ capacity_].
  destruct (op_clear_loop_frame _ _ _ _ H1) as [Hobj Hunits].
  split; [|split; [|reflexivity]].
  - intros j. rewrite <- Hobj.
    exact (store_frame object_ _ _ _ _ H2 ltac:(reflexivity) j).
  - rewrite <- Hunits. exact (proj1 (store_units _ _ _ _ H2)).
Qed.

Lemma op_activate_frame p h p' :
  activate p = Ok (h, p') ->
  (forall j, subscript j p' = subscript j p) /\
  units (pool_ p') = units (pool_ p) /\ capacity_ p' = capacity_ p.
Proof.
  unfold activate, subscript. intros Hrun.
  destruct (first_available_ p) as [|i].
  - injection Hrun as _ <-. auto.
  - destruct (store (pool_ p) i (set_active true)) as [a1|] eqn:H1;
      [|discriminate].
    cbn [bind] in Hrun. destruct (load a1 i); [|discriminate].
    injection Hrun as _ <-. cbn [pool_ capacity_].
    split; [|split; [|reflexivity]].
    + exact (store_frame object_ _ _ _ _ H1 ltac:(reflexivity)).
    + exact (proj1 (store_units _ _ _ _ H1)).
Qed.

Lemma op_deactivate_frame index p p' :
  deactivate index p = Ok p' ->
  (forall j, subscript j p' = subscript j p) /\
  units (pool_ p') = units (pool_ p) /\ capacity_ p' = capacity_ p.
Proof.
  unfold deactivate, subscript. intros Hrun.
  destruct (index <? capacity_ p); [|injection Hrun as <-; auto].
  destruct (store (pool_ p) index (set_active false)) as [a1|] eqn:H1;
    [|discriminate].
  cbn [bind] in Hrun.
  destruct (store a1 index _) as [a2|] eqn:H2; [|discriminate].
  injection Hrun as <-. cbn [pool_ capacity_].
  split; [|split; [|reflexivity]].
  - intros j.
    rewrite (store_frame object_ _ _ _ _ H2 ltac:(reflexivity)).
    exact (store_frame object_ _ _ _ _ H1 ltac:(reflexivity) j).
  - rewrite (proj1 (store_units _ _ _ _ H2)).
    exact (proj1 (store_units _ _ _ _ H1)).
Qed.

Lemma op_call_frame c p r :
  op_call c p = Ok r ->
  (forall j, subscript j (snd r) = subscript j p) /\
  units (pool_ (snd r)) = units (pool_ p) /\
  capacity_ (snd r) = capacity_ p.
Proof.
  destruct c as [|index|]; cbn [op_call].
  - destruct (activate p) as [[h q]|] eqn:H; [|discriminate].
    intros [= <-]. exact (op_activate_frame _ _ _ H).
  - destruct (deactivate index p) as [q|] eqn:H; [|discriminate].
    intros [= <-]. exact (op_deactivate_frame _ _ _ H).
  - destruct (clear p) as [q|] eqn:H; [|discriminate].
    intros [= <-]. exact (op_clear_frame _ _ H).
Qed.

Lemma op_run_frame cs : forall p r,
  op_run cs p = Ok r ->
  (forall j, subscript j (snd r) = subscript j p) /\
  units (pool_ (snd r)) = units (pool_ p) /\
  capacity_ (snd r) = capacity_ p.
Proof.
  induction cs as [|c cs IH]; intros p r Hrun.
  - injection Hrun as <-. auto.
  - cbn [op_run] in Hrun.
    destruct (op_call c p) as [r1|] eqn:H1; [|discriminate].
    cbn [bind] in Hrun.
    destruct (op_run cs (snd r1)) as [r2|] eqn:H2; [|discriminate].
    injection Hrun as <-. cbn [snd].
    destruct (op_call_frame _ _ _ H1) as (Ho1 & Hu1 & Hc1).
    destruct (IH _ _ H2) as (Ho2 & Hu2 & Hc2).
    split; [|split; congruence].
    intros j. now rewrite Ho2, Ho1.
Qed.
End BasicObjects.

Section IndexedObjects.
Import IndexedObjectPool.
Context {T : Type}.
Implicit Types (p : pool T) (pl : option (list (IndexedPoolUnit T))).

Local Abbreviation obj_at pl j := (bind (load pl j) (fun u => Ok (object_ u))).

Lemma ip_clear_loop_frame n : forall i pl pl',
  clear_loop n i pl = Ok pl' ->
  (forall j, obj_at pl' j = obj_at pl j) /\ units pl' = units pl.
Proof.
  induction n as [|n IH]; intros i pl pl' Hrun.
  - injection Hrun as <-. auto.
  - cbn [clear_loop] in Hrun.
    destruct (store pl i (set_active false)) as [a1|] eqn:H1; [|discriminate].
    cbn [bind] in Hrun.
    destruct (store a1 i (set_index i)) as [a2|] eqn:H2; [|discriminate].
    cbn [bind] in Hrun.
    destruct (store a2 i (set_next (At (i + 1)))) as [a3|] eqn:H3;
      [|discriminate].
    cbn [bind] in Hrun. destruct (IH _ _ _ Hrun) as [Hobj Hunits].
    split.
    + intros j. rewrite Hobj.
      rewrite (store_frame object_ _ _ _ _ H3 ltac:(reflexivity)).
      rewrite (store_frame object_ _ _ _ _ H2 ltac:(reflexivity)).
      exact (store_frame object_ _ _ _ _ H1 ltac:(reflexivity) j).
    + rewrite Hunits, (proj1 (store_units _ _ _ _ H3)),
        (proj1 (store_units _ _ _ _ H2)).
      exact (proj1 (store_units _ _ _ _ H1)).
Qed.

Lemma ip_clear_frame p p' :
  clear p = Ok p' ->
  (forall j, subscript j p' = subscript j p) /\
  units (pool_ p') = units (pool_ p) /\ capacity_ p' = capacity_ p.
Proof.
  unfold clear, subscript. intros Hrun.
  destruct (clear_loop _ _ _) as [a1|] eqn:H1; [|discriminate].
  cbn [bind] in Hrun.
  destruct (store a1 _ _) as [a2|] eqn:H2; [|discriminate].
  injection Hrun as <-. cbn [pool_ capacity_].
  destruct (ip_clear_loop_frame _ _ _ _ H1) as [Hobj Hunits].
  split; [|split; [|reflexivity]].
  - intros j. rewrite <- Hobj.
    exact (store_frame object_ _ _ _ _ H2 ltac:(reflexivity) j).
  - rewrite <- Hunits. exact (proj1 (store_units _ _ _ _ H2)).
Qed.

Lemma ip_activate_frame p h p' :
  activate p = Ok (h, p') ->
  (forall j, subscript j p' = subscript j p) /\
  units (pool_ p') = units (pool_ p) /\ capacity_ p' = capacity_ p.
Proof.
  unfold activate, subscript. intros Hrun.
  destruct (first_available_ p) as [|i].
  - injection Hrun as _ <-. auto.
  - destruct (store (pool_ p) i (set_active true)) as [a1|] eqn:H1;
      [|discriminate].
    cbn [bind] in Hrun. destruct (load a1 i); [|discriminate].
    injection Hrun as _ <-. cbn [pool_ capacity_].
    split; [|split; [|reflexivity]].
    + exact (store_frame object_ _ _ _ _ H1 ltac:(reflexivity)).
    + exact (proj1 (store_units _ _ _ _ H1)).
Qed.

Lemma ip_link_free_frame first index pl r :
  link_free first index pl = Ok r ->
  (forall j, obj_at (snd r) j = obj_at pl j) /\ units (snd r) = units pl.
Proof.
  unfold link_free. intros Hrun.
  destruct (load pl index) as [u|]; [|discriminate]. cbn [bind] in Hrun.
  destruct (ptr_lt first (next_ u)).
  - destruct (deref pl first) as [h|]; [|discriminate]. cbn [bind] in Hrun.
    destruct first as [|k]; [discriminate|]. cbn [store_at] in Hrun.
    destruct (store pl k _) as [a1|] eqn:H1; [|discriminate].
    cbn [bind] in Hrun.
    destruct (store a1 index _) as [a2|] eqn:H2; [|discriminate].
    injection Hrun as <-. cbn [snd]. split.
    + intros j.
      rewrite (store_frame object_ _ _ _ _ H2 ltac:(reflexivity)).
      exact (store_frame object_ _ _ _ _ H1 ltac:(reflexivity) j).
    + rewrite (proj1 (store_units _ _ _ _ H2)).
      exact (proj1 (store_units _ _ _ _ H1)).
  - destruct (store pl index _) as [a1|] eqn:H1; [|discriminate].
    injection Hrun as <-. cbn [snd]. split.
    + exact (store_frame object_ _ _ _ _ H1 ltac:(reflexivity)).
    + exact (proj1 (store_units _ _ _ _ H1)).
Qed.

Lemma ip_deactivate_frame index p p' :
  deactivate index p = Ok p' ->
  (forall j, subscript j p' = subscript j p) /\
  units (pool_ p') = units (pool_ p) /\ capacity_ p' = capacity_ p.
Proof.
  unfold deactivate, subscript. intros Hrun.
  destruct (index <? capacity_ p); [|injection Hrun as <-; auto].
  destruct (store (pool_ p) index (set_active false)) as [a1|] eqn:H1;
    [|discriminate].
  cbn [bind] in Hrun.
  destruct (link_free _ _ _) as [fa|] eqn:H2; [|discriminate].
  cbn [bind] in Hrun.
  match type of Hrun with
  | bind ?m _ = _ => destruct m as [hv|]; [|discriminate]
  end.
  injection Hrun as <-. cbn [pool_ capacity_].
  destruct (ip_link_free_frame _ _ _ _ H2) as [Hobj Hunits].
  split; [|split; [|reflexivity]].
  - intros j. rewrite Hobj.
    exact (store_frame object_ _ _ _ _ H1 ltac:(reflexivity) j).
  - rewrite Hunits. exact (proj1 (store_units _ _ _ _ H1)).
Qed.

Lemma ip_call_frame c p r :
  ip_call c p = Ok r ->
  (forall j, subscript j (snd r) = subscript j p) /\
  units (pool_ (snd r)) = units (pool_ p) /\
  capacity_ (snd r) = capacity_ p.
Proof.
  destruct c as [|index|]; cbn [ip_call].
  - destruct (activate p) as [[h q]|] eqn:H; [|discriminate].
    intros [= <-]. exact (ip_activate_frame _ _ _ H).
  - destruct (deactivate index p) as [q|] eqn:H; [|discriminate].
    intros [= <-]. exact (ip_deactivate_frame _ _ _ H).
  - destruct (clear p) as [q|] eqn:H; [|discriminate].
    intros [= <-]. exact (ip_clear_frame _ _ H).
Qed.

Lemma ip_run_frame cs : forall p r,
  ip_run cs p = Ok r ->
  (forall j, subscript j (snd r) = subscript j p) /\
  units (pool_ (snd r)) = units (pool_ p) /\
  capacity_ (snd r) = capacity_ p.
Proof.
  induction cs as [|c cs IH]; intros p r Hrun.
  - injection Hrun as <-. auto.
  - cbn [ip_run] in Hrun.
    destruct (ip_call c p) as [r1|] eqn:H1; [|discriminate].
    cbn [bind] in Hrun.
    destruct (ip_run cs (snd r1)) as [r2|] eqn:H2; [|discriminate].
    injection Hrun as <-. cbn [snd].
    destruct (ip_call_frame _ _ _ H1) as (Ho1 & Hu1 & Hc1).
    destruct (IH _ _ H2) as (Ho2 & Hu2 & Hc2).
    split; [|split; congruence].
    intros j. now rewrite Ho2, Ho1.
Qed.
End IndexedObjects.

Section FreshState.
Context {T : Type}.

Lemma op_subscript_get (p q : ObjectPool.pool T) a b j :
  ObjectPool.pool_ p = Some a -> ObjectPool.pool_ q = Some b ->
  ObjectPool.subscript j p = ObjectPool.subscript j q ->
  ObjectPool.object_ <$> get a j = ObjectPool.object_ <$> get b j.
Proof.
  unfold ObjectPool.subscript. intros -> ->. rewrite !load_get.
  destruct (get a j), (get b j); simpl; congruence.
Qed.

Lemma ip_subscript_get (p q : IndexedObjectPool.pool T) a b j :
  IndexedObjectPool.pool_ p = Some a -> IndexedObjectPool.pool_ q = Some b ->
  IndexedObjectPool.subscript j p = IndexedObjectPool.subscript j q ->
  IndexedObjectPool.object_ <$> get a j
  = IndexedObjectPool.object_ <$> get b j.
Proof.
  unfold IndexedObjectPool.subscript. intros -> ->. rewrite !load_get.
  destruct (get a j), (get b j); simpl; congruence.
Qed.

(** Two pools that [clear] has just rebuilt over arrays holding the same
    objects are the same pool. *)
Lemma op_clear_same (p q : ObjectPool.pool T) a b p' q' :
  ObjectPool.pool_ p = Some a -> ObjectPool.pool_ q = Some b ->
  Z.of_nat (length a) = ObjectPool.capacity_ p ->
  Z.of_nat (length b) = ObjectPool.capacity_ q ->
  ObjectPool.capacity_ p = ObjectPool.capacity_ q ->
  0 < ObjectPool.capacity_ p < size_t_modulus ->
  (forall j, ObjectPool.subscript j p = ObjectPool.subscript j q) ->
  ObjectPool.clear p = Ok p' -> ObjectPool.clear q = Ok q' -> p' = q'.
Proof.
  intros Hp Hq Hla Hlb Hcap Hn Hobj Hcp Hcq.
  destruct (op_clear_spec p a Hp Hla Hn) as (p1 & a' & H1 & Hi1 & Hc1 & Hg1).
  destruct (op_clear_spec q b Hq Hlb ltac:(lia))
    as (q1 & b' & H2 & Hi2 & Hc2 & Hg2).
  rewrite Hcp in H1. injection H1 as <-.
  rewrite Hcq in H2. injection H2 as <-.
  assert (a' = b') as ->.
  { apply get_ext.
    - pose proof (op_inv_len _ _ _ Hi1). pose proof (op_inv_len _ _ _ Hi2).
      lia.
    - intros j. rewrite Hg1, Hg2, <- Hcap.
      pose proof (op_subscript_get _ _ _ _ j Hp Hq (Hobj j)) as Ho.
      destruct (get a j) as [u|], (get b j) as [v|]; try discriminate;
        [|reflexivity].
      simpl in *. injection Ho as Ho. unfold op_cleared. now rewrite Ho. }
  pose proof (op_inv_chain _ _ _ Hi1) as Hch1.
  pose proof (op_inv_chain _ _ _ Hi2) as Hch2.
  rewrite seqZ_cons in Hch1, Hch2 by lia.
  destruct Hch1 as [Hf1 _], Hch2 as [Hf2 _].
  pose proof (op_inv_count _ _ _ Hi1) as Hn1.
  pose proof (op_inv_count _ _ _ Hi2) as Hn2.
  rewrite length_seqZ in Hn1, Hn2.
  pose proof (op_inv_pool _ _ _ Hi1) as Hp1.
  pose proof (op_inv_pool _ _ _ Hi2) as Hp2.
  destruct p' as [f1 pl1 c1 n1], q' as [f2 pl2 c2 n2]. simpl in *.
  f_equal; try congruence; lia.
Qed.

Lemma ip_clear_same (p q : IndexedObjectPool.pool T) a b p' q' :
  IndexedObjectPool.pool_ p = Some a -> IndexedObjectPool.pool_ q = Some b ->
  Z.of_nat (length a) = IndexedObjectPool.capacity_ p ->
  Z.of_nat (length b) = IndexedObjectPool.capacity_ q ->
  IndexedObjectPool.capacity_ p = IndexedObjectPool.capacity_ q ->
  0 < IndexedObjectPool.capacity_ p < size_t_modulus ->
  (forall j, IndexedObjectPool.subscript j p
             = IndexedObjectPool.subscript j q) ->
  IndexedObjectPool.clear p = Ok p' -> IndexedObjectPool.clear q = Ok q' ->
  p' = q'.
Proof.
  intros Hp Hq Hla Hlb Hcap Hn Hobj Hcp Hcq.
  destruct (ip_clear_spec p a Hp Hla Hn) as (p1 & a' & H1 & Hi1 & Hc1 & Hg1).
  destruct (ip_clear_spec q b Hq Hlb ltac:(lia))
    as (q1 & b' & H2 & Hi2 & Hc2 & Hg2).
  rewrite Hcp in H1. injection H1 as <-.
  rewrite Hcq in H2. injection H2 as <-.
  assert (a' = b') as ->.
  { apply get_ext.
    - pose proof (ip_inv_len _ _ _ Hi1). pose proof (ip_inv_len _ _ _ Hi2).
      lia.
    - intros j. rewrite Hg1, Hg2, <- Hcap.
      pose proof (ip_subscript_get _ _ _ _ j Hp Hq (Hobj j)) as Ho.
      destruct (get a j) as [u|], (get b j) as [v|]; try discriminate;
        [|reflexivity].
      simpl in *. injection Ho as Ho. unfold ip_cleared. now rewrite Ho. }
  pose proof (ip_inv_chain _ _ _ Hi1) as Hch1.
  pose proof (ip_inv_chain _ _ _ Hi2) as Hch2.
  rewrite seqZ_cons in Hch1, Hch2 by lia.
  destruct Hch1 as [Hf1 _], Hch2 as [Hf2 _].
  pose proof (ip_inv_count _ _ _ Hi1) as Hn1.
  pose proof (ip_inv_count _ _ _ Hi2) as Hn2.
  rewrite length_seqZ in Hn1, Hn2.
  pose proof (ip_inv_pool _ _ _ Hi1) as Hp1.
  pose proof (ip_inv_pool _ _ _ Hi2) as Hp2.
  assert (IndexedObjectPool.highest_active_index_ p' = 0) as Hh1.
  { unfold IndexedObjectPool.clear in Hcp.
    destruct (IndexedObjectPool.clear_loop _ _ _); [|discriminate].
    cbn [bind] in Hcp. destruct (store _ _ _); [|discriminate].
    injection Hcp as <-. reflexivity. }
  assert (IndexedObjectPool.highest_active_index_ q' = 0) as Hh2.
  { unfold IndexedObjectPool.clear in Hcq.
    destruct (IndexedObjectPool.clear_loop _ _ _); [|discriminate].
    cbn [bind] in Hcq. destruct (store _ _ _); [|discriminate].
    injection Hcq as <-. reflexivity. }
  destruct p' as [f1 pl1 c1 n1 h1], q' as [f2 pl2 c2 n2 h2]. simpl in *.
  f_equal; try congruence; lia.
Qed.
End FreshState.

Lemma units_positive {U : Type} (pl : option (list U)) :
  0 < units pl -> exists a, pl = Some a /\ Z.of_nat (length a) = units pl.
Proof. destruct pl as [a|]; simpl; [eauto|lia]. Qed.

(** X1.  No sequence of [activate], [deactivate] and [clear] calls, on
    either pool and from any state, changes what [operator[]] reads at any
    index: the pools only manage flags and links and never create, reset
    or destroy a stored object. *)
Theorem pool_calls_keep_objects (T : Type) :
  (forall cs (p : ObjectPool.pool T) hs p',
     op_run cs p = Ok (hs, p') ->
     forall j, ObjectPool.subscript j p' = ObjectPool.subscript j p) /\
  (forall cs (p : IndexedObjectPool.pool T) hs p',
     ip_run cs p = Ok (hs, p') ->
     forall j, IndexedObjectPool.subscript j p'
               = IndexedObjectPool.subscript j p).
Proof.
  split; intros cs p hs p' Hrun.
  - exact (proj1 (op_run_frame cs p _ Hrun)).
  - exact (proj1 (ip_run_frame cs p _ Hrun)).
Qed.

Lemma pool_calls_keep_objects_witness :
  (exists p',
     op_run [Deactivate 1; Activate; Clear] op_two_of_three
       = Ok ([At 1], p') /\
     ObjectPool.subscript 1 p' = ObjectPool.subscript 1 op_two_of_three) /\
  (exists p',
     ip_run [Deactivate 2; Clear; Activate] ip_three_of_three
       = Ok ([At 0], p') /\
     IndexedObjectPool.subscript 0 p'
     = IndexedObjectPool.subscript 0 ip_three_of_three).
Proof.
  pose proof (pool_calls_keep_objects unit) as [Hop Hip].
  split.
  - eexists. split; [cbv; reflexivity|].
    apply (Hop [Deactivate 1; Activate; Clear] op_two_of_three [At 1]).
    vm_compute. reflexivity.
  - eexists. split; [cbv; reflexivity|].
    apply (Hip [Deactivate 2; Clear; Activate] ip_three_of_three [At 0]).
    vm_compute. reflexivity.
Defined.

(** X2.  [clear()] forgets everything but the capacity and the stored
    objects: two pools of either variant that have their arrays, the same
    capacity and the same object at every index are cleared to the same
    pool, whatever their flags, links and counters were; and clearing a
    pool that has just been cleared changes nothing. *)
Theorem clear_forgets_history (T : Type) :
  (forall p q : ObjectPool.pool T,
     op_storage_ok p -> op_storage_ok q ->
     ObjectPool.capacity p = ObjectPool.capacity q ->
     (forall j, ObjectPool.subscript j p = ObjectPool.subscript j q) ->
     defined (ObjectPool.clear p) /\
     ObjectPool.clear p = ObjectPool.clear q) /\
  (forall p p' : ObjectPool.pool T,
     op_storage_ok p -> ObjectPool.clear p = Ok p' ->
     ObjectPool.clear p' = Ok p') /\
  (forall p q : IndexedObjectPool.pool T,
     ip_storage_ok p -> ip_storage_ok q ->
     IndexedObjectPool.capacity p = IndexedObjectPool.capacity q ->
     (forall j, IndexedObjectPool.subscript j p
                = IndexedObjectPool.subscript j q) ->
     defined (IndexedObjectPool.clear p) /\
     IndexedObjectPool.clear p = IndexedObjectPool.clear q) /\
  (forall p p' : IndexedObjectPool.pool T,
     ip_storage_ok p -> IndexedObjectPool.clear p = Ok p' ->
     IndexedObjectPool.clear p' = Ok p').
Proof.
  split; [|split; [|split]].
  - intros p q (a & Hp & Hla & Hn) (b & Hq & Hlb & Hm) Hcap Hobj.
    unfold ObjectPool.capacity in Hcap.
    destruct (op_clear_spec p a Hp Hla Hn) as (p' & _ & Hcp & _).
    destruct (op_clear_spec q b Hq Hlb Hm) as (q' & _ & Hcq & _).
    split; [exists p'; exact Hcp|].
    rewrite Hcp, Hcq. f_equal.
    exact (op_clear_same p q a b p' q' Hp Hq Hla Hlb Hcap Hn Hobj Hcp Hcq).
  - intros p p' (a & Hp & Hla & Hn) Hcp.
    destruct (op_clear_spec p a Hp Hla Hn) as (p1 & a' & Hcp1 & Hinv & Hcap & _).
    rewrite Hcp in Hcp1. injection Hcp1 as <-.
    pose proof (op_inv_pool _ _ _ Hinv) as Hp'.
    pose proof (op_inv_len _ _ _ Hinv) as Hla'.
    pose proof (op_inv_cap _ _ _ Hinv) as Hn'.
    destruct (op_clear_spec p' a' Hp' Hla' Hn') as (p2 & _ & Hcp2 & _).
    rewrite Hcp2. f_equal.
    refine (op_clear_same p' p a' a p2 p' Hp' Hp Hla' Hla Hcap Hn' _ Hcp2 Hcp).
    exact (proj1 (op_clear_frame _ _ Hcp)).
  - intros p q (a & Hp & Hla & Hn) (b & Hq & Hlb & Hm) Hcap Hobj.
    unfold IndexedObjectPool.capacity in Hcap.
    destruct (ip_clear_spec p a Hp Hla Hn) as (p' & _ & Hcp & _).
    destruct (ip_clear_spec q b Hq Hlb Hm) as (q' & _ & Hcq & _).
    split; [exists p'; exact Hcp|].
    rewrite Hcp, Hcq. f_equal.
    exact (ip_clear_same p q a b p' q' Hp Hq Hla Hlb Hcap Hn Hobj Hcp Hcq).
  - intros p p' (a & Hp & Hla & Hn) Hcp.
    destruct (ip_clear_spec p a Hp Hla Hn) as (p1 & a' & Hcp1 & Hinv & Hcap & _).
    rewrite Hcp in Hcp1. injection Hcp1 as <-.
    pose proof (ip_inv_pool _ _ _ Hinv) as Hp'.
    pose proof (ip_inv_len _ _ _ Hinv) as Hla'.
    pose proof (ip_inv_cap _ _ _ Hinv) as Hn'.
    destruct (ip_clear_spec p' a' Hp' Hla' Hn') as (p2 & _ & Hcp2 & _).
    rewrite Hcp2. f_equal.
    refine (ip_clear_same p' p a' a p2 p' Hp' Hp Hla' Hla Hcap Hn' _ Hcp2 Hcp).
    exact (proj1 (ip_clear_frame _ _ Hcp)).
Qed.

Lemma clear_forgets_history_witness :
  op_storage_ok op_written /\ op_storage_ok op_written_cleared /\
  ObjectPool.capacity op_written = ObjectPool.capacity op_written_cleared /\
  (forall j, ObjectPool.subscript j op_written
             = ObjectPool.subscript j op_written_cleared) /\
  ObjectPool.clear op_written = Ok op_written_cleared /\
  ObjectPool.clear op_written = ObjectPool.clear op_written_cleared /\
  ObjectPool.clear op_written_cleared = Ok op_written_cleared.
Proof.
  assert (op_storage_ok op_written) as Hp.
  { eexists. split; [reflexivity|]. split; [reflexivity|].
    simpl. unfold size_t_modulus. lia. }
  assert (op_storage_ok op_written_cleared) as Hq.
  { eexists. split; [reflexivity|]. split; [reflexivity|].
    simpl. unfold size_t_modulus. lia. }
  assert (forall j, ObjectPool.subscript j op_written
                    = ObjectPool.subscript j op_written_cleared) as Hobj.
  { intros j. unfold ObjectPool.subscript, load, in_bounds.
    cbn [op_written op_written_cleared ObjectPool.pool_ length].
    destruct ((0 <=? j) && (j <? _)); [|reflexivity].
    destruct (Z.to_nat j) as [|[|[|n]]]; reflexivity. }
  assert (ObjectPool.clear op_written = Ok op_written_cleared) as Hc
    by (vm_compute; reflexivity).
  pose proof (clear_forgets_history Z) as (Hsame & Hidem & _).
  split; [exact Hp|]. split; [exact Hq|]. split; [reflexivity|].
  split; [exact Hobj|]. split; [exact Hc|].
  split; [exact (proj2 (Hsame _ _ Hp Hq eq_refl Hobj))|].
  exact (Hidem _ _ Hp Hc).
Defined.

(** ** Memory safety of the basic pool *)

Lemma chain_links_ok {U : Type} (nxt : U -> ptr) (a : list U) l : forall p,
  chain nxt a p l ->
  ptr_ok (Z.of_nat (length a)) p /\
  forall i u, i ∈ l -> get a i = Some u ->
              ptr_ok (Z.of_nat (length a)) (nxt u).
Proof.
  induction l as [|k l IH]; intros p Hc; simpl in Hc.
  - subst. split; [exact I|]. intros i u Hi. inversion Hi.
  - destruct Hc as [-> (v & Hv & Hc)]. destruct (IH _ Hc) as [Hhead Hrest].
    split; [exact (get_Some_range _ _ _ Hv)|].
    intros i u Hi Hu. apply elem_of_cons in Hi as [->|Hi]; [|eauto].
    rewrite Hv in Hu. injection Hu as <-. exact Hhead.
Qed.

Section BasicSafety.
Import ObjectPool.
Context {T : Type}.
Implicit Types (p : pool T) (a : list (PoolUnit T)).

Lemma op_clear_links p a :
  pool_ p = Some a -> Z.of_nat (length a) = capacity_ p ->
  0 < capacity_ p < size_t_modulus ->
  exists p' a', clear p = Ok p' /\ op_links_ok p' a'.
Proof.
  intros Hp Hlen Hcap.
  destruct (op_clear_spec p a Hp Hlen Hcap) as (p' & a' & Hrun & Hinv & Hc & _).
  exists p', a'. split; [assumption|].
  destruct (chain_links_ok _ _ _ _ (op_inv_chain _ _ _ Hinv)) as [Hh Hn].
  pose proof (op_inv_len _ _ _ Hinv) as Hlen'. rewrite Hlen' in Hh, Hn.
  constructor.
  - exact (op_inv_pool _ _ _ Hinv).
  - assumption.
  - exact (op_inv_cap _ _ _ Hinv).
  - assumption.
  - intros i u Hu. apply (Hn i u); [|assumption].
    apply get_Some_range in Hu. rewrite elem_of_seqZ. lia.
Qed.

Lemma op_call_links c p a :
  op_links_ok p a -> call_ok c ->
  exists r a', op_call c p = Ok r /\ op_links_ok (snd r) a' /\
               capacity_ (snd r) = capacity_ p.
Proof.
  intros [Hp Hlen Hcap Hfirst Hnext] Hc.
  destruct c as [|index|]; cbn [op_call].
  - unfold activate. destruct (first_available_ p) as [|i] eqn:Hf.
    + eexists _, a. split; [reflexivity|]. split; [|reflexivity].
      cbn [snd]. constructor; try assumption. now rewrite Hf.
    + simpl in Hfirst. destruct (get_in_range a i) as [u Hu]; [lia|].
      rewrite Hp, store_get, Hu. cbn [bind].
      rewrite load_get, (get_upd_eq _ _ _ _ Hu). cbn [bind].
      eexists _, _. split; [reflexivity|]. split; [|reflexivity].
      constructor; cbn [snd pool_ capacity_ first_available_].
      * reflexivity.
      * now rewrite length_upd.
      * assumption.
      * exact (Hnext _ _ Hu).
      * intros j v Hv. destruct (Z.eq_dec i j) as [<-|Hne].
        -- rewrite (get_upd_eq _ _ _ _ Hu) in Hv. injection Hv as <-.
           exact (Hnext _ _ Hu).
        -- rewrite get_upd_ne in Hv by lia. eauto.
  - simpl in Hc. unfold deactivate.
    destruct (Z.ltb_spec index (capacity_ p)) as [Hlt|Hge].
    + destruct (get_in_range a index) as [u Hu]; [lia|].
      rewrite Hp, store_get, Hu. cbn [bind].
      rewrite store_get, (get_upd_eq _ _ _ _ Hu). cbn [bind].
      eexists _, _. split; [reflexivity|]. split; [|reflexivity].
      constructor; cbn [snd pool_ capacity_ first_available_].
      * reflexivity.
      * now rewrite !length_upd.
      * assumption.
      * simpl. lia.
      * intros j v Hv. destruct (Z.eq_dec index j) as [<-|Hne].
        -- erewrite get_upd_eq in Hv by (eapply get_upd_eq; eauto).
           injection Hv as <-. exact Hfirst.
        -- rewrite !get_upd_ne in Hv by lia. eauto.
    + eexists _, a. split; [reflexivity|]. split; [|reflexivity].
      constructor; assumption.
  - destruct (op_clear_links p a Hp Hlen Hcap) as (p' & a' & Hrun & Hl).
    rewrite Hrun. eexists _, a'. split; [reflexivity|].
    split; [exact Hl|]. exact (proj2 (proj2 (op_clear_frame _ _ Hrun))).
Qed.

Lemma op_run_links cs : forall p a,
  op_links_ok p a -> Forall call_ok cs ->
  exists r a', op_run cs p = Ok r /\ op_links_ok (snd r) a' /\
               capacity_ (snd r) = capacity_ p.
Proof.
  induction cs as [|c cs IH]; intros p a Hl Hcs.
  - eexists _, a. split; [reflexivity|]. auto.
  - apply Forall_cons in Hcs as [Hc Hcs].
    destruct (op_call_links c p a Hl Hc) as (r1 & a1 & H1 & Hl1 & Hc1).
    destruct (IH _ _ Hl1 Hcs) as (r2 & a2 & H2 & Hl2 & Hc2).
    cbn [op_run]. rewrite H1. cbn [bind]. rewrite H2.
    eexists _, a2. split; [reflexivity|]. split; [exact Hl2|].
    cbn [snd]. congruence.
Qed.
End BasicSafety.

(** X3.  The basic pool is memory-safe under every use: whatever
    sequence of [activate], [deactivate] and [clear] calls a client makes
    on a constructed pool, with any indices, in range or not, active or
    not, every call stays inside the array and no link ever leaves it, and
    the capacity and the array are kept. *)
Theorem op_memory_safe (T : Type) (dflt : T) (n : Z) (cs : list call) :
  0 < n < size_t_modulus -> Forall call_ok cs ->
  exists hs p a,
    op_session dflt n cs = Ok (hs, p) /\ op_links_ok p a /\
    ObjectPool.capacity p = n.
Proof.
  intros Hn Hcs. unfold op_session, ObjectPool.construct.
  edestruct (op_clear_links
    {| ObjectPool.first_available_ := Null;
       ObjectPool.pool_ := ObjectPool.inflatePool dflt n;
       ObjectPool.active_count_ := 0; ObjectPool.capacity_ := n |})
    as (p0 & a0 & Hc & Hl0);
    [reflexivity | simpl; rewrite length_replicate; lia | exact Hn |].
  rewrite Hc. cbn [bind].
  destruct (op_run_links cs p0 a0 Hl0 Hcs) as ([hs p] & a & Hrun & Hl & Hcap).
  exists hs, p, a. split; [assumption|]. split; [assumption|].
  cbn [snd] in Hcap. unfold ObjectPool.capacity. rewrite Hcap.
  exact (proj2 (proj2 (op_clear_frame _ _ Hc))).
Qed.

Lemma op_memory_safe_witness :
  0 < 2 < size_t_modulus /\
  Forall call_ok [Deactivate 1; Deactivate 1; Deactivate 7; Activate;
                  Activate; Activate] /\
  exists hs p a,
    op_session tt 2 [Deactivate 1; Deactivate 1; Deactivate 7; Activate;
                     Activate; Activate] = Ok (hs, p) /\
    op_links_ok p a /\ ObjectPool.capacity p = 2.
Proof.
  assert (0 < 2 < size_t_modulus) as Hn by (unfold size_t_modulus; lia).
  assert (Forall call_ok [Deactivate 1; Deactivate 1; Deactivate 7;
                          Activate; Activate; Activate]) as Hcs.
  { repeat constructor; unfold size_t_modulus; lia. }
  split; [exact Hn|]. split; [exact Hcs|].
  exact (op_memory_safe unit tt 2 _ Hn Hcs).
Defined.

(** ** Counting the active units *)

Section Counting.
Context {U : Type} (act : U -> bool).
Implicit Types (a : list U) (fl : list Z).

Lemma get_app_l a b i :
  0 <= i < Z.of_nat (length a) -> get (a ++ b) i = get a i.
Proof.
  intros Hi. unfold get, in_bounds. rewrite length_app. zcases.
  apply lookup_app_l. lia.
Qed.

Lemma get_snoc_inv a u i v :
  get (a ++ [u]) i = Some v ->
  (0 <= i < Z.of_nat (length a) /\ get a i = Some v) \/
  (i = Z.of_nat (length a) /\ v = u).
Proof.
  intros Hv. pose proof (get_Some_range _ _ _ Hv) as Hr.
  rewrite length_app in Hr. simpl in Hr.
  destruct (Z.eq_dec i (Z.of_nat (length a))) as [->|Hne].
  - right. split; [reflexivity|].
    unfold get, in_bounds in Hv. rewrite length_app in Hv. simpl in Hv.
    revert Hv. zcases. rewrite Nat2Z.id, lookup_app_r, Nat.sub_diag by lia.
    simpl. congruence.
  - left. split; [lia|]. rewrite get_app_l in Hv by lia. exact Hv.
Qed.

Lemma get_snoc a u : get (a ++ [u]) (Z.of_nat (length a)) = Some u.
Proof.
  destruct (get_in_range (a ++ [u]) (Z.of_nat (length a))) as [v Hv].
  { rewrite length_app. simpl. lia. }
  destruct (get_snoc_inv _ _ _ _ Hv) as [[? _]|[_ ->]]; [lia|exact Hv].
Qed.

(** A list without repetition of exactly the inactive indices is as long
    as there are inactive units. *)
Lemma count_inactive a : forall fl,
  NoDup fl ->
  (forall i, i ∈ fl <-> exists u, get a i = Some u /\ act u = false) ->
  length fl = length (filter (fun u => act u = false) a).
Proof.
  induction a as [|u a IH] using rev_ind; intros fl Hnd Hmem.
  - destruct fl as [|i fl]; [reflexivity|].
    destruct (proj1 (Hmem i) ltac:(left)) as (v & Hv & _).
    apply get_Some_range in Hv. simpl in Hv. lia.
  - rewrite filter_app, length_app.
    destruct (act u) eqn:Hu.
    + rewrite filter_cons_False, filter_nil by congruence. simpl.
      rewrite Nat.add_0_r. apply IH; [assumption|].
      intros i. rewrite Hmem. split.
      * intros (v & Hv & Hav).
        destruct (get_snoc_inv _ _ _ _ Hv) as [[_ Hv']|[_ ->]];
          [eauto|congruence].
      * intros (v & Hv & Hav). exists v. split; [|assumption].
        rewrite get_app_l; [assumption|].
        exact (get_Some_range _ _ _ Hv).
    + rewrite filter_cons_True, filter_nil by assumption. simpl.
      assert (Z.of_nat (length a) ∈ fl) as Hin.
      { apply Hmem. exists u. split; [apply get_snoc|assumption]. }
      apply elem_of_Permutation in Hin as [k Hperm].
      rewrite Hperm in Hnd. apply NoDup_cons in Hnd as [Hnotin Hnd].
      rewrite (Permutation_length Hperm). simpl.
      rewrite (IH k Hnd); [lia|].
      intros i. split.
      * intros Hi.
        destruct (proj1 (Hmem i)) as (v & Hv & Hav).
        { rewrite Hperm. now right. }
        destruct (get_snoc_inv _ _ _ _ Hv) as [[_ Hv']|[-> _]];
          [eauto|contradiction].
      * intros (v & Hv & Hav). pose proof (get_Some_range _ _ _ Hv) as Hr.
        assert (i ∈ fl) as Hi.
        { apply Hmem. exists v. split; [|assumption].
          rewrite get_app_l; assumption. }
        rewrite Hperm in Hi. apply elem_of_cons in Hi as [->|Hi];
          [lia|assumption].
Qed.

Lemma count_split a :
  (length (filter (fun u => act u = true) a)
   + length (filter (fun u => act u = false) a) = length a)%nat.
Proof.
  induction a as [|u a IH]; [reflexivity|].
  rewrite !filter_cons. destruct (act u); simpl; lia.
Qed.
End Counting.

(** X4.  On every reachable pool of either variant [activeCount()] is
    the number of units whose flag is set. *)
Theorem active_count_counts_flags (T : Type) :
  (forall p : ObjectPool.pool T, op_reachable p ->
     ObjectPool.activeCount p = op_count_active p) /\
  (forall p : IndexedObjectPool.pool T, ip_reachable p ->
     IndexedObjectPool.activeCount p = ip_count_active p).
Proof.
  split; intros p Hreach.
  - destruct (op_reachable_inv _ Hreach) as (a & fl & Hinv).
    unfold ObjectPool.activeCount, op_count_active.
    rewrite (op_inv_pool _ _ _ Hinv), (op_inv_count _ _ _ Hinv),
      <- (op_inv_len _ _ _ Hinv).
    pose proof (count_split ObjectPool.active_ a) as Hsplit.
    rewrite <- (count_inactive ObjectPool.active_ a fl) in Hsplit.
    + lia.
    + exact (op_inv_nodup _ _ _ Hinv).
    + intros i. split.
      * intros Hi. destruct (get_in_range a i) as [u Hu].
        { exact (chain_in_range _ _ _ _ _ (op_inv_chain _ _ _ Hinv) Hi). }
        exists u. split; [assumption|].
        now apply (op_inv_free _ _ _ Hinv _ _ Hu).
      * intros (u & Hu & Hau). now apply (op_inv_free _ _ _ Hinv _ _ Hu).
  - destruct (ip_reachable_inv _ Hreach) as (a & fl & Hinv).
    unfold IndexedObjectPool.activeCount, ip_count_active.
    rewrite (ip_inv_pool _ _ _ Hinv), (ip_inv_count _ _ _ Hinv),
      <- (ip_inv_len _ _ _ Hinv).
    pose proof (count_split IndexedObjectPool.active_ a) as Hsplit.
    rewrite <- (count_inactive IndexedObjectPool.active_ a fl) in Hsplit.
    + lia.
    + exact (ip_inv_nodup _ _ _ Hinv).
    + intros i. split.
      * intros Hi. destruct (get_in_range a i) as [u Hu].
        { exact (chain_in_range _ _ _ _ _ (ip_inv_chain _ _ _ Hinv) Hi). }
        exists u. split; [assumption|].
        now apply (ip_inv_free _ _ _ Hinv _ _ Hu).
      * intros (u & Hu & Hau). now apply (ip_inv_free _ _ _ Hinv _ _ Hu).
Qed.

Lemma active_count_counts_flags_witness :
  op_reachable op_two_of_three /\
  ObjectPool.activeCount op_two_of_three = 2 /\
  op_count_active op_two_of_three = 2 /\
  ip_reachable ip_three_of_three /\
  IndexedObjectPool.activeCount ip_three_of_three
  = ip_count_active ip_three_of_three.
Proof.
  pose proof (active_count_counts_flags unit) as [Hop Hip].
  split; [exact op_two_of_three_reachable|].
  split; [reflexivity|].
  split; [rewrite <- (Hop _ op_two_of_three_reachable); reflexivity|].
  split; [exact ip_three_of_three_reachable|].
  exact (Hip _ ip_three_of_three_reachable).
Defined.

(** ** Taking a unit and giving it back *)

Lemma upd_upd {U : Type} (a : list U) i x y : upd (upd a i x) i y = upd a i y.
Proof. apply list_insert_insert_eq. Qed.

Lemma upd_id {U : Type} (a : list U) i u : get a i = Some u -> upd a i u = a.
Proof.
  intros Hu. pose proof (get_Some_range _ _ _ Hu) as Hr.
  apply list_insert_id. revert Hu. unfold get, in_bounds. zcases.
Qed.

Lemma ptr_lt_irrefl q : ptr_lt q q = false.
Proof. destruct q; simpl; [reflexivity|apply Z.ltb_irrefl]. Qed.

Section RoundTrip.
Context {T : Type}.

Lemma op_activate_deactivate (p : ObjectPool.pool T) a i fl :
  op_inv p a (i :: fl) ->
  exists p',
    ObjectPool.activate p = Ok (At i, p') /\
    ObjectPool.deactivate i p' = Ok p.
Proof.
  intros Hinv. pose proof (op_inv_length _ _ _ Hinv) as Hlen.
  destruct (op_activate_cons _ _ _ _ Hinv) as (u & Hu & Hact & _).
  eexists. split; [exact Hact|].
  pose proof (get_Some_range _ _ _ Hu) as Hr.
  assert (ObjectPool.active_ u = false) as Hidle
    by (apply (op_inv_free _ _ _ Hinv _ _ Hu); left).
  destruct Hinv as [Hp Hl Hcap Hc _ _ Hcount].
  simpl in Hc. destruct Hc as [Hfirst (u' & Hu' & _)].
  cbn [length] in Hlen, Hcount.
  unfold ObjectPool.deactivate.
  cbn [ObjectPool.capacity_ ObjectPool.pool_ ObjectPool.first_available_
       ObjectPool.active_count_].
  replace (i <? ObjectPool.capacity_ p) with true by zcases.
  rewrite store_get, (get_upd_eq _ _ _ _ Hu). cbn [bind].
  rewrite upd_upd, store_get.
  erewrite get_upd_eq by eassumption. cbn [bind]. rewrite upd_upd.
  assert (ObjectPool.set_next (ObjectPool.next_ u)
            (ObjectPool.set_active false (ObjectPool.set_active true u)) = u)
    as ->.
  { destruct u as [b q o]. simpl in *. now subst. }
  rewrite (upd_id _ _ _ Hu).
  unfold wrap. rewrite Z.mod_small by (unfold size_t_modulus in *; lia).
  apply f_equal. destruct p as [f pl c n]. simpl in *. subst.
  f_equal; lia.
Qed.

Lemma ip_activate_deactivate (p : IndexedObjectPool.pool T) a i fl :
  ip_inv p a (i :: fl) ->
  exists p',
    IndexedObjectPool.activate p = Ok (At i, p') /\
    IndexedObjectPool.deactivate i p' = Ok p.
Proof.
  intros Hinv. pose proof (ip_inv_length _ _ _ Hinv) as Hlen.
  destruct Hinv as [Hp Hl Hcap Hc Hnd Hfree Hcount Hidx Hbound Htop].
  simpl in Hc. destruct Hc as [Hfirst (u & Hu & Hc)].
  cbn [length] in Hlen, Hcount.
  pose proof (get_Some_range _ _ _ Hu) as Hr.
  pose proof (Hidx _ _ Hu) as Hiu.
  assert (IndexedObjectPool.active_ u = false) as Hidle
    by (apply (Hfree _ _ Hu); left).
  assert (0 <= IndexedObjectPool.highest_active_index_ p) as Hh0.
  { destruct Htop as [->|(v & Hv & _)]; [lia|].
    apply get_Some_range in Hv. lia. }
  assert (IndexedObjectPool.highest_active_index_ p <> i \/ i = 0) as Hhi.
  { destruct Htop as [H0|(v & Hv & Hav)]; [lia|].
    destruct (Z.eq_dec (IndexedObjectPool.highest_active_index_ p) i)
      as [He|]; [|now left].
    rewrite He, Hu in Hv. injection Hv as <-. congruence. }
  eexists. split.
  - unfold IndexedObjectPool.activate.
    rewrite Hfirst, Hp, store_get, Hu. cbn [bind].
    rewrite load_get, (get_upd_eq _ _ _ _ Hu). cbn [bind]. reflexivity.
  - unfold IndexedObjectPool.deactivate.
    cbn [IndexedObjectPool.capacity_ IndexedObjectPool.pool_
         IndexedObjectPool.first_available_ IndexedObjectPool.active_count_
         IndexedObjectPool.highest_active_index_
         IndexedObjectPool.index_ IndexedObjectPool.next_
         IndexedObjectPool.set_active].
    replace (i <? IndexedObjectPool.capacity_ p) with true by zcases.
    rewrite store_get, (get_upd_eq _ _ _ _ Hu). cbn [bind].
    rewrite upd_upd.
    assert (IndexedObjectPool.set_active false
              (IndexedObjectPool.set_active true u) = u) as ->.
    { destruct u as [b k q o]. simpl in *. now subst. }
    rewrite (upd_id _ _ _ Hu).
    unfold IndexedObjectPool.link_free.
    rewrite load_get, Hu. cbn [bind]. rewrite ptr_lt_irrefl.
    rewrite store_get, Hu. cbn [bind fst snd].
    assert (IndexedObjectPool.set_next (IndexedObjectPool.next_ u) u = u)
      as -> by (destruct u; reflexivity).
    rewrite (upd_id _ _ _ Hu), Hiu.
    unfold wrap.
    rewrite (Z.mod_small (IndexedObjectPool.active_count_ p + 1))
      by (unfold size_t_modulus in *; lia).
    rewrite Z.mod_small by (unfold size_t_modulus in *; lia).
    set (h := IndexedObjectPool.highest_active_index_ p) in *.
    assert ((if h <? i then i else h) = Z.max h i) as -> by zcases.
    assert ((if Z.max h i =? i
             then if i =? 0 then Ok (Z.max h i)
                  else
                    let! found :=
                      IndexedObjectPool.scan_down (Some a)
                        (Z.to_nat (Z.max h i)) in
                    match found with
                    | Some k => Ok k
                    | None => Ok 0
                    end
             else Ok (Z.max h i)) = Ok h) as ->.
    { destruct (Z.eqb_spec (Z.max h i) i) as [He|He];
        [|f_equal; lia].
      destruct (Z.eqb_spec i 0) as [H0|H0]; [f_equal; lia|].
      assert (h < i) as Hlt by lia.
      destruct (ip_scan_down_spec a (Z.to_nat (Z.max h i)))
        as (r & Hscan & Hspec); [lia|].
      rewrite Hscan. cbn [bind]. rewrite Z2Nat.id, He in Hspec by lia.
      destruct r as [j|].
      - destruct Hspec as (Hj & (v & Hv & Hav) & Hbelow).
        pose proof (Hbound _ _ Hv Hav) as Hle. f_equal.
        destruct Htop as [H00|(w & Hw & Haw)]; [lia|].
        destruct (Z_lt_ge_dec j h) as [Hjh|?]; [|lia].
        rewrite (Hbelow h w) in Haw; [discriminate|lia|assumption].
      - f_equal. destruct Htop as [H00|(w & Hw & Haw)]; [lia|].
        rewrite (Hspec h w) in Haw; [discriminate|lia|assumption]. }
    cbn [bind].
    apply f_equal. destruct p as [f pl c n hh]. simpl in *. subst.
    f_equal; lia.
Qed.
End RoundTrip.

(** X5.  On a reachable pool of either variant [activate()] never hands
    out a unit that is already active: the unit it returns was inactive
    before the call and is active after it. *)
Theorem activate_hands_out_inactive_unit (T : Type) :
  (forall (p : ObjectPool.pool T) i p',
     op_reachable p -> ObjectPool.activate p = Ok (At i, p') ->
     0 <= i < ObjectPool.capacity p /\
     ObjectPool.active i p = Ok false /\
     ObjectPool.active i p' = Ok true) /\
  (forall (p : IndexedObjectPool.pool T) i p',
     ip_reachable p -> IndexedObjectPool.activate p = Ok (At i, p') ->
     0 <= i < IndexedObjectPool.capacity p /\
     IndexedObjectPool.active i p = Ok false /\
     IndexedObjectPool.active i p' = Ok true).
Proof.
  split; intros p i p' Hreach Hact.
  - destruct (op_reachable_inv _ Hreach) as (a & fl & Hinv).
    destruct fl as [|k fl].
    { rewrite (op_activate_nil _ _ Hinv) in Hact. discriminate. }
    destruct (op_activate_cons _ _ _ _ Hinv) as (u & Hu & Hact' & Hinv').
    rewrite Hact in Hact'. injection Hact' as -> ->.
    pose proof (get_Some_range _ _ _ Hu) as Hr.
    rewrite (op_inv_len _ _ _ Hinv) in Hr.
    split; [exact Hr|]. split.
    + apply (op_active_get _ _ _ _ (op_inv_pool _ _ _ Hinv)).
      exists u. split; [assumption|].
      apply (op_inv_free _ _ _ Hinv _ _ Hu). left.
    + unfold ObjectPool.active. cbn [ObjectPool.pool_].
      rewrite load_get, (get_upd_eq _ _ _ _ Hu). reflexivity.
  - destruct (ip_reachable_inv _ Hreach) as (a & fl & Hinv).
    destruct fl as [|k fl].
    { rewrite (ip_activate_nil _ _ Hinv) in Hact. discriminate. }
    destruct (ip_activate_cons _ _ _ _ Hinv)
      as (u & q & Hu & Hact' & Hinv' & _).
    rewrite Hact in Hact'. injection Hact' as -> ->.
    pose proof (get_Some_range _ _ _ Hu) as Hr.
    rewrite (ip_inv_len _ _ _ Hinv) in Hr.
    split; [exact Hr|]. split.
    + apply (ip_active_get _ _ _ _ (ip_inv_pool _ _ _ Hinv)).
      exists u. split; [assumption|].
      apply (ip_inv_free _ _ _ Hinv _ _ Hu). left.
    + apply (ip_active_get _ _ _ _ (ip_inv_pool _ _ _ Hinv')).
      eexists. split; [eapply get_upd_eq; eassumption|reflexivity].
Qed.

Lemma activate_hands_out_inactive_unit_witness :
  op_reachable op_two_of_three /\
  exists p',
    ObjectPool.activate op_two_of_three = Ok (At 2, p') /\
    ObjectPool.active 2 op_two_of_three = Ok false /\
    ObjectPool.active 2 p' = Ok true.
Proof.
  split; [exact op_two_of_three_reachable|].
  eexists. split; [cbv; reflexivity|].
  eapply (proj1 (activate_hands_out_inactive_unit unit) op_two_of_three 2);
    [exact op_two_of_three_reachable | vm_compute; reflexivity].
Defined.

(** X6.  On a reachable pool of either variant, giving back the unit
    that [activate()] has just handed out is defined and restores the
    pool exactly: flags, links, free list, [active_count_] and, in the
    indexed pool, [highest_active_index_]. *)
Theorem activate_then_deactivate_restores (T : Type) :
  (forall (p : ObjectPool.pool T) i p',
     op_reachable p -> ObjectPool.activate p = Ok (At i, p') ->
     ObjectPool.deactivate i p' = Ok p) /\
  (forall (p : IndexedObjectPool.pool T) i p',
     ip_reachable p -> IndexedObjectPool.activate p = Ok (At i, p') ->
     IndexedObjectPool.deactivate i p' = Ok p).
Proof.
  split; intros p i p' Hreach Hact.
  - destruct (op_reachable_inv _ Hreach) as (a & fl & Hinv).
    destruct fl as [|k fl].
    { rewrite (op_activate_nil _ _ Hinv) in Hact. discriminate. }
    destruct (op_activate_deactivate _ _ _ _ Hinv) as (q & Hq & Hback).
    rewrite Hact in Hq. injection Hq as -> ->. exact Hback.
  - destruct (ip_reachable_inv _ Hreach) as (a & fl & Hinv).
    destruct fl as [|k fl].
    { rewrite (ip_activate_nil _ _ Hinv) in Hact. discriminate. }
    destruct (ip_activate_deactivate _ _ _ _ Hinv) as (q & Hq & Hback).
    rewrite Hact in Hq. injection Hq as -> ->. exact Hback.
Qed.

Lemma activate_then_deactivate_restores_witness :
  op_reachable op_two_of_three /\
  exists p',
    ObjectPool.activate op_two_of_three = Ok (At 2, p') /\
    ObjectPool.deactivate 2 p' = Ok op_two_of_three.
Proof.
  split; [exact op_two_of_three_reachable|].
  eexists. split; [cbv; reflexivity|].
  apply (proj1 (activate_then_deactivate_restores unit) op_two_of_three 2);
    [exact op_two_of_three_reachable | vm_compute; reflexivity].
Defined.

(** ** Where the indexed [deactivate] is defined *)

(** X7.  On a reachable indexed pool, [deactivate] of an active unit
    reads through [nullptr] exactly when the pool is full and the unit is
    not the last one of the array; in every other case it is defined.  A
    full indexed pool can only give back its last unit. *)
Theorem ip_deactivate_defined_iff (T : Type)
    (p : IndexedObjectPool.pool T) (index : Z) :
  ip_reachable p -> IndexedObjectPool.active index p = Ok true ->
  (IndexedObjectPool.activeCount p = IndexedObjectPool.capacity p /\
   index <> IndexedObjectPool.capacity p - 1 ->
   IndexedObjectPool.deactivate index p = Undefined NullDeref) /\
  (IndexedObjectPool.activeCount p < IndexedObjectPool.capacity p \/
   index = IndexedObjectPool.capacity p - 1 ->
   defined (IndexedObjectPool.deactivate index p)).
Proof.
  intros Hreach Hact.
  destruct (ip_reachable_shape _ Hreach) as (a & fl & Hinv & Hs).
  pose proof (ip_inv_pool _ _ _ Hinv) as Hp.
  pose proof (ip_inv_len _ _ _ Hinv) as Hlen.
  pose proof (ip_inv_count _ _ _ Hinv) as Hcount.
  pose proof (ip_inv_chain _ _ _ Hinv) as Hc.
  destruct (proj1 (ip_active_get p a _ true Hp) Hact) as (u & Hu & Hau).
  pose proof (get_Some_range _ _ _ Hu) as Hr.
  unfold IndexedObjectPool.activeCount, IndexedObjectPool.capacity.
  split.
  - intros [Hfull Hne].
    assert (fl = []) as -> by (destruct fl; [reflexivity|simpl in *; lia]).
    simpl in Hc.
    apply (ip_deactivate_null_head p a index u Hp Hu ltac:(lia) Hc).
    apply (ip_shape_inner _ _ Hs _ _ Hu). lia.
  - intros Hcase. apply (ip_deactivate_defined _ _ _ _ _ Hinv Hu Hau).
    intros Hnull. rewrite Hnull in Hc.
    destruct fl as [|k fl]; [|destruct Hc; discriminate].
    simpl in Hcount. destruct Hcase as [Hlt|He]; [lia|].
    rewrite He in Hu. exact (ip_shape_last _ _ Hs _ Hu).
Qed.

Lemma ip_deactivate_defined_iff_witness :
  ip_reachable ip_three_of_three /\
  IndexedObjectPool.active 0 ip_three_of_three = Ok true /\
  IndexedObjectPool.activeCount ip_three_of_three
  = IndexedObjectPool.capacity ip_three_of_three /\
  IndexedObjectPool.deactivate 0 ip_three_of_three = Undefined NullDeref /\
  IndexedObjectPool.active 2 ip_three_of_three = Ok true /\
  defined (IndexedObjectPool.deactivate 2 ip_three_of_three).
Proof.
  split; [exact ip_three_of_three_reachable|].
  split; [reflexivity|]. split; [reflexivity|].
  split.
  - apply (proj1 (ip_deactivate_defined_iff unit ip_three_of_three 0
                    ip_three_of_three_reachable eq_refl)).
    split; [reflexivity|simpl; lia].
  - split; [reflexivity|].
    apply (proj2 (ip_deactivate_defined_iff unit ip_three_of_three 2
                    ip_three_of_three_reachable eq_refl)).
    right. reflexivity.
Defined.

(** X8.  On a reachable indexed pool the last unit of the array is active
    only when every unit is: as long as the pool is not full, the unit at
    index [capacity - 1] has not been handed out and
    [highestActiveIndex()] lies below it. *)
Theorem ip_last_unit_only_when_full (T : Type)
    (p : IndexedObjectPool.pool T) :
  ip_reachable p ->
  (IndexedObjectPool.active (IndexedObjectPool.capacity p - 1) p = Ok true ->
   IndexedObjectPool.activeCount p = IndexedObjectPool.capacity p) /\
  (IndexedObjectPool.activeCount p < IndexedObjectPool.capacity p ->
   IndexedObjectPool.active (IndexedObjectPool.capacity p - 1) p = Ok false /\
   (1 < IndexedObjectPool.capacity p ->
    IndexedObjectPool.highestActiveIndex p
    < IndexedObjectPool.capacity p - 1)).
Proof.
  intros Hreach.
  destruct (ip_reachable_shape _ Hreach) as (a & fl & Hinv & Hs).
  pose proof (ip_inv_pool _ _ _ Hinv) as Hp.
  pose proof (ip_inv_len _ _ _ Hinv) as Hlen.
  pose proof (ip_inv_cap _ _ _ Hinv) as Hcap.
  pose proof (ip_inv_count _ _ _ Hinv) as Hcount.
  unfold IndexedObjectPool.activeCount, IndexedObjectPool.capacity,
    IndexedObjectPool.highestActiveIndex.
  assert (forall u, get a (IndexedObjectPool.capacity_ p - 1) = Some u ->
            IndexedObjectPool.active_ u = true -> fl = []) as Hfull.
  { intros u Hu Hau. destruct fl as [|k fl]; [reflexivity|].
    pose proof (chain_in_range _ _ _ _ k (ip_inv_chain _ _ _ Hinv)
                  ltac:(left)) as Hk.
    destruct (get_in_range a k Hk) as [v Hv].
    pose proof (ip_shape_full _ _ Hs _ Hu Hau _ _ Hv) as Hav.
    assert (IndexedObjectPool.active_ v = false) as Hidle
      by (apply (ip_inv_free _ _ _ Hinv _ _ Hv); left).
    congruence. }
  destruct (get_in_range a (IndexedObjectPool.capacity_ p - 1)) as [u Hu];
    [lia|].
  split.
  - intros Hact.
    destruct (proj1 (ip_active_get p a _ true Hp) Hact) as (v & Hv & Hav).
    rewrite (Hfull v Hv Hav) in Hcount. simpl in Hcount. lia.
  - intros Hlt.
    assert (IndexedObjectPool.active_ u = false) as Hidle.
    { destruct (IndexedObjectPool.active_ u) eqn:E; [|reflexivity].
      rewrite (Hfull u Hu E) in Hcount. simpl in Hcount. lia. }
    split.
    + apply (ip_active_get _ _ _ _ Hp). eauto.
    + intros Hbig.
      destruct (ip_inv_top _ _ _ Hinv) as [->|(v & Hv & Hav)]; [lia|].
      pose proof (get_Some_range _ _ _ Hv) as Hr.
      destruct (Z.eq_dec (IndexedObjectPool.highest_active_index_ p)
                  (IndexedObjectPool.capacity_ p - 1)) as [He|]; [|lia].
      rewrite He, Hu in Hv. injection Hv as <-. congruence.
Qed.

Lemma ip_last_unit_only_when_full_witness :
  ip_reachable ip_three_of_three /\
  IndexedObjectPool.active 2 ip_three_of_three = Ok true /\
  IndexedObjectPool.activeCount ip_three_of_three = 3.
Proof.
  split; [exact ip_three_of_three_reachable|]. split; [reflexivity|].
  exact (proj1 (ip_last_unit_only_when_full unit ip_three_of_three
                  ip_three_of_three_reachable) eq_refl).
Defined.

(** ** Filling a fresh indexed pool *)

Lemma ip_run_activate_prefix (T : Type) (l1 : list Z) :
  forall (l2 : list Z) (p : IndexedObjectPool.pool T) a,
    ip_inv p a (l1 ++ l2) ->
    exists p1 a1,
      ip_run (replicate (length l1) Activate) p = Ok (At <$> l1, p1) /\
      ip_inv p1 a1 l2 /\
      IndexedObjectPool.capacity_ p1 = IndexedObjectPool.capacity_ p /\
      IndexedObjectPool.active_count_ p1
      = IndexedObjectPool.active_count_ p + Z.of_nat (length l1) /\
      IndexedObjectPool.highest_active_index_ p1
      = foldl Z.max (IndexedObjectPool.highest_active_index_ p) l1.
Proof.
  induction l1 as [|i l1 IH]; intros l2 p a Hinv.
  - exists p, a. split; [reflexivity|]. split; [assumption|].
    simpl. split; [reflexivity|]. split; [lia|reflexivity].
  - simpl in Hinv.
    destruct (ip_activate_cons _ _ _ _ Hinv)
      as (u & q & _ & Hact & Hinv' & Hcount & Hcap & Hh).
    destruct (IH _ _ _ Hinv') as (p1 & a1 & Hrun & Hinv1 & Hcap1 & Hc1 & Hh1).
    exists p1, a1. split; [|split; [assumption|]].
    + cbn [length replicate ip_run ip_call]. rewrite Hact. cbn [bind snd fst].
      rewrite Hrun. reflexivity.
    + split; [congruence|]. split.
      * rewrite Hc1, Hcount. cbn [length]. lia.
      * rewrite Hh1, Hh. reflexivity.
Qed.

Lemma foldl_max_seqZ (k : nat) :
  foldl Z.max 0 (seqZ 0 (Z.of_nat k)) = Z.max 0 (Z.of_nat k - 1).
Proof.
  induction k as [|k IH]; [reflexivity|].
  rewrite seqZ_S, foldl_app, IH. simpl. lia.
Qed.

(** X9.  A fresh indexed pool fills from the lowest index: [k]
    activations, for any [k] up to the capacity, hand out the units
    0, ..., k-1 in this order, after which exactly the units below [k] are
    active, [activeCount()] is [k] and [highestActiveIndex()] is [k - 1]
    (0 when [k] is 0). *)
Theorem ip_fresh_pool_fills_in_order (T : Type) (dflt : T) (n k : Z) :
  0 < n < size_t_modulus -> 0 <= k <= n ->
  exists p,
    ip_session dflt n (replicate (Z.to_nat k) Activate)
      = Ok (At <$> seqZ 0 k, p) /\
    IndexedObjectPool.activeCount p = k /\
    IndexedObjectPool.highestActiveIndex p = Z.max 0 (k - 1) /\
    forall i, 0 <= i < n ->
      IndexedObjectPool.active i p = Ok (i <? k).
Proof.
  intros Hn Hk.
  destruct (ip_construct_spec dflt n Hn) as (p0 & a0 & Hc & Hinv & Hcap & _).
  assert (IndexedObjectPool.highest_active_index_ p0 = 0) as Hh0.
  { unfold IndexedObjectPool.construct, IndexedObjectPool.clear in Hc.
    destruct (IndexedObjectPool.clear_loop _ _ _); [|discriminate].
    cbn [bind] in Hc. destruct (store _ _ _); [|discriminate].
    injection Hc as <-. reflexivity. }
  replace n with (k + (n - k)) in Hinv by lia.
  rewrite seqZ_app in Hinv by lia.
  destruct (ip_run_activate_prefix T _ _ _ _ Hinv)
    as (p & a & Hrun & Hinv1 & Hcap1 & Hcount & Hh).
  rewrite length_seqZ in Hrun, Hcount.
  exists p. unfold ip_session. rewrite Hc. cbn [bind].
  split; [exact Hrun|].
  unfold IndexedObjectPool.activeCount, IndexedObjectPool.highestActiveIndex.
  split; [|split].
  - rewrite Hcount, (ip_inv_count _ _ _ Hinv), length_app, !length_seqZ.
    lia.
  - rewrite Hh, Hh0. rewrite <- (Z2Nat.id k) by lia.
    apply foldl_max_seqZ.
  - intros i Hi.
    pose proof (ip_inv_len _ _ _ Hinv1) as Hlen.
    destruct (get_in_range a i) as [u Hu]; [lia|].
    apply (ip_active_get _ _ _ _ (ip_inv_pool _ _ _ Hinv1)).
    exists u. split; [assumption|].
    pose proof (ip_inv_free _ _ _ Hinv1 _ _ Hu) as Hf.
    rewrite elem_of_seqZ in Hf.
    destruct (Z.ltb_spec i k) as [Hlt|Hge].
    + destruct (IndexedObjectPool.active_ u); [reflexivity|].
      destruct (proj1 Hf eq_refl). lia.
    + apply Hf. lia.
Qed.

Lemma ip_fresh_pool_fills_in_order_witness :
  0 < 5 < size_t_modulus /\ 0 <= 3 <= 5 /\
  exists p,
    ip_session tt 5 [Activate; Activate; Activate] = Ok ([At 0; At 1; At 2], p) /\
    IndexedObjectPool.activeCount p = 3 /\
    IndexedObjectPool.highestActiveIndex p = 2.
Proof.
  assert (0 < 5 < size_t_modulus) as Hn by (unfold size_t_modulus; lia).
  split; [exact Hn|]. split; [lia|].
  destruct (ip_fresh_pool_fills_in_order unit tt 5 3 Hn ltac:(lia))
    as (p & Hrun & Hcount & Hh & _).
  exists p. split; [exact Hrun|]. split; [exact Hcount|exact Hh].
Defined.

(** ** The accessors *)



(** ** Management and objects do not interfere *)

Section StorageMap.
Context {U V : Type} (f : U -> V).

Lemma load_map (pl : option (list U)) i :
  load (map_units f pl) i = result_map f (load pl i).
Proof.
  destruct pl as [a|]; [|reflexivity].
  unfold load, in_bounds. cbn [map_units].
  rewrite length_fmap, list_lookup_fmap.
  destruct ((0 <=? i) && (i <? Z.of_nat (length a))); [|reflexivity].
  destruct (a !! Z.to_nat i); reflexivity.
Qed.

Lemma store_map (g : U -> U) (g' : V -> V) (pl : option (list U)) i :
  (forall u, f (g u) = g' (f u)) ->
  store (map_units f pl) i g' = result_map (map_units f) (store pl i g).
Proof.
  intros Hg. unfold store. rewrite load_map.
  destruct (load pl i) as [u|]; [|reflexivity].
  destruct pl as [a|]; [|reflexivity].
  cbn [bind result_map map_units]. rewrite list_fmap_insert, Hg.
  reflexivity.
Qed.

Lemma deref_map (pl : option (list U)) q :
  deref (map_units f pl) q = result_map f (deref pl q).
Proof. destruct q; [reflexivity|apply load_map]. Qed.

Lemma store_at_map (g : U -> U) (g' : V -> V) (pl : option (list U)) q :
  (forall u, f (g u) = g' (f u)) ->
  store_at (map_units f pl) q g'
  = result_map (map_units f) (store_at pl q g).
Proof. intros Hg. destruct q; [reflexivity|now apply store_map]. Qed.

Lemma map_units_store_id (g : U -> U) (pl pl' : option (list U)) i :
  (forall u, f (g u) = f u) ->
  store pl i g = Ok pl' -> map_units f pl' = map_units f pl.
Proof.
  intros Hg Hst. destruct (store_Some_inv _ _ _ _ Hst) as (a & u & -> & Hu & ->).
  cbn [map_units]. f_equal. unfold upd. rewrite list_fmap_insert, Hg.
  apply list_insert_id. rewrite list_lookup_fmap.
  unfold get in Hu. destruct (in_bounds a i); [|discriminate].
  now rewrite Hu.
Qed.
End StorageMap.

Lemma result_map_bind {A B C : Type} (f : B -> C) (m : result A)
    (k : A -> result B) :
  result_map f (bind m k) = bind m (fun x => result_map f (k x)).
Proof. destruct m; reflexivity. Qed.

Lemma bind_result_map {A B C : Type} (g : A -> B) (m : result A)
    (k : B -> result C) :
  bind (result_map g m) k = bind m (fun x => k (g x)).
Proof. destruct m; reflexivity. Qed.

Section BasicErase.
Import ObjectPool.
Context {T : Type}.
Implicit Types (p : pool T) (pl : option (list (PoolUnit T))).

Local Abbreviation eu := (op_erase_unit (T:=T)).

Lemma op_clear_loop_erase n : forall i pl,
  clear_loop n i (map_units eu pl)
  = result_map (map_units eu) (clear_loop n i pl).
Proof.
  induction n as [|n IH]; intros i pl; [reflexivity|].
  cbn [clear_loop].
  rewrite (store_map eu (set_active false) (set_active false))
    by reflexivity.
  destruct (store pl i (set_active false)) as [a1|]; [|reflexivity].
  cbn [bind result_map].
  rewrite (store_map eu (set_next (At (i + 1))) (set_next (At (i + 1))))
    by reflexivity.
  destruct (store a1 i _) as [a2|]; [|reflexivity].
  cbn [bind result_map]. apply IH.
Qed.

Lemma op_clear_erase p :
  clear (op_erase p) = result_map op_erase (clear p).
Proof.
  unfold clear. cbn [op_erase pool_ capacity_].
  rewrite op_clear_loop_erase.
  destruct (clear_loop _ _ _) as [a1|]; [|reflexivity].
  cbn [bind result_map].
  rewrite (store_map eu (set_next Null) (set_next Null)) by reflexivity.
  destruct (store a1 _ _) as [a2|]; reflexivity.
Qed.

Lemma op_activate_erase p :
  activate (op_erase p)
  = result_map (fun r => (fst r, op_erase (snd r))) (activate p).
Proof.
  unfold activate. cbn [op_erase pool_ first_available_ capacity_
                        active_count_].
  destruct (first_available_ p) as [|i]; [reflexivity|].
  rewrite (store_map eu (set_active true) (set_active true)) by reflexivity.
  destruct (store (pool_ p) i _) as [a1|]; [|reflexivity].
  cbn [bind result_map]. rewrite load_map.
  destruct (load a1 i) as [u|]; reflexivity.
Qed.

Lemma op_deactivate_erase index p :
  deactivate index (op_erase p) = result_map op_erase (deactivate index p).
Proof.
  unfold deactivate. cbn [op_erase pool_ first_available_ capacity_
                          active_count_].
  destruct (index <? capacity_ p); [|reflexivity].
  rewrite (store_map eu (set_active false) (set_active false))
    by reflexivity.
  destruct (store (pool_ p) index _) as [a1|]; [|reflexivity].
  cbn [bind result_map].
  rewrite (store_map eu (set_next (first_available_ p))
             (set_next (first_available_ p))) by reflexivity.
  destruct (store a1 index _) as [a2|]; reflexivity.
Qed.

Lemma op_call_erase c p :
  op_call c (op_erase p)
  = result_map (fun r => (fst r, op_erase (snd r))) (op_call c p).
Proof.
  destruct c as [|index|]; cbn [op_call].
  - rewrite op_activate_erase. destruct (activate p); reflexivity.
  - rewrite op_deactivate_erase. destruct (deactivate index p); reflexivity.
  - rewrite op_clear_erase. destruct (clear p); reflexivity.
Qed.

Lemma op_run_erase cs : forall p,
  op_run cs (op_erase p)
  = result_map (fun r => (fst r, op_erase (snd r))) (op_run cs p).
Proof.
  induction cs as [|c cs IH]; intros p; [reflexivity|].
  cbn [op_run]. rewrite op_call_erase.
  destruct (op_call c p) as [r|]; [|reflexivity].
  cbn [bind result_map snd fst]. rewrite IH.
  destruct (op_run cs (snd r)); reflexivity.
Qed.

Lemma op_assign_erase index v p q :
  subscript_assign index v p = Ok q -> op_erase q = op_erase p.
Proof.
  unfold subscript_assign. intros Hrun.
  destruct (store (pool_ p) index (set_object v)) as [a1|] eqn:Hst;
    [|discriminate].
  injection Hrun as <-. unfold op_erase. cbn [pool_ first_available_
    capacity_ active_count_].
  now rewrite (map_units_store_id eu (set_object v) _ _ _
                 (fun _ => eq_refl) Hst).
Qed.

Lemma op_assign_defined index v p :
  op_storage_ok p -> 0 <= index < capacity_ p ->
  exists q,
    subscript_assign index v p = Ok q /\ op_storage_ok q /\
    capacity_ q = capacity_ p /\
    forall j, subscript j q
              = if j =? index then Ok v else subscript j p.
Proof.
  intros (a & Hp & Hlen & Hcap) Hi.
  destruct (get_in_range a index) as [u Hu]; [lia|].
  unfold subscript_assign. rewrite Hp, store_get, Hu. cbn [bind].
  eexists. split; [reflexivity|]. split; [|split; [reflexivity|]].
  - eexists. cbn [pool_ capacity_]. split; [reflexivity|].
    rewrite length_upd. auto.
  - intros j. unfold subscript. cbn [pool_]. rewrite Hp.
    rewrite (load_upd _ _ _ _ _ Hu).
    destruct (j =? index); reflexivity.
Qed.

Lemma op_call_storage_ok c p r :
  op_storage_ok p -> op_call c p = Ok r ->
  op_storage_ok (snd r) /\ capacity_ (snd r) = capacity_ p.
Proof.
  intros (a & Hp & Hlen & Hcap) Hrun.
  destruct (op_call_frame _ _ _ Hrun) as (_ & Hunits & Hc).
  split; [|exact Hc].
  rewrite Hp in Hunits. cbn [units] in Hunits.
  destruct (units_positive (pool_ (snd r))) as (b & Hb & Hlb); [lia|].
  exists b. split; [exact Hb|]. split; lia.
Qed.

Lemma op_wrun_spec (ws : list (wcall T)) : forall p hs q,
  op_storage_ok p -> Forall (wcall_ok (capacity p)) ws ->
  op_run (manage_only ws) p = Ok (hs, q) ->
  exists q',
    op_wrun ws p = Ok (hs, q') /\ op_erase q' = op_erase q /\
    forall j, subscript j q'
              = match last_write j ws with
                | Some v => Ok v
                | None => subscript j p
                end.
Proof.
  unfold capacity.
  induction ws as [|w ws IH]; intros p hs q Hok Hws Hrun.
  - injection Hrun as <- <-. exists p. repeat split.
  - apply Forall_cons in Hws as [Hw Hws]. destruct w as [c|index v].
    + cbn [manage_only op_run] in Hrun.
      destruct (op_call c p) as [r|] eqn:Hc; [|discriminate].
      cbn [bind] in Hrun.
      destruct (op_run (manage_only ws) (snd r)) as [[hs2 q2]|] eqn:Hr2;
        [|discriminate].
      injection Hrun as <- <-.
      destruct (op_call_storage_ok _ _ _ Hok Hc) as [Hok' Hcap'].
      rewrite <- Hcap' in Hws.
      destruct (IH _ _ _ Hok' Hws Hr2) as (q' & Hw' & He & Hobj).
      exists q'. cbn [op_wrun op_wcall]. rewrite Hc. cbn [bind].
      rewrite Hw'. split; [reflexivity|]. split; [exact He|].
      intros j. rewrite Hobj. cbn [last_write].
      destruct (last_write j ws); [reflexivity|].
      apply (op_call_frame _ _ _ Hc).
    + cbn [manage_only] in Hrun. cbn [wcall_ok] in Hw.
      destruct (op_assign_defined index v p Hok Hw)
        as (p1 & Ha & Hok1 & Hcap1 & Hobj1).
      pose proof (op_run_erase (manage_only ws) p1) as R1.
      rewrite (op_assign_erase _ _ _ _ Ha), op_run_erase, Hrun in R1.
      destruct (op_run (manage_only ws) p1) as [[hs1 q1]|] eqn:Hr1;
        [|discriminate].
      cbn [result_map fst snd] in R1.
      assert (hs = hs1 /\ op_erase q = op_erase q1) as [-> He1]
        by (split; congruence).
      rewrite <- Hcap1 in Hws.
      destruct (IH _ _ _ Hok1 Hws Hr1) as (q' & Hw' & He & Hobj).
      exists q'. cbn [op_wrun op_wcall]. rewrite Ha. cbn [bind snd fst].
      rewrite Hw'. split; [reflexivity|]. split; [congruence|].
      intros j. rewrite Hobj. cbn [last_write].
      destruct (last_write j ws); [reflexivity|].
      rewrite Hobj1. destruct (j =? index); reflexivity.
Qed.
End BasicErase.

Section IndexedErase.
Import IndexedObjectPool.
Context {T : Type}.
Implicit Types (p : pool T) (pl : option (list (IndexedPoolUnit T))).

Local Abbreviation eu := (ip_erase_unit (T:=T)).

Lemma ip_clear_loop_erase n : forall i pl,
  clear_loop n i (map_units eu pl)
  = result_map (map_units eu) (clear_loop n i pl).
Proof.
  induction n as [|n IH]; intros i pl; [reflexivity|].
  cbn [clear_loop].
  rewrite (store_map eu (set_active false) (set_active false))
    by reflexivity.
  destruct (store pl i (set_active false)) as [a1|]; [|reflexivity].
  cbn [bind result_map].
  rewrite (store_map eu (set_index i) (set_index i)) by reflexivity.
  destruct (store a1 i (set_index i)) as [a2|]; [|reflexivity].
  cbn [bind result_map].
  rewrite (store_map eu (set_next (At (i + 1))) (set_next (At (i + 1))))
    by reflexivity.
  destruct (store a2 i _) as [a3|]; [|reflexivity].
  cbn [bind result_map]. apply IH.
Qed.

Lemma ip_clear_erase p :
  clear (ip_erase p) = result_map ip_erase (clear p).
Proof.
  unfold clear. cbn [ip_erase pool_ capacity_].
  rewrite ip_clear_loop_erase.
  destruct (clear_loop _ _ _) as [a1|]; [|reflexivity].
  cbn [bind result_map].
  rewrite (store_map eu (set_next Null) (set_next Null)) by reflexivity.
  destruct (store a1 _ _) as [a2|]; reflexivity.
Qed.

Lemma ip_activate_erase p :
  activate (ip_erase p)
  = result_map (fun r => (fst r, ip_erase (snd r))) (activate p).
Proof.
  unfold activate. cbn [ip_erase pool_ first_available_ capacity_
                        active_count_ highest_active_index_].
  destruct (first_available_ p) as [|i]; [reflexivity|].
  rewrite (store_map eu (set_active true) (set_active true)) by reflexivity.
  destruct (store (pool_ p) i _) as [a1|]; [|reflexivity].
  cbn [bind result_map]. rewrite load_map.
  destruct (load a1 i) as [u|]; reflexivity.
Qed.

Lemma ip_link_free_erase first index pl :
  link_free first index (map_units eu pl)
  = result_map (fun r => (fst r, map_units eu (snd r)))
      (link_free first index pl).
Proof.
  unfold link_free. rewrite load_map.
  destruct (load pl index) as [u|]; [|reflexivity].
  cbn [bind result_map].
  change (next_ (eu u)) with (next_ u).
  destruct (ptr_lt first (next_ u)).
  - rewrite deref_map.
    destruct (deref pl first) as [h|]; [|reflexivity].
    cbn [bind result_map]. change (next_ (eu h)) with (next_ h).
    rewrite (store_at_map eu (set_next (At index)) (set_next (At index)))
      by reflexivity.
    destruct (store_at pl first _) as [a1|]; [|reflexivity].
    cbn [bind result_map].
    rewrite (store_map eu (set_next (next_ h)) (set_next (next_ h)))
      by reflexivity.
    destruct (store a1 index _) as [a2|]; reflexivity.
  - rewrite (store_map eu (set_next first) (set_next first)) by reflexivity.
    destruct (store pl index _) as [a1|]; reflexivity.
Qed.

Lemma ip_scan_down_erase pl n :
  scan_down (map_units eu pl) n = scan_down pl n.
Proof.
  induction n as [|n IH]; [reflexivity|].
  cbn [scan_down]. rewrite load_map.
  destruct (load pl (Z.of_nat n)) as [u|]; [|reflexivity].
  cbn [bind result_map]. change (active_ (eu u)) with (active_ u).
  destruct (active_ u); [reflexivity|exact IH].
Qed.

Lemma ip_deactivate_erase index p :
  deactivate index (ip_erase p) = result_map ip_erase (deactivate index p).
Proof.
  unfold deactivate. cbn [ip_erase pool_ first_available_ capacity_
                          active_count_ highest_active_index_].
  destruct (index <? capacity_ p); [|reflexivity].
  rewrite (store_map eu (set_active false) (set_active false))
    by reflexivity.
  destruct (store (pool_ p) index _) as [a1|]; [|reflexivity].
  cbn [bind result_map]. rewrite ip_link_free_erase.
  destruct (link_free _ _ a1) as [fa|]; [|reflexivity].
  cbn [bind result_map fst snd].
  destruct (highest_active_index_ p =? index); [|reflexivity].
  destruct (index =? 0); [reflexivity|].
  rewrite ip_scan_down_erase.
  destruct (scan_down _ _) as [[i|]|]; reflexivity.
Qed.

Lemma ip_call_erase c p :
  ip_call c (ip_erase p)
  = result_map (fun r => (fst r, ip_erase (snd r))) (ip_call c p).
Proof.
  destruct c as [|index|]; cbn [ip_call].
  - rewrite ip_activate_erase. destruct (activate p); reflexivity.
  - rewrite ip_deactivate_erase. destruct (deactivate index p); reflexivity.
  - rewrite ip_clear_erase. destruct (clear p); reflexivity.
Qed.

Lemma ip_run_erase cs : forall p,
  ip_run cs (ip_erase p)
  = result_map (fun r => (fst r, ip_erase (snd r))) (ip_run cs p).
Proof.
  induction cs as [|c cs IH]; intros p; [reflexivity|].
  cbn [ip_run]. rewrite ip_call_erase.
  destruct (ip_call c p) as [r|]; [|reflexivity].
  cbn [bind result_map snd fst]. rewrite IH.
  destruct (ip_run cs (snd r)); reflexivity.
Qed.

Lemma ip_assign_erase index v p q :
  subscript_assign index v p = Ok q -> ip_erase q = ip_erase p.
Proof.
  unfold subscript_assign. intros Hrun.
  destruct (store (pool_ p) index (set_object v)) as [a1|] eqn:Hst;
    [|discriminate].
  injection Hrun as <-. unfold ip_erase. cbn [pool_ first_available_
    capacity_ active_count_ highest_active_index_].
  now rewrite (map_units_store_id eu (set_object v) _ _ _
                 (fun _ => eq_refl) Hst).
Qed.

Lemma ip_assign_defined index v p :
  ip_storage_ok p -> 0 <= index < capacity_ p ->
  exists q,
    subscript_assign index v p = Ok q /\ ip_storage_ok q /\
    capacity_ q = capacity_ p /\
    forall j, subscript j q
              = if j =? index then Ok v else subscript j p.
Proof.
  intros (a & Hp & Hlen & Hcap) Hi.
  destruct (get_in_range a index) as [u Hu]; [lia|].
  unfold subscript_assign. rewrite Hp, store_get, Hu. cbn [bind].
  eexists. split; [reflexivity|]. split; [|split; [reflexivity|]].
  - eexists. cbn [pool_ capacity_]. split; [reflexivity|].
    rewrite length_upd. auto.
  - intros j. unfold subscript. cbn [pool_]. rewrite Hp.
    rewrite (load_upd _ _ _ _ _ Hu).
    destruct (j =? index); reflexivity.
Qed.

Lemma ip_call_storage_ok c p r :
  ip_storage_ok p -> ip_call c p = Ok r ->
  ip_storage_ok (snd r) /\ capacity_ (snd r) = capacity_ p.
Proof.
  intros (a & Hp & Hlen & Hcap) Hrun.
  destruct (ip_call_frame _ _ _ Hrun) as (_ & Hunits & Hc).
  split; [|exact Hc].
  rewrite Hp in Hunits. cbn [units] in Hunits.
  destruct (units_positive (pool_ (snd r))) as (b & Hb & Hlb); [lia|].
  exists b. split; [exact Hb|]. split; lia.
Qed.

Lemma ip_wrun_spec (ws : list (wcall T)) : forall p hs q,
  ip_storage_ok p -> Forall (wcall_ok (capacity p)) ws ->
  ip_run (manage_only ws) p = Ok (hs, q) ->
  exists q',
    ip_wrun ws p = Ok (hs, q') /\ ip_erase q' = ip_erase q /\
    forall j, subscript j q'
              = match last_write j ws with
                | Some v => Ok v
                | None => subscript j p
                end.
Proof.
  unfold capacity.
  induction ws as [|w ws IH]; intros p hs q Hok Hws Hrun.
  - injection Hrun as <- <-. exists p. repeat split.
  - apply Forall_cons in Hws as [Hw Hws]. destruct w as [c|index v].
    + cbn [manage_only ip_run] in Hrun.
      destruct (ip_call c p) as [r|] eqn:Hc; [|discriminate].
      cbn [bind] in Hrun.
      destruct (ip_run (manage_only ws) (snd r)) as [[hs2 q2]|] eqn:Hr2;
        [|discriminate].
      injection Hrun as <- <-.
      destruct (ip_call_storage_ok _ _ _ Hok Hc) as [Hok' Hcap'].
      rewrite <- Hcap' in Hws.
      destruct (IH _ _ _ Hok' Hws Hr2) as (q' & Hw' & He & Hobj).
      exists q'. cbn [ip_wrun ip_wcall]. rewrite Hc. cbn [bind].
      rewrite Hw'. split; [reflexivity|]. split; [exact He|].
      intros j. rewrite Hobj. cbn [last_write].
      destruct (last_write j ws); [reflexivity|].
      apply (ip_call_frame _ _ _ Hc).
    + cbn [manage_only] in Hrun. cbn [wcall_ok] in Hw.
      destruct (ip_assign_defined index v p Hok Hw)
        as (p1 & Ha & Hok1 & Hcap1 & Hobj1).
      pose proof (ip_run_erase (manage_only ws) p1) as R1.
      rewrite (ip_assign_erase _ _ _ _ Ha), ip_run_erase, Hrun in R1.
      destruct (ip_run (manage_only ws) p1) as [[hs1 q1]|] eqn:Hr1;
        [|discriminate].
      cbn [result_map fst snd] in R1.
      assert (hs = hs1 /\ ip_erase q = ip_erase q1) as [-> He1]
        by (split; congruence).
      rewrite <- Hcap1 in Hws.
      destruct (IH _ _ _ Hok1 Hws Hr1) as (q' & Hw' & He & Hobj).
      exists q'. cbn [ip_wrun ip_wcall]. rewrite Ha. cbn [bind snd fst].
      rewrite Hw'. split; [reflexivity|]. split; [congruence|].
      intros j. rewrite Hobj. cbn [last_write].
      destruct (last_write j ws); [reflexivity|].
      rewrite Hobj1. destruct (j =? index); reflexivity.
Qed.
End IndexedErase.

(** X11.  The pools never look at the objects they store, and writing
    an object through [operator[]] never touches what the pools manage.
    Running any call sequence on a pool whose objects have been forgotten
    gives the same handles, the same faults and the same flags, links and
    counters as running it on the pool itself.  When a client also writes
    objects at in-range indices between the calls, of a pool that has its
    array, the handles, flags, links and counters are those of the run
    without the writes, and in the end every index reads the object
    written there last, or what it read at the start if none was written.
    Both variants. *)
Theorem pool_ignores_objects (T : Type) :
  (forall cs (p : ObjectPool.pool T),
     op_run cs (op_erase p)
     = result_map (fun r => (fst r, op_erase (snd r))) (op_run cs p)) /\
  (forall ws (p : ObjectPool.pool T) hs q,
     op_storage_ok p -> Forall (wcall_ok (ObjectPool.capacity p)) ws ->
     op_run (manage_only ws) p = Ok (hs, q) ->
     exists q',
       op_wrun ws p = Ok (hs, q') /\ op_erase q' = op_erase q /\
       forall j, ObjectPool.subscript j q'
                 = match last_write j ws with
                   | Some v => Ok v
                   | None => ObjectPool.subscript j p
                   end) /\
  (forall cs (p : IndexedObjectPool.pool T),
     ip_run cs (ip_erase p)
     = result_map (fun r => (fst r, ip_erase (snd r))) (ip_run cs p)) /\
  (forall ws (p : IndexedObjectPool.pool T) hs q,
     ip_storage_ok p ->
     Forall (wcall_ok (IndexedObjectPool.capacity p)) ws ->
     ip_run (manage_only ws) p = Ok (hs, q) ->
     exists q',
       ip_wrun ws p = Ok (hs, q') /\ ip_erase q' = ip_erase q /\
       forall j, IndexedObjectPool.subscript j q'
                 = match last_write j ws with
                   | Some v => Ok v
                   | None => IndexedObjectPool.subscript j p
                   end).
Proof.
  split; [|split; [|split]].
  - intros cs p. apply op_run_erase.
  - intros ws p hs q. apply op_wrun_spec.
  - intros cs p. apply ip_run_erase.
  - intros ws p hs q. apply ip_wrun_spec.
Qed.

Lemma pool_ignores_objects_witness :
  op_storage_ok op_written_cleared /\
  Forall (wcall_ok (ObjectPool.capacity op_written_cleared)) written_calls /\
  op_run (manage_only written_calls) op_written_cleared
  = Ok ([At 0; At 1], op_written) /\
  exists q',
    op_wrun written_calls op_written_cleared = Ok ([At 0; At 1], q') /\
    op_erase q' = op_two_of_three /\
    ObjectPool.subscript 0 q' = Ok 12 /\
    ObjectPool.subscript 1 q' = Ok 21 /\
    ObjectPool.subscript 2 q' = Ok 30.
Proof.
  assert (op_storage_ok op_written_cleared) as Hok.
  { eexists. split; [reflexivity|]. split; [reflexivity|].
    simpl. unfold size_t_modulus. lia. }
  assert (Forall (wcall_ok (ObjectPool.capacity op_written_cleared))
            written_calls) as Hws.
  { repeat constructor; simpl; lia. }
  assert (op_run (manage_only written_calls) op_written_cleared
          = Ok ([At 0; At 1], op_written)) as Hrun
    by (vm_compute; reflexivity).
  split; [exact Hok|]. split; [exact Hws|]. split; [exact Hrun|].
  destruct (proj1 (proj2 (pool_ignores_objects Z)) written_calls
              op_written_cleared _ _ Hok Hws Hrun)
    as (q' & Hw & He & Hobj).
  exists q'. split; [exact Hw|]. split; [exact He|].
  split; [exact (Hobj 0)|]. split; [exact (Hobj 1)|exact (Hobj 2)].
Defined.

(** * The timer *)

Section TimerFacts.
Import Timer.

Lemma sub64_in_range a b :
  int64_min <= a - b <= int64_max -> sub64 a b = Some (a - b).
Proof. intros H. unfold sub64. zcases. Qed.

Lemma sub64_ordered a b :
  0 <= b <= a -> a <= int64_max -> sub64 a b = Some (a - b).
Proof.
  intros Hb Ha. apply sub64_in_range. unfold int64_min, int64_max in *. lia.
Qed.

Lemma list_last_cons (l : list Z) : forall r d,
  List.last (r :: l) d = List.last l r.
Proof.
  induction l as [|x l IH]; intros r d; [reflexivity|].
  change (List.last (r :: x :: l) d) with (List.last (x :: l) d).
  now rewrite !IH.
Qed.

Lemma steady_app from l1 : forall l2,
  steady from (l1 ++ l2) <-> steady from l1 /\ steady (List.last l1 from) l2.
Proof.
  revert from. induction l1 as [|r l1 IH]; intros from l2.
  - simpl. tauto.
  - change (steady from ((r :: l1) ++ l2))
      with (from <= r <= int64_max /\ steady r (l1 ++ l2)).
    rewrite IH, list_last_cons. cbn [steady]. tauto.
Qed.

Lemma timer_ok_later last last' t :
  timer_ok last t -> last <= last' -> timer_ok last' t.
Proof.
  intros [Hf Hp Hs Hpt] Hle. constructor; try assumption; [lia|].
  intros Hpa. specialize (Hpt Hpa). lia.
Qed.

Lemma timer_ok_initial last : 0 <= last -> timer_ok last initial.
Proof. intros H. constructor; simpl; try reflexivity; try discriminate; lia. Qed.

Lemma timer_ok_start now t :
  0 <= now -> timer_ok now (start now t).
Proof. intros H. constructor; simpl; try reflexivity; try discriminate; lia. Qed.

Lemma timer_elapsed_ok last now t :
  timer_ok last t -> last <= now <= int64_max ->
  exists d, elapsed now t = Some d /\ 0 <= d <= now.
Proof.
  intros [Hf Hp Hs Hpt] Hnow. unfold elapsed.
  destruct (m_started t); [|exists 0; split; [reflexivity|lia]].
  destruct (m_paused t).
  - specialize (Hpt eq_refl). rewrite sub64_ordered by lia.
    eexists. split; [reflexivity|lia].
  - rewrite sub64_ordered by lia. eexists. split; [reflexivity|lia].
Qed.

Lemma timer_pause_ok last now t :
  timer_ok last t -> last <= now -> timer_ok now (pause now t).
Proof.
  intros Hok Hnow. unfold pause.
  destruct (m_started t && negb (m_paused t)) eqn:Hc;
    [|exact (timer_ok_later _ _ _ Hok Hnow)].
  apply andb_prop in Hc as [Hst _].
  destruct Hok as [Hf Hp Hs Hpt].
  constructor; simpl; [assumption | intros _; assumption | lia
                      | intros _; lia].
Qed.

Lemma timer_resume_ok last now t :
  timer_ok last t -> last <= now <= int64_max ->
  exists t', resume now t = Some t' /\ timer_ok now t'.
Proof.
  intros Hok Hnow. unfold resume.
  destruct (m_started t && m_paused t) eqn:Hc.
  - apply andb_prop in Hc as [Hst Hpa].
    destruct Hok as [Hf Hp Hs Hpt]. specialize (Hpt Hpa).
    rewrite sub64_ordered by lia. rewrite sub64_ordered by lia.
    eexists. split; [reflexivity|].
    constructor; simpl; try assumption; try discriminate. lia.
  - exists t. split; [reflexivity|].
    exact (timer_ok_later _ _ _ Hok (proj1 Hnow)).
Qed.

(** One call under a steady clock. *)
Lemma timer_step_ok c last t :
  timer_ok last t -> last <= int64_max -> steady last (readings c) ->
  exists d t',
    step c t = Some (d, t') /\
    timer_ok (List.last (readings c) last) t' /\
    List.last (readings c) last <= int64_max /\
    forall x, d = Some x -> 0 <= x <= int64_max.
Proof.
  intros Hok Hlast Hst.
  pose proof (ok_started _ _ Hok) as Hs0.
  destruct c as [now| |now|now|now1 now2|now]; simpl in Hst; cbn [step readings List.last].
  - destruct Hst as [Hn _]. eexists _, _. split; [reflexivity|].
    split; [apply timer_ok_start; lia|].
    split; [lia|discriminate].
  - eexists _, _. split; [reflexivity|].
    split; [|split; [assumption|discriminate]].
    constructor; simpl; try reflexivity; try discriminate. lia.
  - destruct Hst as [Hn _]. eexists _, _. split; [reflexivity|].
    split; [apply (timer_pause_ok last); [assumption|lia]|].
    split; [lia|discriminate].
  - destruct Hst as [Hn _].
    destruct (timer_resume_ok last now t Hok Hn) as (t' & -> & Hok').
    eexists _, _. split; [reflexivity|].
    split; [assumption|]. split; [lia|discriminate].
  - destruct Hst as [Hn1 [Hn2 _]].
    destruct (timer_elapsed_ok last now1 t Hok Hn1) as (d & Hd & Hr).
    unfold restart. rewrite Hd. eexists _, _. split; [reflexivity|].
    split; [|split; [lia|]].
    + constructor; simpl; try reflexivity; try discriminate. lia.
    + intros x [= <-]. lia.
  - destruct Hst as [Hn _].
    destruct (timer_elapsed_ok last now t Hok Hn) as (d & -> & Hr).
    eexists _, _. split; [reflexivity|].
    split; [exact (timer_ok_later _ _ _ Hok (proj1 Hn))|].
    split; [lia|]. intros x [= <-]. lia.
Qed.

Lemma timer_run_ok cs : forall last t,
  timer_ok last t -> last <= int64_max ->
  steady last (concat (readings <$> cs)) ->
  exists ds t',
    run cs t = Some (ds, t') /\
    Forall (fun d => 0 <= d <= int64_max) ds /\
    m_stopped t' = negb (m_started t') /\
    (m_paused t' = true -> m_started t' = true).
Proof.
  induction cs as [|c cs IH]; intros last t Hok Hlast Hst.
  - exists [], t. split; [reflexivity|]. split; [constructor|].
    split; [exact (ok_flags _ _ Hok)|exact (ok_paused _ _ Hok)].
  - cbn [fmap list_fmap concat] in Hst. apply steady_app in Hst as [H1 H2].
    destruct (timer_step_ok c last t Hok Hlast H1)
      as (d & t1 & Hstep & Hok1 & Hlast1 & Hd).
    destruct (IH _ _ Hok1 Hlast1 H2) as (ds & t' & Hrun & Hds & Hflags).
    cbn [run]. rewrite Hstep, Hrun.
    eexists _, t'. split; [reflexivity|]. split; [|exact Hflags].
    destruct d as [x|]; [|assumption].
    constructor; [exact (Hd x eq_refl)|assumption].
Qed.
End TimerFacts.

(** X12.  Under a steady clock whose readings are non-negative counts
    since its epoch, never decrease and fit the clock's signed 64-bit
    count, no sequence of [start], [stop], [pause], [resume], [restart]
    and [elapsed] calls on a timer overflows, every duration that
    [elapsed] and [restart] return is non-negative, and the timer stays
    consistent: it is stopped exactly when it is not started and paused
    only while started.  (A clock that reads negative counts can
    overflow the subtraction: started at -10 and read at 2^63 - 1,
    [elapsed] has no value.) *)
Theorem timer_steady_clock_safe (start_now : bool) (now0 : Z)
    (cs : list Timer.tcall) :
  0 <= now0 <= Timer.int64_max ->
  Timer.steady now0 (concat (Timer.readings <$> cs)) ->
  exists ds t,
    Timer.run cs (Timer.construct start_now now0) = Some (ds, t) /\
    Forall (fun d => 0 <= d <= Timer.int64_max) ds /\
    Timer.stopped t = negb (Timer.started t) /\
    (Timer.paused t = true -> Timer.started t = true).
Proof.
  intros Hnow Hst.
  apply (timer_run_ok cs now0); [|lia|assumption].
  unfold Timer.construct. destruct start_now.
  - apply timer_ok_start. lia.
  - apply timer_ok_initial. lia.
Qed.

Lemma timer_steady_clock_safe_witness :
  0 <= 10 <= Timer.int64_max /\
  Timer.steady 10
    (concat (Timer.readings <$>
       [Timer.Pause 15; Timer.Elapsed 20; Timer.Resume 30;
        Timer.Restart 42 43; Timer.Stop; Timer.Elapsed 50])) /\
  exists ds t,
    Timer.run [Timer.Pause 15; Timer.Elapsed 20; Timer.Resume 30;
               Timer.Restart 42 43; Timer.Stop; Timer.Elapsed 50]
              (Timer.construct true 10) = Some (ds, t) /\
    Forall (fun d => 0 <= d <= Timer.int64_max) ds /\
    Timer.stopped t = negb (Timer.started t) /\
    (Timer.paused t = true -> Timer.started t = true).
Proof.
  assert (0 <= 10 <= Timer.int64_max) as Hnow
    by (unfold Timer.int64_max; lia).
  assert (Timer.steady 10
    (concat (Timer.readings <$>
       [Timer.Pause 15; Timer.Elapsed 20; Timer.Resume 30;
        Timer.Restart 42 43; Timer.Stop; Timer.Elapsed 50]))) as Hst.
  { simpl. unfold Timer.int64_max. lia. }
  split; [exact Hnow|]. split; [exact Hst|].
  exact (timer_steady_clock_safe true 10 _ Hnow Hst).
Defined.

(** Why the readings have to be non-negative: readings that never
    decrease and fit the count do not keep the subtraction in range when
    the first one is negative. *)
Lemma timer_negative_reading_overflows :
  Timer.steady (-10) [Timer.int64_max] /\
  Timer.run [Timer.Elapsed Timer.int64_max] (Timer.construct true (-10))
  = None.
Proof.
  split; [simpl; unfold Timer.int64_max; lia|]. vm_compute. reflexivity.
Qed.

(** What that run returns: 5 while paused, 17 at the restart (the pause
    from 15 to 30 is left out), 0 once stopped. *)
Lemma timer_run_example :
  Timer.run [Timer.Pause 15; Timer.Elapsed 20; Timer.Resume 30;
             Timer.Restart 42 43; Timer.Stop; Timer.Elapsed 50]
            (Timer.construct true 10)
  = Some ([5; 17; 0], Timer.initial).
Proof. vm_compute. reflexivity. Qed.

(** X13.  Pausing a running timer freezes [elapsed()] at the value it
    has at the pause, whatever the clock reads later, and resuming leaves
    the pause out: right after [resume()] the timer shows the frozen
    value, and from then on it shows the time run before the pause plus
    the time run since the resume.  The timer was started at a
    non-negative reading, and the readings of the pause, the resume and
    the later [elapsed()] follow in this order within the signed 64-bit
    count. *)
Theorem timer_pause_resume (t : Timer.timer) (tp tr now : Z) :
  Timer.started t = true -> Timer.paused t = false ->
  0 <= Timer.m_started_time t <= tp -> tp <= tr -> tr <= now ->
  now <= Timer.int64_max ->
  Timer.elapsed tp t = Some (tp - Timer.m_started_time t) /\
  Timer.elapsed now (Timer.pause tp t) = Timer.elapsed tp t /\
  exists t',
    Timer.resume tr (Timer.pause tp t) = Some t' /\
    Timer.paused t' = false /\ Timer.started t' = true /\
    Timer.elapsed tr t' = Timer.elapsed tp t /\
    Timer.elapsed now t'
    = Some ((tp - Timer.m_started_time t) + (now - tr)).
Proof.
  destruct t as [pt st pa sd sp].
  unfold Timer.started, Timer.paused, Timer.pause, Timer.resume,
    Timer.elapsed.
  cbn [Timer.m_started Timer.m_paused Timer.m_paused_time
       Timer.m_started_time Timer.m_stopped].
  intros -> -> Hs Htr Hnow Hmax.
  cbn [andb negb Timer.m_started Timer.m_paused Timer.m_paused_time
       Timer.m_started_time Timer.m_stopped].
  rewrite !(sub64_ordered tp st) by lia.
  rewrite (sub64_ordered tr (tp - st)) by lia.
  split; [reflexivity|]. split; [reflexivity|].
  eexists. split; [reflexivity|].
  cbn [Timer.m_started Timer.m_paused Timer.m_paused_time
       Timer.m_started_time Timer.m_stopped].
  split; [reflexivity|]. split; [reflexivity|].
  rewrite !sub64_ordered by lia. split; f_equal; lia.
Qed.

Lemma timer_pause_resume_witness :
  Timer.started (Timer.construct true 10) = true /\
  Timer.paused (Timer.construct true 10) = false /\
  0 <= Timer.m_started_time (Timer.construct true 10) <= 15 /\
  15 <= 30 /\ 30 <= 42 /\ 42 <= Timer.int64_max /\
  exists t',
    Timer.resume 30 (Timer.pause 15 (Timer.construct true 10)) = Some t' /\
    Timer.elapsed 42 t' = Some 17.
Proof.
  assert (42 <= Timer.int64_max) as Hmax by (unfold Timer.int64_max; lia).
  split; [reflexivity|]. split; [reflexivity|]. split; [simpl; lia|].
  split; [lia|]. split; [lia|]. split; [exact Hmax|].
  destruct (timer_pause_resume (Timer.construct true 10) 15 30 42
              eq_refl eq_refl ltac:(simpl; lia) ltac:(lia) ltac:(lia) Hmax)
    as (_ & _ & t' & Hres & _ & _ & _ & Hel).
  exists t'. split; [exact Hres|exact Hel].
Defined.

(** X14.  Pausing twice and resuming twice change nothing the second
    time: a second [pause()] keeps the first pause time, a second
    [resume()] keeps the start time; [pause()] on a timer that is not
    running and [resume()] on a timer that is not paused do nothing. *)
Theorem timer_pause_resume_idempotent (t : Timer.timer) (n1 n2 : Z) :
  Timer.pause n2 (Timer.pause n1 t) = Timer.pause n1 t /\
  (forall t', Timer.resume n1 t = Some t' ->
              Timer.resume n2 t' = Some t') /\
  (Timer.started t = false -> Timer.pause n1 t = t) /\
  (Timer.paused t = false -> Timer.resume n1 t = Some t).
Proof.
  destruct t as [pt st pa sd sp].
  unfold Timer.started, Timer.paused, Timer.pause, Timer.resume.
  cbn [Timer.m_started Timer.m_paused Timer.m_paused_time
       Timer.m_started_time Timer.m_stopped].
  split; [|split; [|split]].
  - destruct sd, pa; reflexivity.
  - intros t'. destruct sd, pa; cbn [andb];
      try (intros [= <-]; reflexivity).
    destruct (Timer.sub64 pt st) as [pl|]; [|discriminate].
    destruct (Timer.sub64 n1 pl); [|discriminate].
    intros [= <-]. reflexivity.
  - intros ->. reflexivity.
  - intros ->. rewrite andb_false_r. reflexivity.
Qed.

Lemma timer_pause_resume_idempotent_witness :
  Timer.started Timer.initial = false /\
  Timer.pause 5 Timer.initial = Timer.initial /\
  Timer.paused Timer.initial = false /\
  Timer.resume 5 Timer.initial = Some Timer.initial.
Proof.
  pose proof (timer_pause_resume_idempotent Timer.initial 5 6)
    as (_ & _ & Hp & Hr).
  split; [reflexivity|]. split; [exact (Hp eq_refl)|].
  split; [reflexivity|exact (Hr eq_refl)].
Defined.

(** X15.  The unit conversions agree with each other and truncate
    towards zero: the milliseconds are the microseconds divided by 1000,
    the seconds the milliseconds divided by 1000, the minutes the seconds
    divided by 60, the hours the minutes divided by 60; a negated duration
    converts to the negated count; and the hours differ from the exact
    quotient by less than one hour, never exceeding it in magnitude. *)
Theorem timer_conversions_truncate (d : Z) :
  Timer.toMilliseconds d = Timer.toMicroseconds d ÷ 1000 /\
  Timer.toSeconds d = Timer.toMilliseconds d ÷ 1000 /\
  Timer.toMinutes d = Timer.toSeconds d ÷ 60 /\
  Timer.toHours d = Timer.toMinutes d ÷ 60 /\
  Timer.toHours (- d) = - Timer.toHours d /\
  Timer.toSeconds (- d) = - Timer.toSeconds d /\
  Z.abs (Timer.toHours d * 3600000000000) <= Z.abs d /\
  Z.abs (d - Timer.toHours d * 3600000000000) < 3600000000000.
Proof.
  unfold Timer.toMicroseconds, Timer.toMilliseconds, Timer.toSeconds,
    Timer.toMinutes, Timer.toHours.
  rewrite !Z.quot_quot by lia. simpl Z.mul.
  rewrite !Z.quot_opp_l by lia.
  repeat (split; [reflexivity|]).
  pose proof (Z.quot_rem' d 3600000000000) as Hqr.
  pose proof (Z.rem_bound_abs d 3600000000000 ltac:(lia)) as Hb.
  destruct (Z.le_gt_cases 0 d) as [Hd|Hd].
  - pose proof (Z.rem_nonneg d 3600000000000 ltac:(lia) Hd).
    pose proof (Z.quot_pos d 3600000000000 Hd ltac:(lia)). lia.
  - pose proof (Z.rem_nonpos d 3600000000000 ltac:(lia) ltac:(lia)).
    pose proof (Z.quot_opp_l d 3600000000000 ltac:(lia)) as Ho.
    pose proof (Z.quot_pos (- d) 3600000000000 ltac:(lia) ltac:(lia)). lia.
Qed.

(** X16.  A pool that has been moved from keeps the counters of the pool
    it was and has neither array nor free list.  [activate] on it returns
    [nullptr] and changes nothing; [clear], [active] and [operator[]] go
    through the null array at every index; [deactivate] does so below the
    capacity it still reports and does nothing from there on.  Moving the
    target back restores the original pool and leaves the same moved-from
    state behind.  Both variants. *)
Theorem moved_from_pool (T : Type) :
  (forall B A : ObjectPool.pool T,
     let S := snd (ObjectPool.move_assign B A) in
     ObjectPool.activate S = Ok (Null, S) /\
     ObjectPool.clear S = Undefined NullDeref /\
     (forall i, ObjectPool.active i S = Undefined NullDeref) /\
     (forall i, ObjectPool.subscript i S = Undefined NullDeref) /\
     (forall i, ObjectPool.deactivate i S
                = if i <? ObjectPool.capacity A then Undefined NullDeref
                  else Ok S) /\
     ObjectPool.move_assign S (fst (ObjectPool.move_assign B A)) = (A, S)) /\
  (forall B A : IndexedObjectPool.pool T,
     let S := snd (IndexedObjectPool.move_assign B A) in
     IndexedObjectPool.activate S = Ok (Null, S) /\
     IndexedObjectPool.clear S = Undefined NullDeref /\
     (forall i, IndexedObjectPool.active i S = Undefined NullDeref) /\
     (forall i, IndexedObjectPool.subscript i S = Undefined NullDeref) /\
     (forall i, IndexedObjectPool.deactivate i S
                = if i <? IndexedObjectPool.capacity A
                  then Undefined NullDeref else Ok S) /\
     IndexedObjectPool.move_assign S (fst (IndexedObjectPool.move_assign B A))
     = (A, S)).
Proof.
  split.
  - intros B [f a c n]. cbn zeta.
    unfold ObjectPool.move_assign, ObjectPool.capacity. cbn [fst snd].
    split; [reflexivity|]. split.
    { unfold ObjectPool.clear. cbn [ObjectPool.pool_ ObjectPool.capacity_].
      destruct (Z.to_nat n); reflexivity. }
    split; [reflexivity|]. split; [reflexivity|]. split; [|reflexivity].
    intros i. unfold ObjectPool.deactivate.
    cbn [ObjectPool.pool_ ObjectPool.capacity_].
    destruct (i <? n); reflexivity.
  - intros B [f a c n h]. cbn zeta.
    unfold IndexedObjectPool.move_assign, IndexedObjectPool.capacity.
    cbn [fst snd].
    split; [reflexivity|]. split.
    { unfold IndexedObjectPool.clear.
      cbn [IndexedObjectPool.pool_ IndexedObjectPool.capacity_].
      destruct (Z.to_nat n); reflexivity. }
    split; [reflexivity|]. split; [reflexivity|]. split; [|reflexivity].
    intros i. unfold IndexedObjectPool.deactivate.
    cbn [IndexedObjectPool.pool_ IndexedObjectPool.capacity_].
    destruct (i <? n); reflexivity.
Qed.

(** X17.  A stopped timer reads no clock: from [stop()] on, whatever the
    clock readings are, every sequence of [stop()], [pause()], [resume()]
    and [elapsed()] calls is defined, leaves the timer in the state of a
    timer that was never started, and makes every [elapsed()] return 0.
    Only [start()] and [restart()] set it running again. *)
Theorem timer_stopped_stays_stopped (t : Timer.timer)
    (cs : list Timer.tcall) :
  Forall (fun c => Timer.starts c = false) cs ->
  exists ds,
    Timer.run cs (Timer.stop t) = Some (ds, Timer.initial) /\
    Forall (fun d => d = 0) ds /\
    Timer.stopped Timer.initial = true /\
    Timer.started Timer.initial = false /\
    Timer.paused Timer.initial = false.
Proof.
  change (Timer.stop t) with Timer.initial. clear t.
  intros Hcs.
  assert (exists ds, Timer.run cs Timer.initial = Some (ds, Timer.initial) /\
                     Forall (fun d => d = 0) ds) as (ds & Hrun & Hds).
  { induction Hcs as [|c cs Hc _ (ds & Hrun & Hds)].
    - exists []. split; [reflexivity|constructor].
    - destruct c as [n| |n|n|n1 n2|n]; try discriminate Hc;
        cbn [Timer.run Timer.step].
      + change (Timer.stop Timer.initial) with Timer.initial.
        rewrite Hrun. eauto.
      + change (Timer.pause n Timer.initial) with Timer.initial.
        rewrite Hrun. eauto.
      + change (Timer.resume n Timer.initial) with (Some Timer.initial).
        cbn iota. rewrite Hrun. eauto.
      + change (Timer.elapsed n Timer.initial) with (Some 0).
        cbn iota. rewrite Hrun. eauto. }
  exists ds. repeat split; assumption.
Qed.

Lemma timer_stopped_stays_stopped_witness :
  Forall (fun c => Timer.starts c = false)
    [Timer.Elapsed 9; Timer.Pause 3; Timer.Resume 1; Timer.Elapsed (-5)] /\
  exists ds,
    Timer.run [Timer.Elapsed 9; Timer.Pause 3; Timer.Resume 1;
               Timer.Elapsed (-5)]
      (Timer.stop (Timer.construct true 10)) = Some (ds, Timer.initial) /\
    Forall (fun d => d = 0) ds.
Proof.
  assert (Forall (fun c => Timer.starts c = false)
    [Timer.Elapsed 9; Timer.Pause 3; Timer.Resume 1; Timer.Elapsed (-5)])
    as Hcs by (repeat constructor).
  split; [exact Hcs|].
  destruct (timer_stopped_stays_stopped (Timer.construct true 10) _ Hcs)
    as (ds & Hrun & Hds & _).
  exists ds. split; [exact Hrun|exact Hds].
Defined.
